(** * peersignal-server: rendezvous codes, rate limiter, room registry

    A shallow embedding of [src/server/codes.js], [src/server/rate-limit.js],
    the room registry ([rooms.js]) and the RPC methods and disconnect hook of
    the session coordinator, together with the properties of the
    specification that concern them.

    Conventions.
    - A JavaScript string is a [string]: a sequence of 8-bit code units, read
      as the Latin-1 range U+0000..U+00FF of UTF-16.  On that range
      [toLowerCase], the class [\s] and [trim] are context free and are
      modelled exactly.  The module [Utf16] has [normalizeCode] on the
      strings of any 16-bit code units, with the case conversion that the
      runtime takes from the Unicode Character Database as an argument; the
      two agree on the Latin-1 range ([Utf16Facts.normalizeCode_latin1]).
    - A socket is a handle: the object is determined by [socket.id].
    - [rooms], [socketToRoom], [roomsPerIp] and the limiter's [requests] are
      never iterated by the modelled code and are [gmap]s; [pendingPeers] and
      [approvedPeers] are iterated, so they keep JavaScript's insertion order
      in an association list.
    - Emits, channel joins and leaves are returned as a list of effects, in
      program order. *)

From Stdlib Require Import Ascii String ZArith Lia.
From stdpp Require Import gmap strings list fin_maps pretty.

Local Open Scope string_scope.

(* ===================================================================== *)
(** ** codes.js *)
(* ===================================================================== *)

Module Codes.

(** Code unit of a character. *)
Definition code_unit (c : ascii) : N := N_of_ascii c.

(** [String.prototype.toLowerCase] on one code unit of the Latin-1 range:
    A-Z and U+00C0..U+00DE except U+00D7 move up by 32. *)
Definition lower_char (c : ascii) : ascii :=
  let n := code_unit c in
  if ((65 <=? n) && (n <=? 90))%N then ascii_of_N (n + 32)
  else if ((192 <=? n) && (n <=? 222) && negb (n =? 215))%N then ascii_of_N (n + 32)
  else c.

(** The regular expression class [\s] (and the set removed by [trim]) on the
    Latin-1 range: TAB, LF, VT, FF, CR, SPACE and U+00A0. *)
Definition is_space (c : ascii) : bool :=
  let n := code_unit c in
  ((9 <=? n) && (n <=? 13) || (n =? 32) || (n =? 160))%N.

(** The class [[0o]]. *)
Definition is_0o (c : ascii) : bool :=
  (Ascii.eqb c "0" || Ascii.eqb c "o")%char.

(** The class [[1il]]. *)
Definition is_1il (c : ascii) : bool :=
  (Ascii.eqb c "1" || Ascii.eqb c "i" || Ascii.eqb c "l")%char.

Fixpoint smap (f : ascii -> ascii) (s : string) : string :=
  match s with
  | EmptyString => EmptyString
  | String c r => String (f c) (smap f r)
  end.

Definition toLowerCase (s : string) : string := smap lower_char s.

(** [s.replace(/[cls]/g, r)] for a one-character class and a one-character
    replacement. *)
Definition replace_class (cls : ascii -> bool) (r : ascii) (s : string) : string :=
  smap (fun c => if cls c then r else c) s.

(** [s.replace(/\s+/g, '-')]: the scanner emits one hyphen when it enters a
    maximal run of white space and nothing for the rest of the run. *)
Fixpoint replace_space_runs_from (in_run : bool) (s : string) : string :=
  match s with
  | EmptyString => EmptyString
  | String c r =>
      if is_space c
      then (if in_run then replace_space_runs_from true r
            else String "-"%char (replace_space_runs_from true r))
      else String c (replace_space_runs_from false r)
  end.

Definition replace_space_runs (s : string) : string :=
  replace_space_runs_from false s.

Fixpoint trimStart (s : string) : string :=
  match s with
  | EmptyString => EmptyString
  | String c r => if is_space c then trimStart r else s
  end.

Fixpoint trimEnd (s : string) : string :=
  match s with
  | EmptyString => EmptyString
  | String c r =>
      match trimEnd r with
      | EmptyString => if is_space c then EmptyString else String c EmptyString
      | r' => String c r'
      end
  end.

Definition trim (s : string) : string := trimEnd (trimStart s).

(** [normalizeCode]: the chain of the source, in its order. *)
Definition normalizeCode (code : string) : string :=
  trim
    (replace_space_runs
       (replace_class is_1il "l"%char
          (replace_class is_0o "o"%char
             (toLowerCase code)))).

(** *** The normalisation as the specification words it *)

(** ASCII white space. *)
Definition is_ascii_space (c : ascii) : bool :=
  let n := code_unit c in
  ((9 <=? n) && (n <=? 13) || (n =? 32))%N.

Definition is_hyphen (c : ascii) : bool := Ascii.eqb c "-"%char.

(** A character that the specification trims at either end. *)
Definition is_edge_blank (c : ascii) : bool := is_space c || is_hyphen c.

Fixpoint collapse_ascii_from (in_run : bool) (s : string) : string :=
  match s with
  | EmptyString => EmptyString
  | String c r =>
      if is_ascii_space c
      then (if in_run then collapse_ascii_from true r
            else String "-"%char (collapse_ascii_from true r))
      else String c (collapse_ascii_from false r)
  end.

Fixpoint strip_start (s : string) : string :=
  match s with
  | EmptyString => EmptyString
  | String c r => if is_edge_blank c then strip_start r else s
  end.

Fixpoint strip_end (s : string) : string :=
  match s with
  | EmptyString => EmptyString
  | String c r =>
      match strip_end r with
      | EmptyString => if is_edge_blank c then EmptyString else String c EmptyString
      | r' => String c r'
      end
  end.

(** Specification, section 4.1: lowercase; collapse runs of ASCII white space
    to a single hyphen; trim leading and trailing hyphens and white space; no
    substitution. *)
Definition normalize_spec (s : string) : string :=
  strip_end (strip_start (collapse_ascii_from false (toLowerCase s))).

(** The specification's sentence with the substitution of the source put in
    and [\s] for the white space: lowercase; [0] and [o] to [o]; [1], [i] and
    [l] to [l]; runs of white space to one hyphen; hyphens and white space
    trimmed at both ends. *)
Definition normalize_amended (s : string) : string :=
  strip_end
    (strip_start
       (replace_space_runs
          (smap (fun c => if is_0o c then "o"%char
                           else if is_1il c then "l"%char else c)
             (toLowerCase s)))).

(** The substitution the source performs on one (already lowercased)
    character: [0] and [o] become [o]; [1], [i] and [l] become [l]. *)
Definition subst_char (c : ascii) : ascii :=
  if is_0o c then "o"%char else if is_1il c then "l"%char else c.

(** One pass over the input: lowercase and substitute each character that is
    not white space, and write one hyphen for each run of white space. *)
Fixpoint normalize_pass (in_run : bool) (s : string) : string :=
  match s with
  | EmptyString => EmptyString
  | String c r =>
      if is_space c
      then (if in_run then normalize_pass true r
            else String "-"%char (normalize_pass true r))
      else String (subst_char (lower_char c)) (normalize_pass false r)
  end.

(** First and last character of a string. *)
Definition first_char (s : string) : option ascii :=
  match s with EmptyString => None | String c _ => Some c end.

Fixpoint last_char (s : string) : option ascii :=
  match s with
  | EmptyString => None
  | String c r => match last_char r with None => Some c | l => l end
  end.

Definition not_blank (o : option ascii) : bool :=
  match o with None => true | Some c => negb (is_edge_blank c) end.

(** The string neither begins nor ends with white space or a hyphen. *)
Definition clean_edges (s : string) : bool :=
  not_blank (first_char s) && not_blank (last_char s).

(** Every character of the string satisfies [p]. *)
Fixpoint all_chars (p : ascii -> bool) (s : string) : bool :=
  match s with
  | EmptyString => true
  | String c r => p c && all_chars p r
  end.

(** Occurrence of a character. *)
Fixpoint occurs (a : ascii) (s : string) : bool :=
  match s with
  | EmptyString => false
  | String c r => Ascii.eqb c a || occurs a r
  end.

(** What the three character-wise stages do to one character. *)
Definition norm_char (c : ascii) : ascii := subst_char (lower_char c).

(** Characters that a second normalisation leaves alone. *)
Definition settled (c : ascii) : bool :=
  negb (is_space c) && Ascii.eqb (norm_char c) c.

(** Characters other than [0], [1] and [i]. *)
Definition unconfusing (c : ascii) : bool :=
  negb (Ascii.eqb c "0" || Ascii.eqb c "1" || Ascii.eqb c "i")%char.

(** *** generateCode *)

Definition CHARS : string := "abcdefghjkmnpqrstuvwxyz23456789".

(** [CHARS[i]] as [join('')] writes it: the character, or nothing when the
    index is out of range and the element is [undefined]. *)
Definition char_at (i : nat) : string :=
  match String.get i CHARS with
  | Some c => String c EmptyString
  | None => EmptyString
  end.

(** [segment()], whose three draws are the calls number [k], [k + 1] and
    [k + 2] of [Math.floor(Math.random() * CHARS.length)]; [rand n] is the
    value of call number [n]. *)
Definition segment (rand : nat -> nat) (k : nat) : string :=
  char_at (rand k) ++ char_at (rand (k + 1)) ++ char_at (rand (k + 2)).

(** [generateCode()]: the template literal evaluates its three segments from
    left to right. *)
Definition generateCode (rand : nat -> nat) : string :=
  segment rand 0 ++ "-" ++ segment rand 3 ++ "-" ++ segment rand 6.

(** [Math.floor(Math.random() * CHARS.length)] lies below [CHARS.length]. *)
Definition in_range (rand : nat -> nat) : Prop :=
  forall n, rand n < String.length CHARS.

(** A character of the alphabet [CHARS]. *)
Definition in_alphabet (c : ascii) : bool := occurs c CHARS.

(** A character that the substitutions of [normalizeCode] rewrite or that
    they produce: [0], [1], [i], [l], [o] in either case. *)
Definition is_lookalike (c : ascii) : bool :=
  is_0o (lower_char c) || is_1il (lower_char c).

Definition has_lookalike (s : string) : bool :=
  negb (all_chars (fun c => negb (is_lookalike c)) s).

Definition is_space_at (o : option ascii) : bool :=
  match o with Some c => is_space c | None => false end.

(** The string begins or ends with white space. *)
Definition padded (s : string) : bool :=
  is_space_at (first_char s) || is_space_at (last_char s).

End Codes.

(* ===================================================================== *)
(** ** codes.js on strings of any code units *)
(* ===================================================================== *)

(** [normalizeCode] once more, for every string value of the language: a
    sequence of 16-bit code units.  The replacements and [trim] work on code
    units; [toLowerCase] works on code points, as the language defines it:
    [StringToCodePoints], the lowercase mapping of each code point, then
    [CodePointsToString].  The mappings are those of the Unicode Character
    Database, which the runtime supplies; they are an argument of the model
    ([Lowercase_Mapping]), and so is the condition under which a capital
    sigma is written as a final sigma ([Final_Sigma]). *)

Module Utf16.
Local Open Scope N_scope.
Local Open Scope list_scope.

(** A string value: every element is a 16-bit code unit. *)
Definition is_string (s : list N) : bool := forallb (λ u, u <? 0x10000) s.

(** The code units of a string of the Latin-1 range. *)
Fixpoint units (s : string) : list N :=
  match s with
  | EmptyString => []
  | String c r => Codes.code_unit c :: units r
  end.

(** *** Code units and code points *)

(** Leading and trailing surrogates. *)
Definition is_lead (u : N) : bool := (0xD800 <=? u) && (u <=? 0xDBFF).
Definition is_trail (u : N) : bool := (0xDC00 <=? u) && (u <=? 0xDFFF).
Definition is_surrogate (u : N) : bool := is_lead u || is_trail u.

Definition UTF16SurrogatePairToCodePoint (lead trail : N) : N :=
  (lead - 0xD800) * 0x400 + (trail - 0xDC00) + 0x10000.

(** [StringToCodePoints]: from left to right, a leading surrogate followed by
    a trailing one is one code point, every other code unit is a code point
    by itself. *)
Fixpoint StringToCodePoints (s : list N) : list N :=
  match s with
  | [] => []
  | u :: rest =>
      match rest with
      | v :: rest' =>
          if is_lead u && is_trail v
          then UTF16SurrogatePairToCodePoint u v :: StringToCodePoints rest'
          else u :: StringToCodePoints rest
      | [] => [u]
      end
  end.

Definition UTF16EncodeCodePoint (cp : N) : list N :=
  if cp <=? 0xFFFF then [cp]
  else [(cp - 0x10000) / 0x400 + 0xD800; (cp - 0x10000) mod 0x400 + 0xDC00].

Fixpoint CodePointsToString (cps : list N) : list N :=
  match cps with
  | [] => []
  | cp :: rest => UTF16EncodeCodePoint cp ++ CodePointsToString rest
  end.

(** *** The replacements and [trim], on code units *)

(** The class [\s], which is also the set that [trim] removes: TAB, LF, VT,
    FF, CR, SPACE, U+00A0, U+1680, U+2000..U+200A, U+2028, U+2029, U+202F,
    U+205F, U+3000 and U+FEFF. *)
Definition is_space (u : N) : bool :=
  (0x09 <=? u) && (u <=? 0x0D) || (u =? 0x20) || (u =? 0xA0) || (u =? 0x1680)
  || (0x2000 <=? u) && (u <=? 0x200A) || (u =? 0x2028) || (u =? 0x2029)
  || (u =? 0x202F) || (u =? 0x205F) || (u =? 0x3000) || (u =? 0xFEFF).

(** The classes [[0o]] and [[1il]]. *)
Definition is_0o (u : N) : bool := (u =? 0x30) || (u =? 0x6F).
Definition is_1il (u : N) : bool := (u =? 0x31) || (u =? 0x69) || (u =? 0x6C).

Definition replace_class (cls : N → bool) (r : N) (s : list N) : list N :=
  map (λ u, if cls u then r else u) s.

Fixpoint replace_space_runs_from (in_run : bool) (s : list N) : list N :=
  match s with
  | [] => []
  | u :: r =>
      if is_space u
      then (if in_run then replace_space_runs_from true r
            else 0x2D :: replace_space_runs_from true r)
      else u :: replace_space_runs_from false r
  end.

Definition replace_space_runs (s : list N) : list N := replace_space_runs_from false s.

Fixpoint trimStart (s : list N) : list N :=
  match s with
  | [] => []
  | u :: r => if is_space u then trimStart r else s
  end.

Fixpoint trimEnd (s : list N) : list N :=
  match s with
  | [] => []
  | u :: r =>
      match trimEnd r with
      | [] => if is_space u then [] else [u]
      | r' => u :: r'
      end
  end.

Definition trim (s : list N) : list N := trimEnd (trimStart s).

(** *** toLowerCase and normalizeCode *)

Section Lowercase.
(** The lowercase mapping of a code point, one code point or several. *)
Variable Lowercase_Mapping : N → list N.
(** Whether a capital sigma between the code points [before] and [after] is
    in final position. *)
Variable Final_Sigma : list N → list N → bool.

(** [toLowercase] of the Unicode default case conversion: every code point is
    replaced by its lowercase mapping, a capital sigma (U+03A3) in final
    position by the final sigma (U+03C2). *)
Fixpoint toLowercase_from (before after : list N) : list N :=
  match after with
  | [] => []
  | c :: rest =>
      (if (c =? 0x3A3) && Final_Sigma before rest then [0x3C2] else Lowercase_Mapping c)
      ++ toLowercase_from (before ++ [c]) rest
  end.

Definition toLowercase (cps : list N) : list N := toLowercase_from [] cps.

(** [String.prototype.toLowerCase]. *)
Definition toLowerCase (s : list N) : list N :=
  CodePointsToString (toLowercase (StringToCodePoints s)).

(** [normalizeCode]: the chain of the source, in its order. *)
Definition normalizeCode (code : list N) : list N :=
  trim
    (replace_space_runs
       (replace_class is_1il 0x6C
          (replace_class is_0o 0x6F
             (toLowerCase code)))).
End Lowercase.

(** *** What is used of the Unicode Character Database *)

Definition is_code_point (c : N) : bool := c <=? 0x10FFFF.

(** The facts about the lowercase mappings that the idempotence of
    [normalizeCode] rests on.  A surrogate code point has no case.  The
    mapping of any other code point is not empty and holds neither a
    surrogate nor a value above U+10FFFF.  A code point that a mapping yields
    is its own lower case.  Capital sigma maps to small sigma, the final
    sigma to itself, and so do the hyphen, [l] and [o]. *)
Record case_data (lm : N → list N) : Prop := {
  lm_surrogate : ∀ c, is_surrogate c = true → lm c = [c];
  lm_scalar : ∀ c d, is_code_point c = true → is_surrogate c = false → d ∈ lm c →
                is_code_point d = true ∧ is_surrogate d = false;
  lm_nonempty : ∀ c, lm c ≠ [];
  lm_lowered : ∀ c d, d ∈ lm c → lm d = [d];
  lm_sigma : lm 0x3A3 = [0x3C3];
  lm_final_sigma : lm 0x3C2 = [0x3C2];
  lm_hyphen : lm 0x2D = [0x2D];
  lm_l : lm 0x6C = [0x6C];
  lm_o : lm 0x6F = [0x6F]
}.

(** The mappings agree with [Codes.lower_char] on the Latin-1 range. *)
Definition latin1_data (lm : N → list N) : Prop :=
  ∀ c : ascii, lm (Codes.code_unit c) = [Codes.code_unit (Codes.lower_char c)].

(** A code point that is its own lower case and not a capital sigma. *)
Definition lowered (lm : N → list N) (c : N) : Prop := lm c = [c] ∧ c ≠ 0x3A3.

(** The sequence begins with a trailing surrogate. *)
Definition starts_with_trail (l : list N) : bool :=
  match l with c :: _ => is_trail c | [] => false end.

(** No leading surrogate stands directly before a trailing surrogate. *)
Fixpoint unpaired (cps : list N) : bool :=
  match cps with
  | [] => true
  | c :: rest => negb (is_lead c && starts_with_trail rest) && unpaired rest
  end.

(** A code unit that the replacements leave alone: no white space, and none
    of [0], [1] and [i]. *)
Definition settled (u : N) : bool :=
  negb (is_space u) && negb (u =? 0x30) && negb (u =? 0x31) && negb (u =? 0x69).

End Utf16.

(* ===================================================================== *)
(** ** The lowercase mappings of the Unicode Character Database *)
(* ===================================================================== *)

(** The mappings of version 14.0 of the database: the simple lowercase
    mappings of UnicodeData.txt and the one unconditional lowercase entry of
    SpecialCasing.txt, U+0130, which maps to two code points.  They are the
    mappings that a runtime of that version gives to [toLowerCase]. *)

Module UnicodeData.
Local Open Scope N_scope.
Local Open Scope list_scope.

(** The mappings to one code point, as runs [(first, last, step, to)]: the
    code points [first], [first + step], ... up to [last] map to [to],
    [to + step], ... in that order. *)
Definition lowercase_runs : list (N * N * N * N) :=
  [(0x41, 0x5A, 1, 0x61); (0xC0, 0xD6, 1, 0xE0); (0xD8, 0xDE, 1, 0xF8);
   (0x100, 0x12E, 2, 0x101); (0x132, 0x136, 2, 0x133); (0x139, 0x147, 2, 0x13A);
   (0x14A, 0x176, 2, 0x14B); (0x178, 0x178, 1, 0xFF); (0x179, 0x17D, 2, 0x17A);
   (0x181, 0x181, 1, 0x253); (0x182, 0x184, 2, 0x183); (0x186, 0x186, 1, 0x254);
   (0x187, 0x187, 1, 0x188); (0x189, 0x18A, 1, 0x256); (0x18B, 0x18B, 1, 0x18C);
   (0x18E, 0x18E, 1, 0x1DD); (0x18F, 0x18F, 1, 0x259); (0x190, 0x190, 1, 0x25B);
   (0x191, 0x191, 1, 0x192); (0x193, 0x193, 1, 0x260); (0x194, 0x194, 1, 0x263);
   (0x196, 0x196, 1, 0x269); (0x197, 0x197, 1, 0x268); (0x198, 0x198, 1, 0x199);
   (0x19C, 0x19C, 1, 0x26F); (0x19D, 0x19D, 1, 0x272); (0x19F, 0x19F, 1, 0x275);
   (0x1A0, 0x1A4, 2, 0x1A1); (0x1A6, 0x1A6, 1, 0x280); (0x1A7, 0x1A7, 1, 0x1A8);
   (0x1A9, 0x1A9, 1, 0x283); (0x1AC, 0x1AC, 1, 0x1AD); (0x1AE, 0x1AE, 1, 0x288);
   (0x1AF, 0x1AF, 1, 0x1B0); (0x1B1, 0x1B2, 1, 0x28A); (0x1B3, 0x1B5, 2, 0x1B4);
   (0x1B7, 0x1B7, 1, 0x292); (0x1B8, 0x1B8, 1, 0x1B9); (0x1BC, 0x1BC, 1, 0x1BD);
   (0x1C4, 0x1C4, 1, 0x1C6); (0x1C5, 0x1C5, 1, 0x1C6); (0x1C7, 0x1C7, 1, 0x1C9);
   (0x1C8, 0x1C8, 1, 0x1C9); (0x1CA, 0x1CA, 1, 0x1CC); (0x1CB, 0x1DB, 2, 0x1CC);
   (0x1DE, 0x1EE, 2, 0x1DF); (0x1F1, 0x1F1, 1, 0x1F3); (0x1F2, 0x1F4, 2, 0x1F3);
   (0x1F6, 0x1F6, 1, 0x195); (0x1F7, 0x1F7, 1, 0x1BF); (0x1F8, 0x21E, 2, 0x1F9);
   (0x220, 0x220, 1, 0x19E); (0x222, 0x232, 2, 0x223); (0x23A, 0x23A, 1, 0x2C65);
   (0x23B, 0x23B, 1, 0x23C); (0x23D, 0x23D, 1, 0x19A); (0x23E, 0x23E, 1, 0x2C66);
   (0x241, 0x241, 1, 0x242); (0x243, 0x243, 1, 0x180); (0x244, 0x244, 1, 0x289);
   (0x245, 0x245, 1, 0x28C); (0x246, 0x24E, 2, 0x247); (0x370, 0x372, 2, 0x371);
   (0x376, 0x376, 1, 0x377); (0x37F, 0x37F, 1, 0x3F3); (0x386, 0x386, 1, 0x3AC);
   (0x388, 0x38A, 1, 0x3AD); (0x38C, 0x38C, 1, 0x3CC); (0x38E, 0x38F, 1, 0x3CD);
   (0x391, 0x3A1, 1, 0x3B1); (0x3A3, 0x3AB, 1, 0x3C3); (0x3CF, 0x3CF, 1, 0x3D7);
   (0x3D8, 0x3EE, 2, 0x3D9); (0x3F4, 0x3F4, 1, 0x3B8); (0x3F7, 0x3F7, 1, 0x3F8);
   (0x3F9, 0x3F9, 1, 0x3F2); (0x3FA, 0x3FA, 1, 0x3FB); (0x3FD, 0x3FF, 1, 0x37B);
   (0x400, 0x40F, 1, 0x450); (0x410, 0x42F, 1, 0x430); (0x460, 0x480, 2, 0x461);
   (0x48A, 0x4BE, 2, 0x48B); (0x4C0, 0x4C0, 1, 0x4CF); (0x4C1, 0x4CD, 2, 0x4C2);
   (0x4D0, 0x52E, 2, 0x4D1); (0x531, 0x556, 1, 0x561); (0x10A0, 0x10C5, 1, 0x2D00);
   (0x10C7, 0x10C7, 1, 0x2D27); (0x10CD, 0x10CD, 1, 0x2D2D);
   (0x13A0, 0x13EF, 1, 0xAB70); (0x13F0, 0x13F5, 1, 0x13F8);
   (0x1C90, 0x1CBA, 1, 0x10D0); (0x1CBD, 0x1CBF, 1, 0x10FD);
   (0x1E00, 0x1E94, 2, 0x1E01); (0x1E9E, 0x1E9E, 1, 0xDF); (0x1EA0, 0x1EFE, 2, 0x1EA1);
   (0x1F08, 0x1F0F, 1, 0x1F00); (0x1F18, 0x1F1D, 1, 0x1F10);
   (0x1F28, 0x1F2F, 1, 0x1F20); (0x1F38, 0x1F3F, 1, 0x1F30);
   (0x1F48, 0x1F4D, 1, 0x1F40); (0x1F59, 0x1F5F, 2, 0x1F51);
   (0x1F68, 0x1F6F, 1, 0x1F60); (0x1F88, 0x1F8F, 1, 0x1F80);
   (0x1F98, 0x1F9F, 1, 0x1F90); (0x1FA8, 0x1FAF, 1, 0x1FA0);
   (0x1FB8, 0x1FB9, 1, 0x1FB0); (0x1FBA, 0x1FBB, 1, 0x1F70);
   (0x1FBC, 0x1FBC, 1, 0x1FB3); (0x1FC8, 0x1FCB, 1, 0x1F72);
   (0x1FCC, 0x1FCC, 1, 0x1FC3); (0x1FD8, 0x1FD9, 1, 0x1FD0);
   (0x1FDA, 0x1FDB, 1, 0x1F76); (0x1FE8, 0x1FE9, 1, 0x1FE0);
   (0x1FEA, 0x1FEB, 1, 0x1F7A); (0x1FEC, 0x1FEC, 1, 0x1FE5);
   (0x1FF8, 0x1FF9, 1, 0x1F78); (0x1FFA, 0x1FFB, 1, 0x1F7C);
   (0x1FFC, 0x1FFC, 1, 0x1FF3); (0x2126, 0x2126, 1, 0x3C9); (0x212A, 0x212A, 1, 0x6B);
   (0x212B, 0x212B, 1, 0xE5); (0x2132, 0x2132, 1, 0x214E); (0x2160, 0x216F, 1, 0x2170);
   (0x2183, 0x2183, 1, 0x2184); (0x24B6, 0x24CF, 1, 0x24D0);
   (0x2C00, 0x2C2F, 1, 0x2C30); (0x2C60, 0x2C60, 1, 0x2C61);
   (0x2C62, 0x2C62, 1, 0x26B); (0x2C63, 0x2C63, 1, 0x1D7D); (0x2C64, 0x2C64, 1, 0x27D);
   (0x2C67, 0x2C6B, 2, 0x2C68); (0x2C6D, 0x2C6D, 1, 0x251); (0x2C6E, 0x2C6E, 1, 0x271);
   (0x2C6F, 0x2C6F, 1, 0x250); (0x2C70, 0x2C70, 1, 0x252); (0x2C72, 0x2C72, 1, 0x2C73);
   (0x2C75, 0x2C75, 1, 0x2C76); (0x2C7E, 0x2C7F, 1, 0x23F);
   (0x2C80, 0x2CE2, 2, 0x2C81); (0x2CEB, 0x2CED, 2, 0x2CEC);
   (0x2CF2, 0x2CF2, 1, 0x2CF3); (0xA640, 0xA66C, 2, 0xA641);
   (0xA680, 0xA69A, 2, 0xA681); (0xA722, 0xA72E, 2, 0xA723);
   (0xA732, 0xA76E, 2, 0xA733); (0xA779, 0xA77B, 2, 0xA77A);
   (0xA77D, 0xA77D, 1, 0x1D79); (0xA77E, 0xA786, 2, 0xA77F);
   (0xA78B, 0xA78B, 1, 0xA78C); (0xA78D, 0xA78D, 1, 0x265);
   (0xA790, 0xA792, 2, 0xA791); (0xA796, 0xA7A8, 2, 0xA797);
   (0xA7AA, 0xA7AA, 1, 0x266); (0xA7AB, 0xA7AB, 1, 0x25C); (0xA7AC, 0xA7AC, 1, 0x261);
   (0xA7AD, 0xA7AD, 1, 0x26C); (0xA7AE, 0xA7AE, 1, 0x26A); (0xA7B0, 0xA7B0, 1, 0x29E);
   (0xA7B1, 0xA7B1, 1, 0x287); (0xA7B2, 0xA7B2, 1, 0x29D); (0xA7B3, 0xA7B3, 1, 0xAB53);
   (0xA7B4, 0xA7C2, 2, 0xA7B5); (0xA7C4, 0xA7C4, 1, 0xA794);
   (0xA7C5, 0xA7C5, 1, 0x282); (0xA7C6, 0xA7C6, 1, 0x1D8E);
   (0xA7C7, 0xA7C9, 2, 0xA7C8); (0xA7D0, 0xA7D0, 1, 0xA7D1);
   (0xA7D6, 0xA7D8, 2, 0xA7D7); (0xA7F5, 0xA7F5, 1, 0xA7F6);
   (0xFF21, 0xFF3A, 1, 0xFF41); (0x10400, 0x10427, 1, 0x10428);
   (0x104B0, 0x104D3, 1, 0x104D8); (0x10570, 0x1057A, 1, 0x10597);
   (0x1057C, 0x1058A, 1, 0x105A3); (0x1058C, 0x10592, 1, 0x105B3);
   (0x10594, 0x10595, 1, 0x105BB); (0x10C80, 0x10CB2, 1, 0x10CC0);
   (0x118A0, 0x118BF, 1, 0x118C0); (0x16E40, 0x16E5F, 1, 0x16E60);
   (0x1E900, 0x1E921, 1, 0x1E922)]%N.

Definition run_entries (r : N * N * N * N) : list (N * list N) :=
  let '(a, b, s, t) := r in
  (λ k, (a + N.of_nat k * s, [t + N.of_nat k * s])) <$> seq 0 (S (N.to_nat ((b - a) / s))).

(** Every code point that has a mapping other than itself, with the
    mapping. *)
Definition lowercase_table : list (N * list N) :=
  (0x130, [0x69; 0x307]) :: flat_map run_entries lowercase_runs.

Definition table_find (table : list (N * list N)) (c : N) : option (N * list N) :=
  List.find (λ p, p.1 =? c) table.

(** The lowercase mapping of a code point. *)
Definition lowercase (c : N) : list N :=
  match table_find lowercase_table c with
  | Some p => p.2
  | None => [c]
  end.

(** An entry of the table: its code point is no surrogate; its mapping is not
    empty, and holds code points that are no surrogates and have no entry of
    their own. *)
Definition entry_ok (table : list (N * list N)) (p : N * list N) : bool :=
  negb (Utf16.is_surrogate p.1)
  && match p.2 with [] => false | _ => true end
  && forallb (λ d, Utf16.is_code_point d && negb (Utf16.is_surrogate d)
                   && negb (existsb (λ q, q.1 =? d) table)) p.2.

Definition table_ok (table : list (N * list N)) : bool := forallb (entry_ok table) table.

End UnicodeData.

(* ===================================================================== *)
(** ** rate-limit.js *)
(* ===================================================================== *)

Module RateLimit.

Local Open Scope Z_scope.

Definition DEFAULT_WINDOW_MS : Z := 60 * 1000.
Definition DEFAULT_MAX_REQUESTS : Z := 100.

(** The value stored in [requests]: [{ count, resetTime }]. *)
Record Bucket := mkBucket { count : Z; resetTime : Z }.

Record RateLimiter := mkLimiter {
  windowMs : Z;
  maxRequests : Z;
  requests : gmap string Bucket
}.

(** [options.field || dflt] for a numeric option: a missing field and [0]
    both fall back to the default. *)
Definition or_default (o : option Z) (dflt : Z) : Z :=
  match o with
  | Some v => if v =? 0 then dflt else v
  | None => dflt
  end.

(** [new RateLimiter({ windowMs, maxRequests })]. *)
Definition new_limiter (optWindowMs optMaxRequests : option Z) : RateLimiter :=
  {| windowMs := or_default optWindowMs DEFAULT_WINDOW_MS;
     maxRequests := or_default optMaxRequests DEFAULT_MAX_REQUESTS;
     requests := ∅ |}.

Definition with_requests (l : RateLimiter) (m : gmap string Bucket) : RateLimiter :=
  {| windowMs := windowMs l; maxRequests := maxRequests l; requests := m |}.

(** The test [!record || now > record.resetTime]. *)
Definition opens_window (now : Z) (record : option Bucket) : bool :=
  match record with
  | None => true
  | Some b => resetTime b <? now
  end.

(** [isAllowed(key)], with the value [now] that [Date.now()] returns. *)
Definition isAllowed (now : Z) (key : string) (l : RateLimiter) : bool * RateLimiter :=
  match requests l !! key with
  | None =>
      (true, with_requests l (<[key := mkBucket 1 (now + windowMs l)]> (requests l)))
  | Some record =>
      if resetTime record <? now
      then (true, with_requests l (<[key := mkBucket 1 (now + windowMs l)]> (requests l)))
      else if maxRequests l <=? count record
      then (false, l)
      else (true, with_requests l
                    (<[key := mkBucket (count record + 1) (resetTime record)]> (requests l)))
  end.

(** A call: the key and the clock value at the call. *)
Definition Call : Type := string * Z.

(** A sequence of calls, from the first; the answers come back in order. *)
Fixpoint run (l : RateLimiter) (calls : list Call) : list bool * RateLimiter :=
  match calls with
  | [] => ([], l)
  | (key, now) :: rest =>
      let '(ok, l1) := isAllowed now key l in
      let '(oks, l2) := run l1 rest in
      (ok :: oks, l2)
  end.

(** Number of calls for [key] that were answered [true]. *)
Fixpoint allowed_count (key : string) (calls : list Call) (answers : list bool) : Z :=
  match calls, answers with
  | (k, _) :: cs, ok :: oks =>
      (if bool_decide (k = key) && ok then 1 else 0) + allowed_count key cs oks
  | _, _ => 0
  end.

(** Number of calls for [key] with clock value in [[from, from + width)] that
    were answered [true]. *)
Fixpoint allowed_within (key : string) (from width : Z)
    (calls : list Call) (answers : list bool) : Z :=
  match calls, answers with
  | (k, now) :: cs, ok :: oks =>
      (if bool_decide (k = key) && ok && (from <=? now) && (now <? from + width)
       then 1 else 0) + allowed_within key from width cs oks
  | _, _ => 0
  end.

(** Every later call for [key] comes no later than [deadline]. *)
Definition before_deadline (key : string) (deadline : Z) (calls : list Call) : Prop :=
  ∀ now, (key, now) ∈ calls → now <= deadline.

(** The pre-configured limiters. *)
Definition connectionLimiter : RateLimiter := new_limiter (Some (60 * 1000)) (Some 20).
Definition roomCreationLimiter : RateLimiter := new_limiter (Some (60 * 1000)) (Some 5).
Definition joinLimiter : RateLimiter := new_limiter (Some (60 * 1000)) (Some 30).
Definition signalLimiter : RateLimiter := new_limiter (Some 1000) (Some 50).

(** [getRemainingRequests(key)], with the value [now] of [Date.now()]. *)
Definition getRemainingRequests (now : Z) (key : string) (l : RateLimiter) : Z :=
  match requests l !! key with
  | None => maxRequests l
  | Some record =>
      if resetTime record <? now then maxRequests l
      else Z.max 0 (maxRequests l - count record)
  end.

(** [cleanup()]: every bucket with [now > record.resetTime] is deleted. *)
Definition cleanup (now : Z) (l : RateLimiter) : RateLimiter :=
  with_requests l (filter (λ kv, ¬ (resetTime kv.2 < now)) (requests l)).

(** Every bucket counts between one and the limit, and its reset time is one
    window after some call of [calls] for its key. *)
Definition buckets_sound (l : RateLimiter) (calls : list Call) : Prop :=
  ∀ key b, requests l !! key = Some b →
    1 <= count b <= Z.max 1 (maxRequests l)
    ∧ ∃ t, (key, t) ∈ calls ∧ resetTime b = t + windowMs l.

(** Number of calls for [key]. *)
Fixpoint call_count (key : string) (calls : list Call) : Z :=
  match calls with
  | [] => 0
  | (k, _) :: cs => (if bool_decide (k = key) then 1 else 0) + call_count key cs
  end.

End RateLimit.

(* ===================================================================== *)
(** ** rooms.js *)
(* ===================================================================== *)

Module Rooms.

(** A connection of the transport.  [id] is socket.io's unique identifier;
    [clientIp] is the address the connection middleware stored on it. *)
Record Socket := mkSocket { id : string; clientIp : string }.

(** An entry of [pendingPeers] or [approvedPeers]: [{ socket, name }]. *)
Record Peer := mkPeer { socket : Socket; name : string }.

(** *** JavaScript [Map] with its iteration order *)

Section JsMap.
Context {V : Type}.

Definition JsMap : Type := list (string * V).

Fixpoint jm_get (k : string) (m : JsMap) : option V :=
  match m with
  | [] => None
  | (k', v) :: rest => if decide (k' = k) then Some v else jm_get k rest
  end.

Definition jm_has (k : string) (m : JsMap) : bool :=
  match jm_get k m with Some _ => true | None => false end.

(** [m.set(k, v)]: an existing key keeps its place, a new key goes last. *)
Fixpoint jm_set (k : string) (v : V) (m : JsMap) : JsMap :=
  match m with
  | [] => [(k, v)]
  | (k', v') :: rest =>
      if decide (k' = k) then (k, v) :: rest else (k', v') :: jm_set k v rest
  end.

(** [m.delete(k)].  A [Map] holds a key once; the entry of [k] goes. *)
Fixpoint jm_delete (k : string) (m : JsMap) : JsMap :=
  match m with
  | [] => []
  | (k', v') :: rest =>
      if decide (k' = k) then jm_delete k rest else (k', v') :: jm_delete k rest
  end.

Definition jm_size (m : JsMap) : Z := Z.of_nat (length m).

Definition jm_keys (m : JsMap) : list string := m.*1.
End JsMap.

Arguments JsMap : clear implicits.

(** *** Rooms and the connection index *)

Record Room := mkRoom {
  code : string;
  hostSocket : Socket;
  hostId : string;
  pendingPeers : JsMap Peer;
  approvedPeers : JsMap Peer;
  createdAt : Z
}.

(** A value of [socketToRoom]: [{ code, isHost }] for a host and
    [{ code, isHost, peerId }] for a peer. *)
Record RoomInfo := mkRoomInfo {
  ri_code : string;
  isHost : bool;
  ri_peerId : option string
}.

(** The two module-level maps. *)
Record Registry := mkRegistry {
  rooms : gmap string Room;
  socketToRoom : gmap string RoomInfo
}.

Definition empty_registry : Registry := {| rooms := ∅; socketToRoom := ∅ |}.

(** Field assignments on a room object. *)
Definition with_pending (m : JsMap Peer) (r : Room) : Room :=
  {| code := code r; hostSocket := hostSocket r; hostId := hostId r;
     pendingPeers := m; approvedPeers := approvedPeers r; createdAt := createdAt r |}.

Definition with_approved (m : JsMap Peer) (r : Room) : Room :=
  {| code := code r; hostSocket := hostSocket r; hostId := hostId r;
     pendingPeers := pendingPeers r; approvedPeers := m; createdAt := createdAt r |}.

Definition with_host (s : Socket) (r : Room) : Room :=
  {| code := code r; hostSocket := s; hostId := id s;
     pendingPeers := pendingPeers r; approvedPeers := approvedPeers r;
     createdAt := createdAt r |}.

(** *** Events, effects and replies *)

(** A signalling payload is opaque to the broker; it is kept as its JSON
    text. *)
Definition Payload : Type := string.

Inductive Event :=
  | PeerRequest (peerId name : string)
  | PeerApproved (hostId : string)
  | PeerDenied
  | HostDisconnected
  | HostReconnected (hostId : string)
  | PeerDisconnected (peerId : string)
  | SignalEvent (from : string) (payload : Payload).

Inductive Effect :=
  | Emit (target : Socket) (ev : Event)
  | JoinChannel (s : Socket) (channel : string)
  | LeaveChannel (s : Socket) (channel : string).

(** Return values: [{ error }], [{ code }],
    [{ success, peerId, hostConnected }], [{ success }],
    [{ success, denied }], [{ success, code, peers }] with [peers] a list of
    [{ id, name }], and [undefined]. *)
Inductive Result :=
  | RError (message : string)
  | RCode (code : string)
  | RJoined (peerId : string) (hostConnected : bool)
  | RSuccess
  | RDenied
  | RRejoined (code : string) (peers : list (string * string))
  | RVoid.

Global Instance Socket_eq_dec : EqDecision Socket.
Proof. solve_decision. Defined.
Global Instance Event_eq_dec : EqDecision Event.
Proof. solve_decision. Defined.
Global Instance Effect_eq_dec : EqDecision Effect.
Proof. solve_decision. Defined.

(** What a registry function leaves behind: its return value, the registry
    after the call and the effects it caused, in order. *)
Record Outcome := mkOutcome {
  value : Result;
  state : Registry;
  effects : list Effect
}.

Definition fail (message : string) (st : Registry) : Outcome :=
  {| value := RError message; state := st; effects := [] |}.

(** *** createRoom *)

(** The loop [do { code = generateCode() } while (rooms.has(code))] over the
    successive values of [generateCode()], which draws at random; the values
    it returns are an input of the model.  [None]: every value listed was
    taken and the loop is still running. *)
Fixpoint generate_unused (rs : gmap string Room) (draws : list string) : option string :=
  match draws with
  | [] => None
  | c :: later =>
      match rs !! c with
      | Some _ => generate_unused rs later
      | None => Some c
      end
  end.

Definition createRoom (draws : list string) (now : Z) (s : Socket) (st : Registry)
    : option Outcome :=
  match generate_unused (rooms st) draws with
  | None => None
  | Some c =>
      let room :=
        {| code := c; hostSocket := s; hostId := id s;
           pendingPeers := []; approvedPeers := []; createdAt := now |} in
      Some {| value := RCode c;
              state := {| rooms := <[c := room]> (rooms st);
                          socketToRoom :=
                            <[id s := mkRoomInfo c true None]> (socketToRoom st) |};
              effects := [JoinChannel s c] |}
  end.

(** *** joinRoom; [live] is the transport's [connected] flag *)

Definition joinRoom (live : Socket → bool) (s : Socket) (c : string) (nm : string)
    (st : Registry) : Outcome :=
  match rooms st !! c with
  | None => fail "Room not found" st
  | Some room =>
      let peerId := id s in
      let room' := with_pending (jm_set peerId (mkPeer s nm) (pendingPeers room)) room in
      {| value := RJoined peerId (live (hostSocket room));
         state := {| rooms := <[c := room']> (rooms st);
                     socketToRoom :=
                       <[id s := mkRoomInfo c false (Some peerId)]> (socketToRoom st) |};
         effects := [JoinChannel s c; Emit (hostSocket room) (PeerRequest peerId nm)] |}
  end.

(** *** approvePeer *)

Definition approvePeer (hs : Socket) (peerId : string) (approved : bool)
    (st : Registry) : Outcome :=
  match socketToRoom st !! id hs with
  | None => fail "Not a host" st
  | Some roomInfo =>
      if negb (isHost roomInfo) then fail "Not a host" st
      else
        match rooms st !! ri_code roomInfo with
        | None => fail "Room not found" st
        | Some room =>
            match jm_get peerId (pendingPeers room) with
            | None => fail "Peer not found in pending" st
            | Some pending =>
                let room1 := with_pending (jm_delete peerId (pendingPeers room)) room in
                if approved then
                  let room2 :=
                    with_approved (jm_set peerId pending (approvedPeers room1)) room1 in
                  {| value := RSuccess;
                     state := {| rooms := <[ri_code roomInfo := room2]> (rooms st);
                                 socketToRoom := socketToRoom st |};
                     effects := [Emit (socket pending) (PeerApproved (hostId room2))] |}
                else
                  {| value := RDenied;
                     state := {| rooms := <[ri_code roomInfo := room1]> (rooms st);
                                 socketToRoom :=
                                   delete (id (socket pending)) (socketToRoom st) |};
                     effects := [Emit (socket pending) PeerDenied;
                                 LeaveChannel (socket pending) (ri_code roomInfo)] |}
            end
        end
  end.

(** *** signal *)

(** The target lookup: the host socket for the host's id, else the socket of
    the approved peer of that id. *)
Definition find_target (room : Room) (toId : string) : option Socket :=
  if decide (toId = hostId room) then Some (hostSocket room)
  else socket <$> jm_get toId (approvedPeers room).

Definition signal (fromSocket : Socket) (toId : string) (payload : Payload)
    (st : Registry) : Outcome :=
  match socketToRoom st !! id fromSocket with
  | None => fail "Not in a room" st
  | Some roomInfo =>
      match rooms st !! ri_code roomInfo with
      | None => fail "Room not found" st
      | Some room =>
          let isHost := bool_decide (hostId room = id fromSocket) in
          let isApproved := jm_has (id fromSocket) (approvedPeers room) in
          if negb isHost && negb isApproved then fail "Not authorized to signal" st
          else
            match find_target room toId with
            | None => fail "Target not found" st
            | Some targetSocket =>
                {| value := RSuccess;
                   state := st;
                   effects := [Emit targetSocket (SignalEvent (id fromSocket) payload)] |}
            end
      end
  end.

(** *** handleDisconnect *)

(** One of the two loops of the host branch: every peer of the map is sent
    [host:disconnected] and loses its index entry. *)
Fixpoint notify_host_gone (peers : JsMap Peer) (index : gmap string RoomInfo)
    : gmap string RoomInfo * list Effect :=
  match peers with
  | [] => (index, [])
  | (peerId, peer) :: rest =>
      let '(index', effs) := notify_host_gone rest (delete peerId index) in
      (index', Emit (socket peer) HostDisconnected :: effs)
  end.

Definition handleDisconnect (s : Socket) (st : Registry) : Outcome :=
  match socketToRoom st !! id s with
  | None => {| value := RVoid; state := st; effects := [] |}
  | Some roomInfo =>
      match rooms st !! ri_code roomInfo with
      | None => {| value := RVoid; state := st; effects := [] |}
      | Some room =>
          if isHost roomInfo then
            let '(index1, effs1) := notify_host_gone (approvedPeers room) (socketToRoom st) in
            let '(index2, effs2) := notify_host_gone (pendingPeers room) index1 in
            {| value := RVoid;
               state := {| rooms := delete (ri_code roomInfo) (rooms st);
                           socketToRoom := delete (id s) index2 |};
               effects := effs1 ++ effs2 |}
          else
            let room1 := with_pending (jm_delete (id s) (pendingPeers room)) room in
            let room2 := with_approved (jm_delete (id s) (approvedPeers room1)) room1 in
            {| value := RVoid;
               state := {| rooms := <[ri_code roomInfo := room2]> (rooms st);
                           socketToRoom := delete (id s) (socketToRoom st) |};
               effects := [Emit (hostSocket room) (PeerDisconnected (id s))] |}
      end
  end.

(** *** rejoinRoom *)

Definition rejoinRoom (live : Socket → bool) (s : Socket) (c : string) (asHost : bool)
    (nm : string) (st : Registry) : Outcome :=
  match rooms st !! c with
  | None => fail "Room not found" st
  | Some room =>
      if asHost then
        let room' := with_host s room in
        {| value := RRejoined c ((λ e, (e.1, name e.2)) <$> approvedPeers room');
           state := {| rooms := <[c := room']> (rooms st);
                       socketToRoom := <[id s := mkRoomInfo c true None]> (socketToRoom st) |};
           effects :=
             JoinChannel s c ::
             ((λ e, Emit (socket e.2) (HostReconnected (id s))) <$> approvedPeers room') |}
      else joinRoom live s c nm st
  end.

Definition getRoom (c : string) (st : Registry) : option Room := rooms st !! c.

(** [getRoomBySocket]: [{ room: rooms.get(info.code), ...info }] or [null]. *)
Definition getRoomBySocket (s : Socket) (st : Registry) : option (option Room * RoomInfo) :=
  match socketToRoom st !! id s with
  | Some info => Some (rooms st !! ri_code info, info)
  | None => None
  end.

(** *** Runs of the registry *)

Inductive Op :=
  | CreateRoom (draws : list string) (now : Z) (s : Socket)
  | JoinRoom (live : Socket → bool) (s : Socket) (c : string) (nm : string)
  | ApprovePeer (hs : Socket) (peerId : string) (approved : bool)
  | SignalOp (fromSocket : Socket) (toId : string) (payload : Payload)
  | HandleDisconnect (s : Socket)
  | RejoinRoom (live : Socket → bool) (s : Socket) (c : string) (asHost : bool) (nm : string).

Definition apply (o : Op) (st : Registry) : option Outcome :=
  match o with
  | CreateRoom draws now s => createRoom draws now s st
  | JoinRoom live s c nm => Some (joinRoom live s c nm st)
  | ApprovePeer hs p a => Some (approvePeer hs p a st)
  | SignalOp f t p => Some (signal f t p st)
  | HandleDisconnect s => Some (handleDisconnect s st)
  | RejoinRoom live s c h nm => Some (rejoinRoom live s c h nm st)
  end.

(** The registries that calls allowed by [guard] reach from the empty one. *)
Inductive reachable_by (guard : Op → Registry → Prop) : Registry → Prop :=
  | reach_empty : reachable_by guard empty_registry
  | reach_step o st out :
      reachable_by guard st →
      guard o st →
      apply o st = Some out →
      reachable_by guard (state out).

Definition any_call : Op → Registry → Prop := λ _ _, True.

Definition reachable : Registry → Prop := reachable_by any_call.

(** Run a list of calls; a [createRoom] whose loop does not end stops the run. *)
Fixpoint run (ops : list Op) (st : Registry) : option Registry :=
  match ops with
  | [] => Some st
  | o :: rest =>
      match apply o st with
      | Some out => run rest (state out)
      | None => None
      end
  end.

(** Every call of the run is allowed by [guard] in the registry it meets. *)
Fixpoint allowed_run (guard : Op → Registry → Prop) (ops : list Op) (st : Registry) : Prop :=
  match ops with
  | [] => True
  | o :: rest =>
      guard o st
      ∧ match apply o st with
        | Some out => allowed_run guard rest (state out)
        | None => False
        end
  end.

(** *** Vocabulary of the claims *)

(** The sender may signal in [room]. *)
Definition authorized (room : Room) (sender : string) : bool :=
  bool_decide (hostId room = sender) || jm_has sender (approvedPeers room).

(** [toId] names the host or an approved peer. *)
Definition valid_target (room : Room) (toId : string) : bool :=
  bool_decide (toId = hostId room) || jm_has toId (approvedPeers room).

(** Some [signal] event is emitted. *)
Definition is_signal_emit (e : Effect) : bool :=
  match e with Emit _ (SignalEvent _ _) => true | _ => false end.

Definition emits_signal (effs : list Effect) : bool := existsb is_signal_emit effs.

(** Number of times [ev] is emitted to the connection [target]. *)
Fixpoint emit_count (target : string) (ev : Event) (effs : list Effect) : nat :=
  match effs with
  | [] => 0
  | Emit s e :: rest =>
      (if bool_decide (id s = target ∧ e = ev) then 1 else 0) + emit_count target ev rest
  | _ :: rest => emit_count target ev rest
  end.

(** Membership disjointness of one room. *)
Definition members_disjoint (room : Room) : Prop :=
  (∀ k, ¬ (jm_has k (pendingPeers room) = true ∧ jm_has k (approvedPeers room) = true))
  ∧ jm_has (hostId room) (pendingPeers room) = false
  ∧ jm_has (hostId room) (approvedPeers room) = false.

(** The calls that do not enrol a connection twice in one room: no
    [joinRoom] (or peer [rejoinRoom]) by the host or an approved peer of the
    target room, no host [rejoinRoom] by one of its pending or approved
    peers. *)
Definition no_double_enrol (o : Op) (st : Registry) : Prop :=
  match o with
  | JoinRoom _ s c _ | RejoinRoom _ s c false _ =>
      ∀ room, rooms st !! c = Some room →
        hostId room ≠ id s ∧ jm_has (id s) (approvedPeers room) = false
  | RejoinRoom _ s c true _ =>
      ∀ room, rooms st !! c = Some room →
        jm_has (id s) (pendingPeers room) = false
        ∧ jm_has (id s) (approvedPeers room) = false
  | _ => True
  end.

(** The calls that do not enrol the connection [P]: every call but a
    [createRoom], [joinRoom] or [rejoinRoom] made by [P] itself. *)
Definition stays_out (P : string) (o : Op) (st : Registry) : Prop :=
  match o with
  | CreateRoom _ _ s | JoinRoom _ s _ _ | RejoinRoom _ s _ _ _ => id s ≠ P
  | _ => True
  end.

(** Every entry of a peer map is filed under the id of its own socket, and no
    key occurs twice. *)
Definition peers_wf (m : JsMap Peer) : Prop :=
  NoDup (jm_keys m) ∧ ∀ k p, (k, p) ∈ m → id (socket p) = k.

Definition room_wf (room : Room) : Prop :=
  peers_wf (pendingPeers room) ∧ peers_wf (approvedPeers room)
  ∧ id (hostSocket room) = hostId room.

Definition registry_wf (st : Registry) : Prop :=
  ∀ c room, rooms st !! c = Some room → room_wf room.

(** The room a call puts under a code that had none. *)
Definition room_born (o : Op) (c : string) (r' : Room) : Prop :=
  match o with
  | CreateRoom _ now s => r' = mkRoom c s (id s) [] [] now
  | _ => False
  end.

(** What a call does to the room [r] it finds under the code [c]. *)
Definition room_change (o : Op) (c : string) (r r' : Room) : Prop :=
  match o with
  | JoinRoom _ s c' nm | RejoinRoom _ s c' false nm =>
      c' = c ∧ r' = with_pending (jm_set (id s) (mkPeer s nm) (pendingPeers r)) r
  | RejoinRoom _ s c' true _ => c' = c ∧ r' = with_host s r
  | ApprovePeer _ p true =>
      ∃ e, jm_get p (pendingPeers r) = Some e
           ∧ r' = with_approved (jm_set p e (approvedPeers r))
                    (with_pending (jm_delete p (pendingPeers r)) r)
  | ApprovePeer _ p false => r' = with_pending (jm_delete p (pendingPeers r)) r
  | HandleDisconnect s =>
      r' = with_approved (jm_delete (id s) (approvedPeers r))
             (with_pending (jm_delete (id s) (pendingPeers r)) r)
  | CreateRoom _ _ _ | SignalOp _ _ _ => False
  end.

(** *** Vocabulary of the further properties *)

(** The calls of a client that keeps to one enrolment at a time: [createRoom],
    [joinRoom] and [rejoinRoom] come from connections without an index
    entry. *)
Definition fresh_caller (o : Op) (st : Registry) : Prop :=
  match o with
  | CreateRoom _ _ s | JoinRoom _ s _ _ | RejoinRoom _ s _ _ _ =>
      socketToRoom st !! id s = None
  | _ => True
  end.

(** In the index, the host of the room has a host entry for the code [c] and
    every pending or approved peer has a peer entry for it. *)
Definition room_indexed (index : gmap string RoomInfo) (c : string) (room : Room) : Prop :=
  (∃ info, index !! hostId room = Some info ∧ ri_code info = c ∧ isHost info = true)
  ∧ ∀ k, jm_has k (pendingPeers room) = true ∨ jm_has k (approvedPeers room) = true →
      ∃ info, index !! k = Some info ∧ ri_code info = c ∧ isHost info = false.

(** Every member of every room has an index entry for that room's code: the
    host as host, the peers as peers. *)
Definition members_indexed (st : Registry) : Prop :=
  ∀ c room, rooms st !! c = Some room → room_indexed (socketToRoom st) c room.

(** Every room keeps its three kinds of members apart. *)
Definition all_disjoint (st : Registry) : Prop :=
  ∀ c room, rooms st !! c = Some room → members_disjoint room.

(** Every room is filed under its own code. *)
Definition rooms_filed (st : Registry) : Prop :=
  ∀ c room, rooms st !! c = Some room → code room = c.

(** A host entry carries no [peerId]; a peer entry carries the id it is filed
    under. *)
Definition index_wf (st : Registry) : Prop :=
  ∀ k info, socketToRoom st !! k = Some info →
    ri_peerId info = if isHost info then None else Some k.

End Rooms.

(* ===================================================================== *)
(** ** The session coordinator: RPC methods and the disconnect hook *)
(* ===================================================================== *)

(** The state is what the methods and the hook read and write: the registry,
    [roomsPerIp] and the three limiters the methods consult.  The idle timer,
    the activity log, the statistics counters and the connection middleware
    touch none of it and are left out of the state; so is the constant
    [iceServers] list, of which only its presence in a reply is recorded.
    The middleware, with the limiter of its own, follows the methods. *)

Module Server.
Import Rooms.

Local Open Scope Z_scope.

(** [CONFIG]. *)
Record Config := mkConfig {
  maxPendingPerRoom : Z;
  maxRoomsPerIp : Z;
  idleTimeoutMs : Z;
  maxPayloadSize : Z
}.

(** [parseInt(process.env.X) || dflt]: an unset or unparsable variable
    ([None]) and [0] give the default. *)
Definition env_or (v : option Z) (dflt : Z) : Z :=
  match v with
  | Some n => if n =? 0 then dflt else n
  | None => dflt
  end.

Definition config_of_env (pending roomsIp idle payload : option Z) : Config :=
  {| maxPendingPerRoom := env_or pending 10;
     maxRoomsPerIp := env_or roomsIp 5;
     idleTimeoutMs := env_or idle (5 * 60 * 1000);
     maxPayloadSize := env_or payload (16 * 1024) |}.

(** The state the RPC methods and the disconnect hook read and write. *)
Record Server := mkServer {
  registry : Registry;
  roomsPerIp : gmap string Z;
  roomCreationLimiter : RateLimit.RateLimiter;
  joinLimiter : RateLimit.RateLimiter;
  signalLimiter : RateLimit.RateLimiter
}.

Definition initial_server : Server :=
  {| registry := empty_registry;
     roomsPerIp := ∅;
     roomCreationLimiter := RateLimit.roomCreationLimiter;
     joinLimiter := RateLimit.joinLimiter;
     signalLimiter := RateLimit.signalLimiter |}.

Definition with_registry (st : Registry) (srv : Server) : Server :=
  {| registry := st; roomsPerIp := roomsPerIp srv;
     roomCreationLimiter := roomCreationLimiter srv;
     joinLimiter := joinLimiter srv; signalLimiter := signalLimiter srv |}.

Definition with_roomsPerIp (m : gmap string Z) (srv : Server) : Server :=
  {| registry := registry srv; roomsPerIp := m;
     roomCreationLimiter := roomCreationLimiter srv;
     joinLimiter := joinLimiter srv; signalLimiter := signalLimiter srv |}.

Definition with_roomCreationLimiter (l : RateLimit.RateLimiter) (srv : Server) : Server :=
  {| registry := registry srv; roomsPerIp := roomsPerIp srv;
     roomCreationLimiter := l;
     joinLimiter := joinLimiter srv; signalLimiter := signalLimiter srv |}.

Definition with_joinLimiter (l : RateLimit.RateLimiter) (srv : Server) : Server :=
  {| registry := registry srv; roomsPerIp := roomsPerIp srv;
     roomCreationLimiter := roomCreationLimiter srv;
     joinLimiter := l; signalLimiter := signalLimiter srv |}.

Definition with_signalLimiter (l : RateLimit.RateLimiter) (srv : Server) : Server :=
  {| registry := registry srv; roomsPerIp := roomsPerIp srv;
     roomCreationLimiter := roomCreationLimiter srv;
     joinLimiter := joinLimiter srv; signalLimiter := l |}.

(** A reply of an RPC method; [WithIce r] is [{ ...r, iceServers }]. *)
Inductive Reply :=
  | Plain (r : Result)
  | WithIce (r : Result).

Record RpcOutcome := mkRpcOutcome {
  reply : Reply;
  server : Server;
  sent : list Effect
}.

Definition refuse (message : string) (srv : Server) : RpcOutcome :=
  {| reply := Plain (RError message); server := srv; sent := [] |}.

(** [validateCode]: normalise, then test
    [^[a-z0-9]{3}-[a-z0-9]{3}-[a-z0-9]{3}$]. *)
Definition is_code_char (c : ascii) : bool :=
  let n := Codes.code_unit c in
  ((97 <=? n) && (n <=? 122) || (48 <=? n) && (n <=? 57))%N.

Definition matches_code_shape (s : string) : bool :=
  match s with
  | String a1 (String a2 (String a3 (String h1
      (String b1 (String b2 (String b3 (String h2
        (String c1 (String c2 (String c3 EmptyString)))))))))) =>
      is_code_char a1 && is_code_char a2 && is_code_char a3 && Codes.is_hyphen h1
      && is_code_char b1 && is_code_char b2 && is_code_char b3 && Codes.is_hyphen h2
      && is_code_char c1 && is_code_char c2 && is_code_char c3
  | _ => false
  end.

Definition validateCode (c : string) : bool :=
  matches_code_shape (Codes.normalizeCode c).

(** [name || 'Anonymous']. *)
Definition or_anonymous (nm : option string) : string :=
  match nm with
  | Some n => if decide (n = "") then "Anonymous" else n
  | None => "Anonymous"
  end.

(** [approved !== false]. *)
Definition not_false (a : option bool) : bool :=
  match a with Some false => false | _ => true end.

Section Methods.
Variable cfg : Config.

(** [methods.createRoom]; [now] is the limiter's clock, [draws] and [stamp]
    the values [generateCode()] and [Date.now()] give the registry. *)
Definition rpc_createRoom (now : Z) (draws : list string) (stamp : Z)
    (s : Socket) (srv : Server) : option RpcOutcome :=
  let ip := clientIp s in
  let '(ok, lim) := RateLimit.isAllowed now ip (roomCreationLimiter srv) in
  let srv1 := with_roomCreationLimiter lim srv in
  if negb ok then
    Some (refuse "Too many rooms created. Please try again later." srv1)
  else
    let ipRoomCount := default 0 (roomsPerIp srv1 !! ip) in
    if maxRoomsPerIp cfg <=? ipRoomCount then
      Some (refuse ("Maximum " +:+ pretty (maxRoomsPerIp cfg)
                    +:+ " rooms per IP reached.") srv1)
    else
      match createRoom draws stamp s (registry srv1) with
      | None => None
      | Some out =>
          Some {| reply := WithIce (value out);
                  server := with_roomsPerIp (<[ip := ipRoomCount + 1]> (roomsPerIp srv1))
                              (with_registry (state out) srv1);
                  sent := effects out |}
      end.

(** [methods.joinRoom]. *)
Definition rpc_joinRoom (now : Z) (live : Socket → bool) (c : string)
    (nm : option string) (s : Socket) (srv : Server) : RpcOutcome :=
  let ip := clientIp s in
  let '(ok, lim) := RateLimit.isAllowed now ip (joinLimiter srv) in
  let srv1 := with_joinLimiter lim srv in
  if negb ok then refuse "Too many join attempts. Please try again later." srv1
  else
    let normalized := Codes.normalizeCode c in
    if negb (validateCode normalized) then refuse "Invalid code format" srv1
    else
      let full :=
        match getRoom normalized (registry srv1) with
        | Some room => maxPendingPerRoom cfg <=? jm_size (pendingPeers room)
        | None => false
        end in
      if full then
        refuse "Room has too many pending requests. Please try again later." srv1
      else
        let out := joinRoom live s normalized (or_anonymous nm) (registry srv1) in
        {| reply := match value out with
                    | RJoined _ _ => WithIce (value out)
                    | r => Plain r
                    end;
           server := with_registry (state out) srv1;
           sent := effects out |}.

(** [methods.rejoinRoom]. *)
Definition rpc_rejoinRoom (live : Socket → bool) (c : string) (asHost : bool)
    (nm : option string) (s : Socket) (srv : Server) : RpcOutcome :=
  let out := rejoinRoom live s (Codes.normalizeCode c) asHost (or_anonymous nm)
               (registry srv) in
  {| reply := Plain (value out);
     server := with_registry (state out) srv;
     sent := effects out |}.

(** [methods.approvePeer]. *)
Definition rpc_approvePeer (peerId : string) (approved : option bool)
    (s : Socket) (srv : Server) : RpcOutcome :=
  let out := approvePeer s peerId (not_false approved) (registry srv) in
  {| reply := Plain (value out);
     server := with_registry (state out) srv;
     sent := effects out |}.

(** [methods.signal]; the payload is kept as its JSON text, whose length is
    [JSON.stringify(payload).length]. *)
Definition rpc_signal (now : Z) (toId : string) (payload : Payload)
    (s : Socket) (srv : Server) : RpcOutcome :=
  let '(ok, lim) := RateLimit.isAllowed now (id s) (signalLimiter srv) in
  let srv1 := with_signalLimiter lim srv in
  if negb ok then refuse "Too many signals. Please slow down." srv1
  else
    let payloadSize := Z.of_nat (String.length payload) in
    if maxPayloadSize cfg <? payloadSize then refuse "Payload too large." srv1
    else
      let out := signal s toId payload (registry srv1) in
      {| reply := Plain (value out);
         server := with_registry (state out) srv1;
         sent := effects out |}.
End Methods.

(** [roomsPerIp.get(ip) || 1]. *)
Definition count_or_one (v : option Z) : Z :=
  match v with
  | Some n => if n =? 0 then 1 else n
  | None => 1
  end.

(** The room counter of an address after one of its host connections has
    gone. *)
Definition release_room (ip : string) (m : gmap string Z) : gmap string Z :=
  let count := count_or_one (m !! ip) in
  if count <=? 1 then delete ip m else <[ip := count - 1]> m.

(** [socket.on('disconnect', ...)]. *)
Definition onDisconnect (s : Socket) (srv : Server) : RpcOutcome :=
  let ip := clientIp s in
  let roomInfo := getRoomBySocket s (registry srv) in
  let hosting :=
    match roomInfo with
    | Some (_, info) => isHost info
    | None => false
    end in
  let srv1 := if hosting then with_roomsPerIp (release_room ip (roomsPerIp srv)) srv
              else srv in
  let out := handleDisconnect s (registry srv1) in
  {| reply := Plain (value out);
     server := with_registry (state out) srv1;
     sent := effects out |}.

(** The number the room counter shows for an address; no entry shows as 0. *)
Definition room_count (ip : string) (srv : Server) : Z :=
  default 0 (roomsPerIp srv !! ip).

(** What a client, or the transport, can make the coordinator do. *)
Inductive Request :=
  | ReqCreateRoom (now : Z) (draws : list string) (stamp : Z) (s : Socket)
  | ReqJoinRoom (now : Z) (live : Socket → bool) (c : string) (nm : option string) (s : Socket)
  | ReqRejoinRoom (live : Socket → bool) (c : string) (asHost : bool) (nm : option string)
      (s : Socket)
  | ReqApprovePeer (peerId : string) (approved : option bool) (s : Socket)
  | ReqSignal (now : Z) (toId : string) (payload : Payload) (s : Socket)
  | Disconnect (s : Socket).

Definition serve (cfg : Config) (q : Request) (srv : Server) : option RpcOutcome :=
  match q with
  | ReqCreateRoom now draws stamp s => rpc_createRoom cfg now draws stamp s srv
  | ReqJoinRoom now live c nm s => Some (rpc_joinRoom cfg now live c nm s srv)
  | ReqRejoinRoom live c h nm s => Some (rpc_rejoinRoom live c h nm s srv)
  | ReqApprovePeer p a s => Some (rpc_approvePeer p a s srv)
  | ReqSignal now t p s => Some (rpc_signal cfg now t p s srv)
  | Disconnect s => Some (onDisconnect s srv)
  end.

(** Serve the requests in order; the outcome of the last one is returned. *)
Fixpoint serve_all (cfg : Config) (qs : list Request) (last : RpcOutcome)
    : option RpcOutcome :=
  match qs with
  | [] => Some last
  | q :: rest =>
      match serve cfg q (server last) with
      | Some out => serve_all cfg rest out
      | None => None
      end
  end.

Definition started : RpcOutcome :=
  {| reply := Plain RVoid; server := initial_server; sent := [] |}.

(** *** The connection middleware *)

(** [h.split(',')[0]]: the text before the first comma. *)
Fixpoint before_comma (s : string) : string :=
  match s with
  | EmptyString => EmptyString
  | String c r => if Ascii.eqb c ","%char then EmptyString else String c (before_comma r)
  end.

(** [a || b] on strings that may be missing: a missing or empty [a] gives
    [b]. *)
Definition or_else (a : option string) (b : string) : string :=
  match a with
  | Some x => if decide (x = "") then b else x
  | None => b
  end.

(** [getClientIp(socket)], from the [x-forwarded-for] header and the address
    of the handshake, either of which may be missing. *)
Definition getClientIp (forwarded address : option string) : string :=
  or_else ((λ h, Codes.trim (before_comma h)) <$> forwarded)
    (or_else address "unknown").

(** The middleware [io.use]: the address is charged to the connection
    limiter; a connection that is let in gets it as [clientIp]. *)
Definition accept_connection (now : Z) (forwarded address : option string) (sid : string)
    (lim : RateLimit.RateLimiter) : option Socket * RateLimit.RateLimiter :=
  let ip := getClientIp forwarded address in
  let '(ok, lim') := RateLimit.isAllowed now ip lim in
  (if ok then Some (mkSocket sid ip) else None, lim').

(** A connection attempt: the clock value at the middleware, the header, the
    address and the id of the socket. *)
Record Handshake := mkHandshake {
  hs_now : Z;
  hs_forwarded : option string;
  hs_address : option string;
  hs_id : string
}.

(** The middleware over a sequence of connection attempts, with the
    connection limiter threaded through. *)
Fixpoint accept_all (conns : list Handshake) (lim : RateLimit.RateLimiter)
    : list (option Socket) * RateLimit.RateLimiter :=
  match conns with
  | [] => ([], lim)
  | h :: rest =>
      let '(so, lim1) :=
        accept_connection (hs_now h) (hs_forwarded h) (hs_address h) (hs_id h) lim in
      let '(sos, lim2) := accept_all rest lim1 in
      (so :: sos, lim2)
  end.

(** The limiter calls the attempts amount to. *)
Definition connection_calls (conns : list Handshake) : list RateLimit.Call :=
  (λ h, (getClientIp (hs_forwarded h) (hs_address h), hs_now h)) <$> conns.

Definition let_in (so : option Socket) : bool :=
  match so with Some _ => true | None => false end.

(** *** Runs of the coordinator *)

(** The states the coordinator reaches from its start by serving requests. *)
Inductive served_by (cfg : Config) : Server → Prop :=
  | served_start : served_by cfg initial_server
  | served_step q srv out :
      served_by cfg srv →
      serve cfg q srv = Some out →
      served_by cfg (server out).

(** Every stored room count lies between one and [maxRoomsPerIp]. *)
Definition counts_bounded (cfg : Config) (srv : Server) : Prop :=
  ∀ ip n, roomsPerIp srv !! ip = Some n → 1 <= n <= maxRoomsPerIp cfg.

(** The request is a [createRoom] call or a disconnect. *)
Definition touches_counts (q : Request) : bool :=
  match q with
  | ReqCreateRoom _ _ _ _ | Disconnect _ => true
  | _ => false
  end.

End Server.

(* ===================================================================== *)
(** ** admin.js: the activity log *)
(* ===================================================================== *)

Module Admin.

(** An entry of [activityLog]: [{ time, type, details }]. *)
Record Activity := mkActivity {
  act_time : string;
  act_type : string;
  act_details : string
}.

Definition MAX_LOG_SIZE : nat := 100.

(** [logActivity(type, details)]; [time] is [new Date().toISOString()].  The
    entry is pushed, and the oldest one is shifted out when the log has grown
    past [MAX_LOG_SIZE]. *)
Definition logActivity (time type details : string) (log : list Activity)
    : list Activity :=
  let pushed := (log ++ [mkActivity time type details])%list in
  if Nat.ltb MAX_LOG_SIZE (length pushed) then tail pushed else pushed.

(** [activityLog.slice(-20).reverse()], the [recentActivity] of
    [getStatsJson]. *)
Definition recentActivity (log : list Activity) : list Activity :=
  reverse (drop (length log - 20) log).

(** The log after the given entries have been logged, in order. *)
Fixpoint log_all (entries : list Activity) (log : list Activity) : list Activity :=
  match entries with
  | [] => log
  | e :: rest => log_all rest (logActivity (act_time e) (act_type e) (act_details e) log)
  end.

End Admin.

(* ===================================================================== *)
(** ** Scenarios *)
(* ===================================================================== *)

Module Scenarios.
Import Rooms Server.

Local Open Scope Z_scope.

(** Two requests a second, and a burst across the end of a window. *)
Definition two_per_second : RateLimit.RateLimiter :=
  RateLimit.new_limiter (Some 1000) (Some 2).

Definition burst : list RateLimit.Call :=
  [("k", 0); ("k", 1000); ("k", 1001); ("k", 1002)].

Definition mixed_calls : list RateLimit.Call :=
  [("b", 5); ("a", 1000); ("a", 7); ("a", 1000)].

(** A host, the same host on a second connection from another address, and
    a peer. *)
Definition host_a : Socket := mkSocket "host-a" "198.51.100.1".
Definition host_b : Socket := mkSocket "host-b" "198.51.100.2".
Definition peer_p : Socket := mkSocket "peer-p" "203.0.113.7".
Definition all_live : Socket → bool := λ _, true.
Definition the_code : string := "abc-def-ghj".
Definition other_code : string := "k7m-p2x-9nf".

Definition after (ops : list Op) : Registry :=
  default empty_registry (run ops empty_registry).

(** The host has opened a room. *)
Definition opened : list Op := [CreateRoom [the_code] 0 host_a].

(** A peer has asked to join. *)
Definition asked : list Op := opened ++ [JoinRoom all_live peer_p the_code "Alice"].

(** The peer has been approved. *)
Definition admitted : list Op := asked ++ [ApprovePeer host_a "peer-p" true].

(** The approved peer has asked to join once more. *)
Definition asked_again : list Op :=
  admitted ++ [JoinRoom all_live peer_p the_code "Alice"].

(** The host has come back on a second connection. *)
Definition host_back : list Op :=
  admitted ++ [RejoinRoom all_live host_b the_code true "Host"].

(** What follows a denial of the peer: another connection asks to join, is
    approved and signals the host. *)
Definition moved_on : list Op :=
  [JoinRoom all_live host_b the_code "Bob";
   ApprovePeer host_a "host-b" true;
   SignalOp host_b "host-a" "offer"].

(** The peer has been denied, and the room has moved on. *)
Definition turned_away : list Op :=
  asked ++ [ApprovePeer host_a "peer-p" false] ++ moved_on.

Definition cfg0 : Config := config_of_env None None None None.

(** The same stories told to the coordinator. *)
Definition req_admitted : list Request :=
  [ReqCreateRoom 0 [the_code] 0 host_a;
   ReqJoinRoom 10 all_live "ABC DEF GHJ" (Some "Alice") peer_p;
   ReqApprovePeer "peer-p" None host_a].

Definition req_asked_again : list Request :=
  req_admitted ++ [ReqJoinRoom 20 all_live the_code (Some "Alice") peer_p].

Definition req_host_back : list Request :=
  req_admitted ++ [ReqRejoinRoom all_live the_code true None host_b].

Definition served (qs : list Request) : RpcOutcome :=
  default started (serve_all cfg0 qs started).

(** Random draws that run through the alphabet in order. *)
Definition in_order (n : nat) : nat := n mod 31.

(** A capital sigma counted as final when it ends the text and follows
    something. *)
Definition word_final (before after : list N) : bool :=
  match before, after with
  | _ :: _, [] => true
  | _, _ => false
  end.

(** U+0130, two spaces, U+212A, capital sigma, 0, 1, U+10400 as a surrogate
    pair, a lone trailing surrogate, I, capital sigma. *)
Definition mixed_text : list N :=
  [0x130; 0x20; 0x20; 0x212A; 0x3A3; 0x30; 0x31; 0xD801; 0xDC00; 0xDC00; 0x49; 0x3A3]%N.

End Scenarios.

(* ===================================================================== *)
(** * Properties *)
(* ===================================================================== *)

(** ** Rendezvous codes *)

Module CodesFacts.
Import Codes.

Example normalize_upper : normalizeCode "ABC-DEF-GHJ" = "abc-def-ghj".
Proof. reflexivity. Qed.

Example normalize_spaces : normalizeCode "abc def  ghj" = "abc-def-ghj".
Proof. reflexivity. Qed.

Example normalize_digits : normalizeCode "K1M 0OI" = "klm-ool".
Proof. reflexivity. Qed.

(** Case analysis on the eight bits of a character. *)
Ltac each_char c := destruct c as [[] [] [] [] [] [] [] []]; vm_compute; reflexivity.

Lemma smap_smap f g s : smap g (smap f s) = smap (fun c => g (f c)) s.
Proof. induction s as [|c r IH]; simpl; [reflexivity | now rewrite IH]. Qed.

Lemma smap_ext f g s : (forall c, f c = g c) -> smap f s = smap g s.
Proof. intros E. induction s as [|c r IH]; simpl; [reflexivity | now rewrite E, IH]. Qed.

Lemma two_replacements c :
  (let x := if is_0o (lower_char c) then "o"%char else lower_char c in
   if is_1il x then "l"%char else x) = norm_char c.
Proof. each_char c. Qed.

Lemma stages_as_smap s :
  replace_class is_1il "l" (replace_class is_0o "o" (toLowerCase s)) = smap norm_char s.
Proof.
  unfold replace_class, toLowerCase. rewrite !smap_smap.
  apply smap_ext. intros c. apply two_replacements.
Qed.

Lemma is_space_norm_char c : is_space (norm_char c) = is_space c.
Proof. each_char c. Qed.

Lemma runs_of_smap b s :
  replace_space_runs_from b (smap norm_char s) = normalize_pass b s.
Proof.
  revert b. induction s as [|c r IH]; intros b; simpl; [reflexivity|].
  rewrite is_space_norm_char. destruct (is_space c).
  - destruct b; now rewrite IH.
  - now rewrite IH.
Qed.

(** A string without white space is left alone by [trim]. *)
Lemma trimEnd_no_space s :
  all_chars (fun c => negb (is_space c)) s = true -> trimEnd s = s.
Proof.
  induction s as [|c r IH]; simpl; [reflexivity|].
  intros H. apply andb_prop in H as [Hc Hr]. rewrite (IH Hr).
  destruct r; [|reflexivity].
  now destruct (is_space c).
Qed.

Lemma trim_no_space s :
  all_chars (fun c => negb (is_space c)) s = true -> trim s = s.
Proof.
  intros H. unfold trim.
  assert (trimStart s = s) as ->.
  { destruct s as [|c r]; simpl in *; [reflexivity|].
    apply andb_prop in H as [Hc _]. now destruct (is_space c). }
  now apply trimEnd_no_space.
Qed.

Lemma settled_norm_char c : is_space c || settled (norm_char c) = true.
Proof. each_char c. Qed.

Lemma pass_settled b s : all_chars settled (normalize_pass b s) = true.
Proof.
  revert b. induction s as [|c r IH]; intros b; simpl; [reflexivity|].
  pose proof (settled_norm_char c) as Hc. unfold norm_char in Hc.
  destruct (is_space c); simpl in *.
  - destruct b; simpl; now rewrite ?IH.
  - now rewrite Hc, IH.
Qed.

Lemma all_chars_weaken (p q : ascii -> bool) s :
  (forall c, p c = true -> q c = true) ->
  all_chars p s = true -> all_chars q s = true.
Proof.
  intros W. induction s as [|c r IH]; simpl; [reflexivity|].
  intros H. apply andb_prop in H as [Hc Hr]. now rewrite (W _ Hc), (IH Hr).
Qed.

Lemma pass_no_space b s :
  all_chars (fun c => negb (is_space c)) (normalize_pass b s) = true.
Proof.
  apply (all_chars_weaken settled); [|apply pass_settled].
  intros c H. unfold settled in H. now apply andb_prop in H as [H _].
Qed.

(** The chain of the source is the single pass; its [trim] finds nothing to
    remove. *)
Lemma normalizeCode_pass s : normalizeCode s = normalize_pass false s.
Proof.
  unfold normalizeCode, replace_space_runs.
  rewrite stages_as_smap, runs_of_smap.
  apply trim_no_space, pass_no_space.
Qed.

Lemma pass_of_settled b s : all_chars settled s = true -> normalize_pass b s = s.
Proof.
  revert b. induction s as [|c r IH]; intros b; simpl; [reflexivity|].
  intros H. apply andb_prop in H as [Hc Hr]. unfold settled in Hc.
  apply andb_prop in Hc as [Hs He].
  apply negb_true_iff in Hs. rewrite Hs.
  apply Ascii.eqb_eq in He. unfold norm_char in He. now rewrite He, (IH _ Hr).
Qed.

(** On the Latin-1 range, normalising a normalised string gives the same
    string back. *)
Lemma normalizeCode_twice (s : string) :
  normalizeCode (normalizeCode s) = normalizeCode s.
Proof.
  rewrite !normalizeCode_pass.
  apply pass_of_settled, pass_settled.
Qed.

(** *** The specification's normalisation against the source's *)

Lemma strip_end_clean s : not_blank (last_char s) = true -> strip_end s = s.
Proof.
  induction s as [|c r IH]; simpl; [reflexivity|].
  destruct r as [|d r'].
  - simpl. intros H. now destruct (is_edge_blank c).
  - intros H.
    assert (last_char (String d r') <> None) as Hne.
    { clear. revert d. induction r' as [|e r'' IH']; intros d; simpl; [discriminate|].
      specialize (IH' e). simpl in IH'. destruct (last_char r''); [discriminate | discriminate]. }
    destruct (last_char (String d r')) as [l|] eqn:El; [|contradiction].
    rewrite (IH H). reflexivity.
Qed.

Lemma strip_start_clean s : not_blank (first_char s) = true -> strip_start s = s.
Proof.
  destruct s as [|c r]; simpl; [reflexivity|].
  intros H. now destruct (is_edge_blank c).
Qed.

Lemma edge_blank_norm_char c : is_edge_blank (norm_char c) = is_edge_blank c.
Proof. each_char c. Qed.

Lemma space_is_edge_blank c : is_edge_blank c = false -> is_space c = false.
Proof. unfold is_edge_blank. now destruct (is_space c). Qed.

Lemma pass_first s :
  not_blank (first_char s) = true ->
  not_blank (first_char (normalize_pass false s)) = true.
Proof.
  destruct s as [|c r]; simpl; [reflexivity|].
  intros H. apply negb_true_iff in H.
  rewrite (space_is_edge_blank _ H). simpl.
  change (subst_char (lower_char c)) with (norm_char c).
  now rewrite edge_blank_norm_char, H.
Qed.

Lemma last_char_none s : last_char s = None -> s = EmptyString.
Proof.
  destruct s as [|c r]; simpl; [reflexivity|].
  destruct (last_char r); discriminate.
Qed.

Lemma pass_last b s l :
  last_char s = Some l -> is_space l = false ->
  last_char (normalize_pass b s) = Some (norm_char l).
Proof.
  revert b. induction s as [|c r IH]; intros b; simpl; [discriminate|].
  destruct (last_char r) as [l'|] eqn:El.
  - intros [= ->] Hl.
    destruct (is_space c); [destruct b|]; simpl; now rewrite ?(IH _ eq_refl Hl).
  - intros [= ->] Hl. apply last_char_none in El as ->.
    rewrite Hl. reflexivity.
Qed.

Lemma pass_clean_edges s :
  clean_edges s = true -> clean_edges (normalize_pass false s) = true.
Proof.
  unfold clean_edges. intros H. apply andb_prop in H as [Hf Hl].
  rewrite (pass_first _ Hf). simpl.
  destruct (last_char s) as [l|] eqn:El.
  - simpl in Hl. apply negb_true_iff in Hl.
    rewrite (pass_last false s l El (space_is_edge_blank _ Hl)). simpl.
    now rewrite edge_blank_norm_char, Hl.
  - apply last_char_none in El as ->. reflexivity.
Qed.

Lemma amended_as_pass s :
  normalize_amended s = strip_end (strip_start (normalize_pass false s)).
Proof.
  unfold normalize_amended, replace_space_runs, toLowerCase.
  rewrite smap_smap.
  rewrite (smap_ext _ norm_char); [|reflexivity].
  now rewrite runs_of_smap.
Qed.

Lemma settled_unconfusing c : settled c = true -> unconfusing c = true.
Proof. revert c. intros c. destruct (settled c) eqn:E; [|discriminate]. intros _.
  revert E. destruct c as [[] [] [] [] [] [] [] []]; vm_compute; congruence.
Qed.

Lemma occurs_excluded p a s :
  p a = false -> all_chars p s = true -> occurs a s = false.
Proof.
  intros Ha. induction s as [|c r IH]; simpl; [reflexivity|].
  intros H. apply andb_prop in H as [Hc Hr]. rewrite (IH Hr), orb_false_r.
  destruct (Ascii.eqb_spec c a) as [->|]; [congruence | reflexivity].
Qed.

(** C5, as the code has it.  For every input that neither begins nor ends
    with white space or a hyphen, [normalizeCode] gives the input lowercased,
    with [0] and [o] written [o] and [1], [i] and [l] written [l], and with
    each run of white space collapsed to one hyphen; no [0], [1] or [i] is
    left in the result. *)
Theorem normalizeCode_substitutes (s : string) :
  clean_edges s = true ->
  normalizeCode s = normalize_amended s
  /\ occurs "0" (normalizeCode s) = false
  /\ occurs "1" (normalizeCode s) = false
  /\ occurs "i" (normalizeCode s) = false.
Proof.
  intros H. rewrite amended_as_pass, normalizeCode_pass.
  pose proof (pass_clean_edges s H) as Hc. unfold clean_edges in Hc.
  apply andb_prop in Hc as [Hf Hl].
  rewrite (strip_start_clean _ Hf), (strip_end_clean _ Hl).
  assert (all_chars unconfusing (normalize_pass false s) = true) as Hu.
  { apply (all_chars_weaken settled); [apply settled_unconfusing | apply pass_settled]. }
  repeat split; apply (occurs_excluded unconfusing); auto.
Qed.

Lemma normalizeCode_substitutes_witness :
  clean_edges "K1M 0oI" = true
  /\ normalizeCode "K1M 0oI" = normalize_amended "K1M 0oI"
  /\ occurs "0" (normalizeCode "K1M 0oI") = false
  /\ occurs "1" (normalizeCode "K1M 0oI") = false
  /\ occurs "i" (normalizeCode "K1M 0oI") = false.
Proof.
  split; [reflexivity|].
  apply (normalizeCode_substitutes "K1M 0oI"). reflexivity.
Defined.

(** C5 as the specification states it fails: the source replaces [0] by [o]
    and [1] and [i] by [l], and white space at either end comes out as a
    hyphen. *)
Lemma normalizeCode_not_spec :
  normalizeCode "k1m-0pi" = "klm-opl"
  /\ normalize_spec "k1m-0pi" = "k1m-0pi"
  /\ normalizeCode "k1m-0pi" <> normalize_spec "k1m-0pi"
  /\ normalizeCode "  abc-def-ghj  " = "-abc-def-ghj-"
  /\ normalize_spec "  abc-def-ghj  " = "abc-def-ghj".
Proof. repeat split; try reflexivity. vm_compute. discriminate. Qed.

End CodesFacts.

(** ** Rendezvous codes on strings of any code units *)

Module Utf16Facts.
Import Utf16.
Local Open Scope N_scope.
Local Open Scope list_scope.

Ltac ranges :=
  repeat match goal with
  | H : _ && _ = true |- _ => apply andb_true_iff in H as [? ?]
  | H : _ || _ = false |- _ => apply orb_false_iff in H as [? ?]
  | H : negb _ = true |- _ => apply negb_true_iff in H
  | H : negb _ = false |- _ => apply negb_false_iff in H
  | H : (_ <=? _) = true |- _ => apply N.leb_le in H
  | H : (_ <=? _) = false |- _ => apply N.leb_gt in H
  | H : (_ <? _) = true |- _ => apply N.ltb_lt in H
  | H : (_ <? _) = false |- _ => apply N.ltb_ge in H
  | H : (_ =? _) = true |- _ => apply N.eqb_eq in H
  | H : (_ =? _) = false |- _ => apply N.eqb_neq in H
  end.

Ltac split_tests :=
  repeat match goal with
  | |- context [N.leb ?a ?b] => destruct (N.leb_spec a b); simpl; try lia
  | |- context [N.ltb ?a ?b] => destruct (N.ltb_spec a b); simpl; try lia
  | |- context [N.eqb ?a ?b] => destruct (N.eqb_spec a b); simpl; try lia
  end; try done.

Lemma list_ind2 {A} (P : list A → Prop) :
  P [] → (∀ a, P [a]) → (∀ a b l, P l → P (b :: l) → P (a :: b :: l)) → ∀ l, P l.
Proof.
  intros H0 H1 H2 l. enough (P l ∧ ∀ a, P (a :: l)) as [? _] by done.
  induction l as [|b l [IH1 IH2]]; [by split|].
  split; [apply IH2|]. intros a. by apply H2.
Qed.

Lemma pair_encode u v : is_lead u = true → is_trail v = true →
  UTF16EncodeCodePoint (UTF16SurrogatePairToCodePoint u v) = [u; v].
Proof.
  unfold is_lead, is_trail, UTF16EncodeCodePoint, UTF16SurrogatePairToCodePoint.
  intros H1 H2. ranges.
  destruct (N.leb_spec ((u - 55296) * 1024 + (v - 56320) + 65536) 65535); [lia|].
  replace ((u - 55296) * 1024 + (v - 56320) + 65536 - 65536)
    with ((v - 56320) + (u - 55296) * 1024) by lia.
  rewrite N.div_add, N.Div0.mod_add, N.div_small, N.mod_small by lia.
  f_equal; [|f_equal]; lia.
Qed.

Lemma pair_is_high u v : 0x10000 <= UTF16SurrogatePairToCodePoint u v.
Proof. unfold UTF16SurrogatePairToCodePoint. lia. Qed.

Lemma pair_code_point u v : is_lead u = true → is_trail v = true →
  is_code_point (UTF16SurrogatePairToCodePoint u v) = true.
Proof.
  unfold is_lead, is_trail, is_code_point, UTF16SurrogatePairToCodePoint.
  intros H1 H2. ranges. apply N.leb_le. lia.
Qed.

Lemma high_not_surrogate c : 0x10000 <= c → is_lead c = false ∧ is_trail c = false.
Proof. intros H. unfold is_lead, is_trail. split; split_tests. Qed.

Lemma encode_decode_pair c : is_code_point c = true → 0xFFFF < c →
  is_lead ((c - 0x10000) / 0x400 + 0xD800) = true
  ∧ is_trail ((c - 0x10000) mod 0x400 + 0xDC00) = true
  ∧ UTF16SurrogatePairToCodePoint ((c - 0x10000) / 0x400 + 0xD800)
      ((c - 0x10000) mod 0x400 + 0xDC00) = c.
Proof.
  unfold is_code_point, is_lead, is_trail, UTF16SurrogatePairToCodePoint.
  intros H1 H2. ranges.
  pose proof (N.Div0.div_mod (c - 65536) 1024) as E.
  pose proof (N.mod_upper_bound (c - 65536) 1024 ltac:(lia)) as B.
  assert ((c - 65536) / 1024 < 1024) as B'.
  { apply N.Div0.div_lt_upper_bound. lia. }
  generalize dependent ((c - 65536) mod 1024). generalize dependent ((c - 65536) / 1024).
  intros q Hq m E Hm.
  split; [|split].
  - apply andb_true_iff. split; apply N.leb_le; lia.
  - apply andb_true_iff. split; apply N.leb_le; lia.
  - lia.
Qed.

Lemma decode_cons u rest :
  StringToCodePoints (u :: rest)
  = if is_lead u && starts_with_trail rest
    then match rest with
         | v :: r => UTF16SurrogatePairToCodePoint u v :: StringToCodePoints r
         | [] => [u]
         end
    else u :: StringToCodePoints rest.
Proof. destruct rest as [|v r]; simpl; [by rewrite andb_false_r | done]. Qed.

Lemma decode_head s :
  starts_with_trail (StringToCodePoints s) = true → starts_with_trail s = true.
Proof.
  destruct s as [|u [|v r]]; simpl; try done.
  destruct (is_lead u && is_trail v) eqn:E; simpl; [|done].
  by rewrite (proj2 (high_not_surrogate _ (pair_is_high u v))).
Qed.

(** Encoding the code points of a string gives the string back. *)
Lemma encode_decode s : is_string s = true → CodePointsToString (StringToCodePoints s) = s.
Proof.
  induction s as [| a | a b l IHl IHbl] using list_ind2; [done | |].
  - simpl. unfold UTF16EncodeCodePoint. intros H. ranges.
    destruct (N.leb_spec a 65535); [done | lia].
  - intros H. cbn [is_string forallb] in H. ranges.
    rewrite decode_cons. cbn [starts_with_trail].
    destruct (is_lead a && is_trail b) eqn:E.
    + ranges. cbn [CodePointsToString]. rewrite pair_encode by done.
      rewrite IHl by done. done.
    + cbn [CodePointsToString]. rewrite IHbl.
      * unfold UTF16EncodeCodePoint. destruct (N.leb_spec a 65535); [done | lia].
      * cbn [is_string forallb]. apply andb_true_iff. split; [by apply N.ltb_lt | done].
Qed.

Lemma decode_ok s : is_string s = true →
  forallb is_code_point (StringToCodePoints s) = true
  ∧ unpaired (StringToCodePoints s) = true.
Proof.
  induction s as [| a | a b l IHl IHbl] using list_ind2; [done | |].
  - simpl. intros H. ranges. rewrite andb_false_r, !andb_true_r.
    split; [|done]. unfold is_code_point. apply N.leb_le. lia.
  - intros H. cbn [is_string forallb] in H. ranges.
    assert (is_string (b :: l) = true) as Hbl.
    { cbn [is_string forallb]. apply andb_true_iff. split; [by apply N.ltb_lt | done]. }
    specialize (IHbl Hbl). destruct (IHl ltac:(done)) as [IH1 IH2].
    destruct IHbl as [IH3 IH4].
    rewrite decode_cons. cbn [starts_with_trail].
    destruct (is_lead a && is_trail b) eqn:E.
    + ranges. cbn [forallb unpaired]. rewrite pair_code_point, IH1, IH2 by done.
      rewrite (proj1 (high_not_surrogate _ (pair_is_high a b))). done.
    + cbn [forallb unpaired]. rewrite IH3, IH4, !andb_true_r.
      split; [unfold is_code_point; apply N.leb_le; lia|].
      apply negb_true_iff. destruct (is_lead a) eqn:Ea; [|done]. simpl in *.
      destruct (starts_with_trail (StringToCodePoints (b :: l))) eqn:Et; [|done].
      apply decode_head in Et. simpl in Et. congruence.
Qed.

Lemma encode_head cps : forallb is_code_point cps = true →
  starts_with_trail (CodePointsToString cps) = starts_with_trail cps.
Proof.
  destruct cps as [|c r]; [done|]. cbn [forallb]. intros H. ranges.
  cbn [CodePointsToString starts_with_trail]. unfold UTF16EncodeCodePoint.
  destruct (N.leb_spec c 65535); [done|]. cbn [app].
  destruct (encode_decode_pair c) as (Hl & _ & _); [done | lia |].
  rewrite (proj2 (high_not_surrogate c ltac:(lia))).
  cbn [starts_with_trail]. unfold is_lead, is_trail in *. ranges. split_tests.
Qed.

(** The code points of an encoded sequence are the sequence, when no lone
    lead surrogate stands before a lone trail surrogate. *)
Lemma decode_encode cps :
  forallb is_code_point cps = true → unpaired cps = true →
  StringToCodePoints (CodePointsToString cps) = cps.
Proof.
  induction cps as [|c r IH]; [done|].
  cbn [forallb unpaired CodePointsToString]. intros H1 H2. ranges.
  unfold UTF16EncodeCodePoint. destruct (N.leb_spec c 65535).
  - cbn [app]. rewrite decode_cons, encode_head by done.
    destruct (is_lead c && starts_with_trail r); [done|]. by rewrite IH.
  - destruct (encode_decode_pair c) as (Hl & Ht & Hp); [done | lia |].
    cbn [app StringToCodePoints]. rewrite Hl, Ht. cbn [andb]. rewrite Hp. by rewrite IH.
Qed.

(** *** The case conversion *)

Section LowercaseFacts.
Variable lm : N → list N.
Variable fs : list N → list N → bool.
Hypothesis data : case_data lm.

Lemma lowered_image c d : d ∈ lm c → lowered lm d.
Proof.
  intros H. pose proof (lm_lowered lm data c d H) as E. split; [done|].
  intros ->. rewrite (lm_sigma lm data) in E. discriminate.
Qed.

Lemma lowered_final_sigma : lowered lm 0x3C2.
Proof. split; [apply (lm_final_sigma lm data) | done]. Qed.

(** Every code point that [toLowercase] writes is its own lower case, and
    none is a capital sigma. *)
Lemma toLowercase_lowered cps : ∀ before,
  Forall (lowered lm) (toLowercase_from lm fs before cps).
Proof.
  induction cps as [|c r IH]; intros before; simpl; [constructor|].
  apply Forall_app. split; [|apply IH].
  destruct ((c =? 931) && fs before r).
  - constructor; [apply lowered_final_sigma | constructor].
  - apply Forall_forall. intros d Hd. by apply (lowered_image c).
Qed.

(** [toLowercase] leaves such a sequence as it is. *)
Lemma toLowercase_fixed cps :
  Forall (lowered lm) cps → ∀ before, toLowercase_from lm fs before cps = cps.
Proof.
  induction 1 as [|c r [Hc Hne] _ IH]; intros before; simpl; [done|].
  rewrite (proj2 (N.eqb_neq _ _) Hne). simpl. by rewrite Hc, IH.
Qed.

Lemma surrogate_chunk c (final : bool) :
  is_surrogate c = true →
  (if (c =? 0x3A3) && final then [0x3C2] else lm c) = [c].
Proof.
  intros H. destruct (N.eqb_spec c 0x3A3) as [->|_]; [done|].
  simpl. by apply (lm_surrogate lm data).
Qed.

Lemma scalar_chunk c (final : bool) :
  is_code_point c = true → is_surrogate c = false →
  (if (c =? 0x3A3) && final then [0x3C2] else lm c) ≠ []
  ∧ Forall (λ d, is_code_point d = true ∧ is_surrogate d = false)
      (if (c =? 0x3A3) && final then [0x3C2] else lm c).
Proof.
  intros Hc Hs. destruct ((c =? 0x3A3) && final).
  - split; [done|]. by repeat constructor.
  - split; [apply (lm_nonempty lm data)|].
    apply Forall_forall. intros d Hd. by apply (lm_scalar lm data c).
Qed.

Lemma scalars_then l out :
  Forall (λ d, is_code_point d = true ∧ is_surrogate d = false) l →
  forallb is_code_point out = true → unpaired out = true →
  forallb is_code_point (l ++ out) = true ∧ unpaired (l ++ out) = true.
Proof.
  intros Hl Ho Hu. induction Hl as [|d l [Hd Hs] _ [IH1 IH2]]; [done|].
  apply orb_false_iff in Hs as [Hs _].
  cbn [app forallb unpaired]. by rewrite Hd, Hs, IH1, IH2.
Qed.

Lemma scalars_head l out :
  l ≠ [] → Forall (λ d, is_code_point d = true ∧ is_surrogate d = false) l →
  starts_with_trail (l ++ out) = false.
Proof.
  intros Hne Hl. destruct Hl as [|d l [_ Hs] _]; [done|].
  by apply orb_false_iff in Hs as [_ Hs].
Qed.

(** [toLowercase] writes code points, and puts no lone lead surrogate before
    a lone trail surrogate when there was none. *)
Lemma toLowercase_ok cps : ∀ before,
  forallb is_code_point cps = true → unpaired cps = true →
  forallb is_code_point (toLowercase_from lm fs before cps) = true
  ∧ unpaired (toLowercase_from lm fs before cps) = true
  ∧ (starts_with_trail (toLowercase_from lm fs before cps) = true →
     starts_with_trail cps = true).
Proof.
  induction cps as [|c r IH]; intros before; [done|].
  cbn [forallb unpaired toLowercase_from]. intros H1 H2.
  apply andb_true_iff in H1 as [Hc Hr]. apply andb_true_iff in H2 as [Hp Hu].
  destruct (IH (before ++ [c]) Hr Hu) as (IH1 & IH2 & IH3).
  destruct (is_surrogate c) eqn:Hs.
  - rewrite surrogate_chunk by done. cbn [app forallb unpaired starts_with_trail].
    rewrite Hc, IH1, IH2, !andb_true_r. split; [done|]. split; [|done].
    apply negb_true_iff. destruct (is_lead c) eqn:El; [|done]. simpl in *.
    destruct (starts_with_trail (toLowercase_from lm fs (before ++ [c]) r)) eqn:Et; [|done].
    rewrite IH3 in Hp by done. done.
  - destruct (scalar_chunk c (fs before r) Hc Hs) as [Hne Hall].
    destruct (scalars_then _ _ Hall IH1 IH2) as [G1 G2].
    split; [done|]. split; [done|].
    by rewrite (scalars_head _ _ Hne Hall).
Qed.

Lemma encode_is_string cps :
  forallb is_code_point cps = true → is_string (CodePointsToString cps) = true.
Proof.
  induction cps as [|c r IH]; [done|]. cbn [forallb CodePointsToString]. intros H.
  apply andb_true_iff in H as [Hc Hr]. unfold is_string. rewrite forallb_app.
  fold (is_string (CodePointsToString r)). rewrite (IH Hr), andb_true_r.
  unfold UTF16EncodeCodePoint. destruct (N.leb_spec c 65535).
  - simpl. rewrite andb_true_r. apply N.ltb_lt. lia.
  - destruct (encode_decode_pair c) as (Hl & Ht & _); [done | lia |].
    unfold is_lead, is_trail in *. ranges. simpl. rewrite andb_true_r.
    apply andb_true_iff. split; apply N.ltb_lt; lia.
Qed.

(** The string [toLowerCase] returns: a string whose code points are their
    own lower case. *)
Lemma toLowerCase_lowered s :
  is_string s = true →
  is_string (toLowerCase lm fs s) = true
  ∧ Forall (lowered lm) (StringToCodePoints (toLowerCase lm fs s)).
Proof.
  intros Hs. destruct (decode_ok s Hs) as [H1 H2].
  destruct (toLowercase_ok _ [] H1 H2) as (G1 & G2 & _).
  unfold toLowerCase, toLowercase. split; [by apply encode_is_string|].
  rewrite decode_encode by done. apply toLowercase_lowered.
Qed.

(** A string whose code points are their own lower case is returned as it
    is. *)
Lemma toLowerCase_fixed s :
  is_string s = true → Forall (lowered lm) (StringToCodePoints s) →
  toLowerCase lm fs s = s.
Proof.
  intros Hs Hl. unfold toLowerCase, toLowercase.
  rewrite toLowercase_fixed by done. by apply encode_decode.
Qed.

End LowercaseFacts.

(** *** The replacements, on code units and on code points *)

Lemma space_unit u :
  is_space u = true → is_lead u = false ∧ is_trail u = false ∧ u < 0x10000.
Proof.
  unfold is_space, is_lead, is_trail. intros H.
  repeat match type of H with
  | context [N.leb ?a ?b] => destruct (N.leb_spec a b); simpl in H
  | context [N.eqb ?a ?b] => destruct (N.eqb_spec a b); simpl in H
  end; try done; (split; [|split]); split_tests; lia.
Qed.

Lemma replace_space_runs_cons b u r :
  replace_space_runs_from b (u :: r)
  = if is_space u
    then (if b then replace_space_runs_from true r
          else 0x2D :: replace_space_runs_from true r)
    else u :: replace_space_runs_from false r.
Proof. done. Qed.

Section ClassFacts.
Variable cls : N → bool.
Variable r : N.
Hypothesis cls_ascii : ∀ u, cls u = true → u < 0x80.
Hypothesis r_ascii : r < 0x80.

Lemma class_lead u : is_lead (if cls u then r else u) = is_lead u.
Proof.
  destruct (cls u) eqn:E; [|done]. apply cls_ascii in E.
  unfold is_lead. split_tests.
Qed.

Lemma class_trail u : is_trail (if cls u then r else u) = is_trail u.
Proof.
  destruct (cls u) eqn:E; [|done]. apply cls_ascii in E.
  unfold is_trail. split_tests.
Qed.

Lemma class_keeps u : 0x80 <= u → (if cls u then r else u) = u.
Proof. intros H. destruct (cls u) eqn:E; [|done]. apply cls_ascii in E. lia. Qed.

Lemma decode_replace_class s :
  StringToCodePoints (replace_class cls r s) = replace_class cls r (StringToCodePoints s).
Proof.
  unfold replace_class.
  induction s as [| a | a b l IHl IHbl] using list_ind2; [done | done |].
  rewrite (decode_cons a). cbn [map starts_with_trail]. rewrite decode_cons.
  cbn [starts_with_trail]. rewrite class_lead, class_trail.
  destruct (is_lead a && is_trail b) eqn:E.
  - cbn [map]. rewrite IHl. f_equal.
    rewrite (class_keeps (UTF16SurrogatePairToCodePoint a b))
      by (pose proof (pair_is_high a b); lia).
    unfold is_lead, is_trail in E. ranges.
    rewrite (class_keeps a), (class_keeps b) by lia. done.
  - cbn [map]. f_equal. apply IHbl.
Qed.

Lemma replace_class_keeps (P : N → Prop) l :
  P r → Forall P l → Forall P (replace_class cls r l).
Proof.
  intros Hr H. unfold replace_class. induction H as [|c l Hc _ IH]; simpl; [constructor|].
  constructor; [by destruct (cls c) | done].
Qed.

Lemma replace_class_string s :
  is_string s = true → is_string (replace_class cls r s) = true.
Proof.
  unfold is_string, replace_class. induction s as [|u s IH]; simpl; [done|].
  intros H. apply andb_true_iff in H as [Hu Hs]. rewrite (IH Hs), andb_true_r.
  destruct (cls u); [|done]. apply N.ltb_lt. lia.
Qed.
End ClassFacts.

Lemma decode_space_runs s : ∀ b,
  StringToCodePoints (replace_space_runs_from b s)
  = replace_space_runs_from b (StringToCodePoints s).
Proof.
  induction s as [| a | a c l IHl IHcl] using list_ind2; [done | |].
  - intros b. simpl. by destruct (is_space a), b.
  - intros b. rewrite (decode_cons a). cbn [starts_with_trail].
    destruct (is_lead a && is_trail c) eqn:E.
    + assert (is_space a = false) as Ea.
      { destruct (is_space a) eqn:Ea; [|done]. apply space_unit in Ea as (Ea & _).
        by rewrite Ea in E. }
      assert (is_space c = false) as Ec.
      { destruct (is_space c) eqn:Ec; [|done]. apply space_unit in Ec as (_ & Ec & _).
        by rewrite Ec, andb_false_r in E. }
      assert (is_space (UTF16SurrogatePairToCodePoint a c) = false) as Ep.
      { destruct (is_space (UTF16SurrogatePairToCodePoint a c)) eqn:Ep; [|done].
        apply space_unit in Ep as (_ & _ & Ep).
        pose proof (pair_is_high a c). lia. }
      rewrite !replace_space_runs_cons, Ea, Ec, Ep.
      cbn [StringToCodePoints]. rewrite E. by rewrite IHl.
    + rewrite (replace_space_runs_cons b a (c :: l)),
        (replace_space_runs_cons b a (StringToCodePoints (c :: l))).
      destruct (is_space a) eqn:Ea.
      * destruct b; [apply IHcl|].
        rewrite decode_cons. change (is_lead 0x2D) with false. cbn [andb].
        f_equal. apply IHcl.
      * rewrite decode_cons, IHcl.
        replace (is_lead a && starts_with_trail (replace_space_runs_from false (c :: l)))
          with false; [done|].
        symmetry. destruct (is_lead a) eqn:El; [|done]. cbn [andb] in *.
        rewrite replace_space_runs_cons. by destruct (is_space c).
Qed.

Lemma space_runs_keep (P : N → Prop) l :
  P 0x2D → Forall P l → ∀ b, Forall P (replace_space_runs_from b l).
Proof.
  intros Hh H. induction H as [|c l Hc _ IH]; intros b; simpl; [constructor|].
  destruct (is_space c); [destruct b; [apply IH | constructor; [done | apply IH]]|].
  constructor; [done | apply IH].
Qed.

Lemma space_runs_string s : ∀ b,
  is_string s = true → is_string (replace_space_runs_from b s) = true.
Proof.
  unfold is_string. induction s as [|u s IH]; intros b; simpl; [done|].
  intros H. apply andb_true_iff in H as [Hu Hs].
  destruct (is_space u); [destruct b; simpl; by rewrite IH|].
  simpl. by rewrite Hu, IH.
Qed.

(** *** What the replacements leave *)

Lemma replaced_settled s : ∀ b,
  forallb settled
    (replace_space_runs_from b
       (replace_class is_1il 0x6C (replace_class is_0o 0x6F s))) = true.
Proof.
  unfold replace_class. induction s as [|u s IH]; intros b; [done|].
  cbn [map]. rewrite replace_space_runs_cons.
  destruct (is_space _) eqn:Es.
  - destruct b; [apply IH|]. cbn [forallb]. by rewrite IH.
  - cbn [forallb]. rewrite IH, andb_true_r. unfold settled. rewrite Es.
    clear Es IH. unfold is_1il, is_0o.
    destruct (N.eqb_spec u 48) as [->|]; [done|].
    destruct (N.eqb_spec u 111) as [->|]; [done|]. simpl.
    destruct (N.eqb_spec u 49) as [->|]; [done|].
    destruct (N.eqb_spec u 105) as [->|]; [done|].
    destruct (N.eqb_spec u 108) as [->|]; [done|].
    simpl. split_tests.
Qed.

Lemma settled_unit u :
  settled u = true → is_space u = false ∧ u ≠ 0x30 ∧ u ≠ 0x31 ∧ u ≠ 0x69.
Proof.
  unfold settled. intros H.
  apply andb_true_iff in H as [H H4]. apply andb_true_iff in H as [H H3].
  apply andb_true_iff in H as [H1 H2]. ranges. done.
Qed.

Lemma settled_trim s : forallb settled s = true → trim s = s.
Proof.
  intros H. unfold trim.
  assert (trimStart s = s) as ->.
  { destruct s as [|u r]; [done|]. simpl in *. apply andb_true_iff in H as [H _].
    apply settled_unit in H as [H _]. by rewrite H. }
  induction s as [|u r IH]; [done|]. simpl in *. apply andb_true_iff in H as [Hu Hr].
  rewrite (IH Hr). apply settled_unit in Hu as [Hu _]. rewrite Hu. by destruct r.
Qed.

Lemma settled_replaced s :
  forallb settled s = true →
  replace_space_runs (replace_class is_1il 0x6C (replace_class is_0o 0x6F s)) = s.
Proof.
  unfold replace_space_runs, replace_class. generalize false.
  induction s as [|u r IH]; intros b; [done|]. simpl. intros H.
  apply andb_true_iff in H as [Hu Hr]. apply settled_unit in Hu as (Hs & H0 & H1 & Hi).
  assert ((if is_0o u then 111 else u) = u) as ->.
  { unfold is_0o. split_tests. }
  assert ((if is_1il u then 108 else u) = u) as ->.
  { unfold is_1il. split_tests. }
  rewrite Hs. by rewrite IH.
Qed.

(** *** Idempotence *)

Lemma class_0o_ascii u : is_0o u = true → u < 0x80.
Proof. unfold is_0o. intros H. apply orb_true_iff in H as [H|H]; ranges; lia. Qed.

Lemma class_1il_ascii u : is_1il u = true → u < 0x80.
Proof.
  unfold is_1il. intros H.
  apply orb_true_iff in H as [H|H]; [apply orb_true_iff in H as [H|H]|]; ranges; lia.
Qed.

(** C9.  [normalizeCode] is idempotent on every string: for every sequence
    of 16-bit code units, normalising the normalised string gives the same
    string back.  The case conversion is the runtime's: the statement holds
    for whatever lowercase mappings it uses that have the properties
    [case_data] of the Unicode Character Database, and for whatever it takes
    as the final position of a sigma. *)
Theorem normalizeCode_idempotent (Lowercase_Mapping : N → list N)
    (Final_Sigma : list N → list N → bool) (s : list N) :
  case_data Lowercase_Mapping →
  is_string s = true →
  normalizeCode Lowercase_Mapping Final_Sigma
    (normalizeCode Lowercase_Mapping Final_Sigma s)
  = normalizeCode Lowercase_Mapping Final_Sigma s.
Proof.
  intros data Hs.
  destruct (toLowerCase_lowered _ Final_Sigma data s Hs) as [Hu Hl].
  set (u := toLowerCase Lowercase_Mapping Final_Sigma s) in *.
  assert (normalizeCode Lowercase_Mapping Final_Sigma s
          = replace_space_runs (replace_class is_1il 0x6C (replace_class is_0o 0x6F u)))
    as E.
  { unfold normalizeCode. fold u. apply settled_trim, replaced_settled. }
  rewrite E.
  set (t := replace_space_runs (replace_class is_1il 0x6C (replace_class is_0o 0x6F u))).
  assert (forallb settled t = true) as Ht by apply replaced_settled.
  assert (toLowerCase Lowercase_Mapping Final_Sigma t = t) as Efix.
  { apply toLowerCase_fixed.
    - apply space_runs_string.
      apply replace_class_string; [done|]. by apply replace_class_string.
    - unfold t, replace_space_runs.
      rewrite decode_space_runs.
      rewrite (decode_replace_class _ _ class_1il_ascii) by done.
      rewrite (decode_replace_class _ _ class_0o_ascii) by done.
      apply space_runs_keep; [split; [apply (lm_hyphen _ data) | done]|].
      apply replace_class_keeps; [split; [apply (lm_l _ data) | done]|].
      apply replace_class_keeps; [split; [apply (lm_o _ data) | done]|]. done. }
  unfold normalizeCode. rewrite Efix, settled_replaced by done.
  by apply settled_trim.
Qed.

(** *** Agreement with the model of the Latin-1 range *)

Ltac each_unit c := destruct c as [[] [] [] [] [] [] [] []]; vm_compute; reflexivity.

Lemma unit_space c : is_space (Codes.code_unit c) = Codes.is_space c.
Proof. each_unit c. Qed.

Lemma unit_0o c : is_0o (Codes.code_unit c) = Codes.is_0o c.
Proof. each_unit c. Qed.

Lemma unit_1il c : is_1il (Codes.code_unit c) = Codes.is_1il c.
Proof. each_unit c. Qed.

Lemma unit_plain c :
  is_lead (Codes.code_unit c) = false
  ∧ (Codes.code_unit c <=? 0xFFFF) = true
  ∧ (Codes.code_unit c =? 0x3A3) = false.
Proof. destruct c as [[] [] [] [] [] [] [] []]; vm_compute; by repeat split. Qed.

Lemma units_decode s : StringToCodePoints (units s) = units s.
Proof.
  induction s as [|c r IH]; [done|]. cbn [units]. rewrite decode_cons.
  destruct (unit_plain c) as (-> & _ & _). cbn [andb]. by rewrite IH.
Qed.

Lemma units_encode s : CodePointsToString (units s) = units s.
Proof.
  induction s as [|c r IH]; [done|]. cbn [units CodePointsToString].
  unfold UTF16EncodeCodePoint. destruct (unit_plain c) as (_ & -> & _).
  by rewrite IH.
Qed.

Lemma units_toLowercase lm fs s : latin1_data lm → ∀ before,
  toLowercase_from lm fs before (units s) = units (Codes.toLowerCase s).
Proof.
  intros data. induction s as [|c r IH]; intros before; [done|].
  cbn [units toLowercase_from]. destruct (unit_plain c) as (_ & _ & ->).
  cbn [andb]. by rewrite data, IH.
Qed.

Lemma units_toLowerCase lm fs s :
  latin1_data lm → toLowerCase lm fs (units s) = units (Codes.toLowerCase s).
Proof.
  intros data. unfold toLowerCase, toLowercase.
  by rewrite units_decode, units_toLowercase, units_encode.
Qed.

Lemma units_replace_0o s :
  replace_class is_0o 0x6F (units s) = units (Codes.replace_class Codes.is_0o "o" s).
Proof.
  unfold replace_class, Codes.replace_class.
  induction s as [|c r IH]; [done|]. cbn [units map Codes.smap].
  rewrite IH, unit_0o. by destruct (Codes.is_0o c).
Qed.

Lemma units_replace_1il s :
  replace_class is_1il 0x6C (units s) = units (Codes.replace_class Codes.is_1il "l" s).
Proof.
  unfold replace_class, Codes.replace_class.
  induction s as [|c r IH]; [done|]. cbn [units map Codes.smap].
  rewrite IH, unit_1il. by destruct (Codes.is_1il c).
Qed.

Lemma units_space_runs s : ∀ b,
  replace_space_runs_from b (units s) = units (Codes.replace_space_runs_from b s).
Proof.
  induction s as [|c r IH]; intros b; [done|].
  cbn [units replace_space_runs_from Codes.replace_space_runs_from].
  rewrite unit_space. destruct (Codes.is_space c); [destruct b|]; by rewrite IH.
Qed.

Lemma units_trimStart s : trimStart (units s) = units (Codes.trimStart s).
Proof.
  induction s as [|c r IH]; [done|]. cbn [units trimStart Codes.trimStart].
  rewrite unit_space. by destruct (Codes.is_space c).
Qed.

Lemma units_trimEnd s : trimEnd (units s) = units (Codes.trimEnd s).
Proof.
  induction s as [|c r IH]; [done|]. cbn [units trimEnd Codes.trimEnd].
  rewrite IH, unit_space. destruct (Codes.trimEnd r); [|done].
  by destruct (Codes.is_space c).
Qed.

(** With mappings that are those of [Codes.lower_char] on the Latin-1 range,
    [normalizeCode] on the code units of a string of that range is
    [Codes.normalizeCode]. *)
Lemma normalizeCode_latin1 lm fs s :
  latin1_data lm → normalizeCode lm fs (units s) = units (Codes.normalizeCode s).
Proof.
  intros data. unfold normalizeCode, Codes.normalizeCode, trim, Codes.trim.
  unfold replace_space_runs, Codes.replace_space_runs.
  rewrite units_toLowerCase by done.
  by rewrite units_replace_0o, units_replace_1il, units_space_runs,
    units_trimStart, units_trimEnd.
Qed.

(** *** The mappings of the database *)

Lemma table_find_some table c p :
  UnicodeData.table_find table c = Some p → In p table ∧ p.1 = c.
Proof.
  unfold UnicodeData.table_find. intros H. apply find_some in H as [H1 H2].
  split; [done|]. by apply N.eqb_eq.
Qed.

Lemma table_find_none table c :
  existsb (λ q, q.1 =? c) table = false → UnicodeData.table_find table c = None.
Proof.
  unfold UnicodeData.table_find. induction table as [|q r IH]; simpl; [done|].
  intros H. apply orb_false_iff in H as [H1 H2]. rewrite H1. by apply IH.
Qed.

Lemma lowercase_table_ok : UnicodeData.table_ok UnicodeData.lowercase_table = true.
Proof. vm_compute. reflexivity. Qed.

Lemma lowercase_entry c p :
  UnicodeData.table_find UnicodeData.lowercase_table c = Some p →
  is_surrogate c = false ∧ p.2 ≠ []
  ∧ ∀ d, d ∈ p.2 → is_code_point d = true ∧ is_surrogate d = false
                    ∧ UnicodeData.lowercase d = [d].
Proof.
  pose proof lowercase_table_ok as Hok. unfold UnicodeData.table_ok in Hok.
  rewrite forallb_forall in Hok.
  intros Hf. apply table_find_some in Hf as [Hin <-].
  specialize (Hok p Hin). unfold UnicodeData.entry_ok in Hok.
  apply andb_true_iff in Hok as [Hok H3]. apply andb_true_iff in Hok as [H1 H2].
  apply negb_true_iff in H1. split; [done|]. split; [by destruct (p.2)|].
  intros d Hd. rewrite forallb_forall in H3.
  specialize (H3 d (proj1 (list_elem_of_In _ _) Hd)).
  apply andb_true_iff in H3 as [H3 H6]. apply andb_true_iff in H3 as [H4 H5].
  apply negb_true_iff in H5, H6. split; [done|]. split; [done|].
  unfold UnicodeData.lowercase. by rewrite table_find_none.
Qed.

(** The mappings of the database have the properties [case_data]. *)
Lemma lowercase_data : case_data UnicodeData.lowercase.
Proof.
  split.
  - intros c Hc. unfold UnicodeData.lowercase.
    destruct (UnicodeData.table_find UnicodeData.lowercase_table c) as [p|] eqn:E; [|done].
    destruct (lowercase_entry c p E) as [H _]. congruence.
  - intros c d Hc Hs. unfold UnicodeData.lowercase.
    destruct (UnicodeData.table_find UnicodeData.lowercase_table c) as [p|] eqn:E.
    + intros Hd. destruct (lowercase_entry c p E) as (_ & _ & H).
      by destruct (H d Hd) as (? & ? & _).
    + intros Hd. apply list_elem_of_singleton in Hd as ->. done.
  - intros c. unfold UnicodeData.lowercase.
    destruct (UnicodeData.table_find UnicodeData.lowercase_table c) as [p|] eqn:E; [|done].
    by destruct (lowercase_entry c p E) as (_ & H & _).
  - intros c d. unfold UnicodeData.lowercase at 1.
    destruct (UnicodeData.table_find UnicodeData.lowercase_table c) as [p|] eqn:E.
    + intros Hd. destruct (lowercase_entry c p E) as (_ & _ & H).
      by destruct (H d Hd) as (_ & _ & ?).
    + intros Hd. apply list_elem_of_singleton in Hd as ->.
      unfold UnicodeData.lowercase. by rewrite E.
  - vm_compute. reflexivity.
  - vm_compute. reflexivity.
  - vm_compute. reflexivity.
  - vm_compute. reflexivity.
  - vm_compute. reflexivity.
Qed.

(** On the Latin-1 range they are the mappings of [Codes.lower_char]. *)
Lemma lowercase_latin1 : latin1_data UnicodeData.lowercase.
Proof. intros c. each_unit c. Qed.

Lemma normalizeCode_idempotent_witness :
  normalizeCode UnicodeData.lowercase Scenarios.word_final
    (normalizeCode UnicodeData.lowercase Scenarios.word_final Scenarios.mixed_text)
  = normalizeCode UnicodeData.lowercase Scenarios.word_final Scenarios.mixed_text.
Proof.
  apply normalizeCode_idempotent; [apply lowercase_data | reflexivity].
Defined.

End Utf16Facts.

(** ** Rate limiter *)

Module RateLimitFacts.
Import RateLimit.

Local Open Scope Z_scope.

(** The README's test limiter: three requests a second. *)
Example test_limiter_blocks_fourth :
  (run (new_limiter (Some 1000) (Some 3))
       [("key1", 0); ("key1", 1); ("key1", 2); ("key1", 3); ("key2", 3)]).1
  = [true; true; true; false; true].
Proof. vm_compute. reflexivity. Qed.

Lemma isAllowed_config now key l :
  windowMs (isAllowed now key l).2 = windowMs l
  ∧ maxRequests (isAllowed now key l).2 = maxRequests l.
Proof.
  unfold isAllowed. destruct (requests l !! key) as [b|]; [|done].
  destruct (resetTime b <? now); [done|].
  destruct (maxRequests l <=? count b); done.
Qed.

(** A call touches the bucket of its own key only. *)
Lemma isAllowed_other_bucket now key other l :
  key ≠ other → requests (isAllowed now key l).2 !! other = requests l !! other.
Proof.
  intros Hne. unfold isAllowed. destruct (requests l !! key) as [b|].
  - destruct (resetTime b <? now); simpl; [by rewrite lookup_insert_ne|].
    destruct (maxRequests l <=? count b); simpl; [done | by rewrite lookup_insert_ne].
  - simpl. by rewrite lookup_insert_ne.
Qed.

(** The answer depends on the configuration and on the bucket of the key. *)
Lemma isAllowed_answer now key l l' :
  maxRequests l = maxRequests l' → requests l !! key = requests l' !! key →
  (isAllowed now key l).1 = (isAllowed now key l').1.
Proof.
  intros HM Hb. unfold isAllowed. rewrite <- Hb, <- HM.
  destruct (requests l !! key) as [b|]; [|done].
  destruct (resetTime b <? now); [done|].
  destruct (maxRequests l <=? count b); done.
Qed.

Lemma run_cons l key now rest :
  run l ((key, now) :: rest)
  = ((isAllowed now key l).1 :: (run (isAllowed now key l).2 rest).1,
     (run (isAllowed now key l).2 rest).2).
Proof.
  simpl. destruct (isAllowed now key l) as [ok l1]. simpl.
  destruct (run l1 rest) as [oks l2]. reflexivity.
Qed.

(** Inside an open window: with [n] requests already counted against the
    bucket and no call for the key after the bucket's reset time, at most
    [maxRequests - n] further calls are allowed. *)
Lemma open_window_budget calls : ∀ l key n deadline,
  requests l !! key = Some (mkBucket n deadline) →
  n <= maxRequests l →
  before_deadline key deadline calls →
  allowed_count key calls (run l calls).1 <= maxRequests l - n.
Proof.
  induction calls as [|[k t] rest IH]; intros l key n deadline Hb Hn Hd.
  - simpl. lia.
  - rewrite run_cons. cbn [allowed_count fst].
    assert (before_deadline key deadline rest) as Hd'.
    { intros t' Ht'. apply Hd. by apply elem_of_cons; right. }
    destruct (isAllowed_config t k l) as [_ HM].
    destruct (decide (k = key)) as [->|Hne].
    + rewrite bool_decide_eq_true_2 by done. cbn [andb].
      assert (t <= deadline) as Ht by (apply Hd; apply elem_of_cons; by left).
      unfold isAllowed in *. rewrite Hb in *. cbn [resetTime count] in *.
      destruct (deadline <? t) eqn:E; [apply Z.ltb_lt in E; lia|].
      destruct (maxRequests l <=? n) eqn:E2.
      * apply Z.leb_le in E2. cbn [fst snd] in *.
        specialize (IH l key n deadline Hb Hn Hd'). lia.
      * apply Z.leb_gt in E2. cbn [fst snd] in *.
        specialize (IH (with_requests l (<[key:=mkBucket (n + 1) deadline]> (requests l)))
                      key (n + 1) deadline).
        cbn [with_requests requests maxRequests] in IH.
        rewrite lookup_insert_eq in IH.
        specialize (IH eq_refl ltac:(lia) Hd'). lia.
    + rewrite bool_decide_eq_false_2 by done. cbn [andb].
      specialize (IH (isAllowed t k l).2 key n deadline).
      rewrite isAllowed_other_bucket in IH by done. rewrite HM in IH.
      specialize (IH Hb Hn Hd'). lia.
Qed.

(** C6, as the code has it.  The limiter counts in fixed windows: from a call
    that opens a window for a key (no bucket yet, or the bucket's reset time
    has passed) up to that window's reset time, at most [maxRequests] calls
    for the key are allowed, whatever other keys do in between and in
    whatever order the clock values come (for [maxRequests] of at least one:
    the opening call is always allowed).  And a call for one key changes
    neither the bucket nor the next answer of any other key. *)
Theorem fixed_window_bound (l : RateLimiter) (key : string) :
  (∀ now calls,
     1 <= maxRequests l →
     opens_window now (requests l !! key) = true →
     before_deadline key (now + windowMs l) calls →
     allowed_count key ((key, now) :: calls) (run l ((key, now) :: calls)).1
     <= maxRequests l)
  ∧ (∀ now other t, key ≠ other →
       requests (isAllowed now key l).2 !! other = requests l !! other
       ∧ (isAllowed t other (isAllowed now key l).2).1 = (isAllowed t other l).1).
Proof.
  split.
  - intros now calls HM Hopen Hd.
    rewrite run_cons. cbn [allowed_count fst].
    rewrite bool_decide_eq_true_2 by done. cbn [andb].
    pose proof (open_window_budget calls
                  (with_requests l (<[key:=mkBucket 1 (now + windowMs l)]> (requests l)))
                  key 1 (now + windowMs l)) as B.
    cbn [with_requests requests maxRequests] in B. rewrite lookup_insert_eq in B.
    specialize (B eq_refl HM Hd).
    unfold isAllowed. unfold opens_window in Hopen.
    destruct (requests l !! key) as [b|]; [rewrite Hopen|]; cbn [fst snd]; lia.
  - intros now other t Hne. split; [by apply isAllowed_other_bucket|].
    apply isAllowed_answer.
    + apply isAllowed_config.
    + by apply isAllowed_other_bucket.
Qed.

Lemma fixed_window_bound_witness :
  allowed_count "a" (("a", 0) :: Scenarios.mixed_calls)
    (run Scenarios.two_per_second (("a", 0) :: Scenarios.mixed_calls)).1 <= 2.
Proof.
  destruct (fixed_window_bound Scenarios.two_per_second "a") as [H _].
  apply (H 0 Scenarios.mixed_calls).
  - vm_compute. discriminate.
  - reflexivity.
  - intros t Ht. unfold Scenarios.mixed_calls in Ht.
    repeat (apply elem_of_cons in Ht as [Ht|Ht]; [inversion Ht; subst; vm_compute; discriminate|]).
    by apply elem_of_nil in Ht.
Defined.

(** C6 as the specification states it fails: with two requests a second, the
    calls at 1000, 1001 and 1002 ms are all allowed, three in a window of one
    second. *)
Lemma sliding_window_exceeded :
  (run Scenarios.two_per_second Scenarios.burst).1 = [true; true; true; true]
  ∧ ¬ (allowed_within "k" 1000 (windowMs Scenarios.two_per_second) Scenarios.burst
         (run Scenarios.two_per_second Scenarios.burst).1
       <= maxRequests Scenarios.two_per_second).
Proof.
  split; [vm_compute; reflexivity|].
  vm_compute. intros H. apply H. reflexivity.
Qed.

End RateLimitFacts.

(** ** Room registry *)

Module RoomsFacts.
Import Rooms.

(** *** The ordered map *)

Section JsMapFacts.
Context {V : Type}.
Implicit Types (m : JsMap V) (k : string) (v : V).

Lemma jm_get_set_eq k v m : jm_get k (jm_set k v m) = Some v.
Proof.
  induction m as [|[k' v'] r IH]; simpl.
  - by rewrite decide_True.
  - destruct (decide (k' = k)) as [->|Hne]; simpl.
    + by rewrite decide_True.
    + by rewrite decide_False.
Qed.

Lemma jm_get_set_ne k k' v m : k ≠ k' → jm_get k' (jm_set k v m) = jm_get k' m.
Proof.
  intros Hne. induction m as [|[k0 v0] r IH]; simpl.
  - by rewrite decide_False.
  - destruct (decide (k0 = k)) as [->|Hne0]; simpl.
    + by rewrite !decide_False.
    + destruct (decide (k0 = k')); [done | apply IH].
Qed.

Lemma jm_get_delete_eq k m : jm_get k (jm_delete k m) = None.
Proof.
  induction m as [|[k' v'] r IH]; simpl; [done|].
  destruct (decide (k' = k)) as [->|Hne]; simpl; [done|].
  by rewrite decide_False.
Qed.

Lemma jm_get_delete_ne k k' m : k ≠ k' → jm_get k' (jm_delete k m) = jm_get k' m.
Proof.
  intros Hne. induction m as [|[k0 v0] r IH]; simpl; [done|].
  destruct (decide (k0 = k)) as [->|Hne0]; simpl.
  - by rewrite decide_False.
  - destruct (decide (k0 = k')); [done | apply IH].
Qed.

Lemma jm_has_set_eq k v m : jm_has k (jm_set k v m) = true.
Proof. unfold jm_has. by rewrite jm_get_set_eq. Qed.

Lemma jm_has_set_ne k k' v m : k ≠ k' → jm_has k' (jm_set k v m) = jm_has k' m.
Proof. intros. unfold jm_has. by rewrite jm_get_set_ne. Qed.

Lemma jm_has_delete_eq k m : jm_has k (jm_delete k m) = false.
Proof. unfold jm_has. by rewrite jm_get_delete_eq. Qed.

Lemma jm_has_delete_ne k k' m : k ≠ k' → jm_has k' (jm_delete k m) = jm_has k' m.
Proof. intros. unfold jm_has. by rewrite jm_get_delete_ne. Qed.

Lemma jm_has_delete_false k k' m : jm_has k' m = false → jm_has k' (jm_delete k m) = false.
Proof.
  intros H. destruct (decide (k = k')) as [->|Hne].
  - apply jm_has_delete_eq.
  - by rewrite jm_has_delete_ne.
Qed.

Lemma jm_get_elem k v m : jm_get k m = Some v → (k, v) ∈ m.
Proof.
  induction m as [|[k' v'] r IH]; simpl; [done|].
  destruct (decide (k' = k)) as [->|Hne].
  - intros [= ->]. apply elem_of_cons. by left.
  - intros H. apply elem_of_cons. right. by apply IH.
Qed.

Lemma jm_has_keys k m : jm_has k m = true ↔ k ∈ jm_keys m.
Proof.
  unfold jm_has, jm_keys. induction m as [|[k' v'] r IH]; simpl.
  - split; [done | intros H; by apply elem_of_nil in H].
  - rewrite elem_of_cons. destruct (decide (k' = k)) as [->|Hne].
    + split; [intros _; by left | done].
    + rewrite IH. split; [intros H; by right | intros [H|H]; [congruence | done]].
Qed.

Lemma jm_has_not_key k m : k ∉ jm_keys m → jm_has k m = false.
Proof.
  intros H. destruct (jm_has k m) eqn:E; [|done].
  by apply jm_has_keys in E.
Qed.

Lemma elem_jm_set k v k' v' m :
  (k', v') ∈ jm_set k v m → (k', v') = (k, v) ∨ (k', v') ∈ m.
Proof.
  induction m as [|[k0 v0] r IH]; simpl.
  - intros H. apply list_elem_of_singleton in H. by left.
  - destruct (decide (k0 = k)) as [->|Hne]; rewrite !elem_of_cons.
    + intros [H|H]; [by left | right; by right].
    + intros [H|H]; [right; by left|].
      destruct (IH H) as [?|?]; [by left | right; by right].
Qed.

Lemma elem_jm_delete k k' v' m : (k', v') ∈ jm_delete k m → (k', v') ∈ m.
Proof.
  induction m as [|[k0 v0] r IH]; simpl; [done|].
  destruct (decide (k0 = k)) as [->|Hne]; rewrite !elem_of_cons.
  - intros H. right. by apply IH.
  - intros [H|H]; [by left | right; by apply IH].
Qed.

Lemma key_jm_set k v k' m : k' ∈ jm_keys (jm_set k v m) → k' = k ∨ k' ∈ jm_keys m.
Proof.
  unfold jm_keys. intros H. apply list_elem_of_fmap in H as [[k0 v0] [-> H]].
  apply elem_jm_set in H as [[= -> ->]|H]; [by left|].
  right. apply list_elem_of_fmap. by exists (k0, v0).
Qed.

Lemma key_jm_delete k k' m : k' ∈ jm_keys (jm_delete k m) → k' ∈ jm_keys m.
Proof.
  unfold jm_keys. intros H. apply list_elem_of_fmap in H as [[k0 v0] [-> H]].
  apply elem_jm_delete in H. apply list_elem_of_fmap. by exists (k0, v0).
Qed.

Lemma NoDup_jm_set k v m : NoDup (jm_keys m) → NoDup (jm_keys (jm_set k v m)).
Proof.
  induction m as [|[k0 v0] r IH]; simpl.
  - intros _. apply NoDup_singleton.
  - intros H. apply NoDup_cons in H as [Hin Hr].
    destruct (decide (k0 = k)) as [->|Hne]; simpl.
    + by apply NoDup_cons.
    + apply NoDup_cons. split; [|by apply IH].
      intros Hk. apply key_jm_set in Hk as [?|?]; done.
Qed.

Lemma NoDup_jm_delete k m : NoDup (jm_keys m) → NoDup (jm_keys (jm_delete k m)).
Proof.
  induction m as [|[k0 v0] r IH]; simpl; [done|].
  intros H. apply NoDup_cons in H as [Hin Hr].
  destruct (decide (k0 = k)) as [->|Hne]; simpl; [by apply IH|].
  apply NoDup_cons. split; [|by apply IH].
  intros Hk. by apply key_jm_delete in Hk.
Qed.
End JsMapFacts.

(** *** Well-formed peer maps *)

Lemma peers_wf_nil : peers_wf [].
Proof. split; [apply NoDup_nil_2 | intros k p H; by apply elem_of_nil in H]. Qed.

Lemma peers_wf_set k p m : peers_wf m → id (socket p) = k → peers_wf (jm_set k p m).
Proof.
  intros [Hnd Hid] Hk. split; [by apply NoDup_jm_set|].
  intros k' p' H. apply elem_jm_set in H as [[= -> ->]|H]; [done | by apply Hid].
Qed.

Lemma peers_wf_delete k m : peers_wf m → peers_wf (jm_delete k m).
Proof.
  intros [Hnd Hid]. split; [by apply NoDup_jm_delete|].
  intros k' p' H. apply elem_jm_delete in H. by apply Hid.
Qed.

Lemma peers_wf_cons k p m :
  peers_wf ((k, p) :: m) → id (socket p) = k ∧ jm_has k m = false ∧ peers_wf m.
Proof.
  intros [Hnd Hid]. simpl in Hnd. apply NoDup_cons in Hnd as [Hin Hr].
  split; [apply Hid, elem_of_cons; by left|].
  split; [by apply jm_has_not_key|].
  split; [done|]. intros k' p' H. apply Hid, elem_of_cons. by right.
Qed.

Lemma peers_wf_get k p m : peers_wf m → jm_get k m = Some p → id (socket p) = k.
Proof. intros [_ Hid] H. by apply Hid, jm_get_elem. Qed.

(** *** Counting emits *)

Lemma emit_count_app t ev a b :
  emit_count t ev (a ++ b) = emit_count t ev a + emit_count t ev b.
Proof.
  induction a as [|e r IH]; simpl; [done|].
  destruct e; rewrite IH; lia.
Qed.

(** One emit of [ev] to each peer of a well-formed map, and nothing else. *)
Lemma emit_count_peers t ev ev' (m : JsMap Peer) :
  peers_wf m →
  emit_count t ev' ((λ e, Emit (socket e.2) ev) <$> m)
  = if jm_has t m && bool_decide (ev = ev') then 1 else 0.
Proof.
  induction m as [|[k p] r IH]; [done|].
  intros H. apply peers_wf_cons in H as (Hk & Hfresh & Hr).
  rewrite fmap_cons. cbn [emit_count snd]. rewrite (IH Hr).
  unfold jm_has at 2. simpl. destruct (decide (k = t)) as [->|Hne].
  - rewrite Hfresh. simpl. destruct (decide (ev = ev')) as [->|Hev].
    + by rewrite !bool_decide_eq_true_2.
    + rewrite !bool_decide_eq_false_2; [done | done | by intros [_ ?]].
  - rewrite (bool_decide_eq_false_2 (id (socket p) = t ∧ ev = ev'))
      by (intros [? _]; congruence).
    fold (jm_has t r). done.
Qed.

Lemma notify_effects peers : ∀ index,
  (notify_host_gone peers index).2 = (λ e, Emit (socket e.2) HostDisconnected) <$> peers.
Proof.
  induction peers as [|[k p] r IH]; intros index; simpl; [done|].
  specialize (IH (delete k index)).
  destruct (notify_host_gone r (delete k index)) as [i e]. simpl in *. by rewrite IH.
Qed.

Lemma notify_index peers : ∀ index k,
  (notify_host_gone peers index).1 !! k = if jm_has k peers then None else index !! k.
Proof.
  induction peers as [|[k0 p] r IH]; intros index k; simpl; [done|].
  specialize (IH (delete k0 index) k).
  destruct (notify_host_gone r (delete k0 index)) as [i e]. simpl in *. rewrite IH.
  unfold jm_has at 2. simpl. destruct (decide (k0 = k)) as [->|Hne].
  - rewrite lookup_delete_eq. by destruct (jm_has k r).
  - fold (jm_has k r). by rewrite lookup_delete_ne.
Qed.

(** The host branch of [handleDisconnect] in one piece. *)
Lemma handleDisconnect_host s st info room :
  socketToRoom st !! id s = Some info → isHost info = true →
  rooms st !! ri_code info = Some room →
  handleDisconnect s st
  = {| value := RVoid;
       state :=
         {| rooms := delete (ri_code info) (rooms st);
            socketToRoom :=
              delete (id s)
                (notify_host_gone (pendingPeers room)
                   (notify_host_gone (approvedPeers room) (socketToRoom st)).1).1 |};
       effects :=
         (notify_host_gone (approvedPeers room) (socketToRoom st)).2
         ++ (notify_host_gone (pendingPeers room)
               (notify_host_gone (approvedPeers room) (socketToRoom st)).1).2 |}.
Proof.
  intros Hi Hh Hr. unfold handleDisconnect. rewrite Hi, Hr, Hh.
  destruct (notify_host_gone (approvedPeers room) (socketToRoom st)) as [i1 e1]. simpl.
  destruct (notify_host_gone (pendingPeers room) i1) as [i2 e2]. done.
Qed.

(** *** What one call does to the rooms *)

Lemma generate_unused_fresh rs draws c :
  generate_unused rs draws = Some c → rs !! c = None ∧ c ∈ draws.
Proof.
  induction draws as [|d later IH]; simpl; [done|].
  destruct (rs !! d) eqn:E.
  - intros H. destruct (IH H). split; [done|]. apply elem_of_cons. by right.
  - intros [= <-]. split; [done|]. apply elem_of_cons. by left.
Qed.

(** The loop ends as soon as an unused code is drawn. *)
Lemma generate_unused_ends rs draws c :
  c ∈ draws → rs !! c = None → is_Some (generate_unused rs draws).
Proof.
  induction draws as [|d later IH]; simpl.
  - intros H. by apply elem_of_nil in H.
  - intros H Hc. destruct (rs !! d) eqn:E; [|by eexists].
    apply elem_of_cons in H as [->|H]; [congruence | by apply IH].
Qed.

Ltac room_lookup H :=
  first
    [ apply lookup_insert_Some in H as [[<- <-]|[? H]]
    | apply lookup_delete_Some in H as [? H] ].

(** Every room after a call is a room left as it was, a room just created,
    or a room changed as [room_change] says. *)
Lemma apply_rooms o st out c r' :
  apply o st = Some out →
  rooms (state out) !! c = Some r' →
  rooms st !! c = Some r'
  ∨ (rooms st !! c = None ∧ room_born o c r')
  ∨ (∃ r, rooms st !! c = Some r ∧ room_change o c r r').
Proof.
  destruct o as [draws now s|live s c0 nm|hs p a|f t pl|s|live s c0 h nm]; simpl.
  - unfold createRoom. destruct (generate_unused (rooms st) draws) as [c0|] eqn:G; [|done].
    apply generate_unused_fresh in G as [G _].
    intros [= <-]. simpl. intros H. room_lookup H; [|by left].
    right; left. done.
  - intros [= <-]. unfold joinRoom.
    destruct (rooms st !! c0) as [room|] eqn:E; simpl; [|by left].
    intros H. room_lookup H; [|by left].
    right; right. by exists room.
  - intros [= <-]. unfold approvePeer.
    destruct (socketToRoom st !! id hs) as [info|]; simpl; [|by left].
    destruct (isHost info); simpl; [|by left].
    destruct (rooms st !! ri_code info) as [room|] eqn:E; simpl; [|by left].
    destruct (jm_get p (pendingPeers room)) as [e|] eqn:Ep; simpl; [|by left].
    destruct a; simpl; intros H; (room_lookup H; [|by left]);
      right; right; exists room; (split; [done|]); [by exists e | done].
  - intros [= <-]. unfold signal.
    destruct (socketToRoom st !! id f) as [info|]; simpl; [|by left].
    destruct (rooms st !! ri_code info) as [room|]; simpl; [|by left].
    destruct (negb _ && negb _); simpl; [by left|].
    destruct (find_target room t); simpl; by left.
  - intros [= <-]. unfold handleDisconnect.
    destruct (socketToRoom st !! id s) as [info|]; simpl; [|by left].
    destruct (rooms st !! ri_code info) as [room|] eqn:E; simpl; [|by left].
    destruct (isHost info).
    + destruct (notify_host_gone (approvedPeers room) (socketToRoom st)) as [i1 e1].
      destruct (notify_host_gone (pendingPeers room) i1) as [i2 e2]. simpl.
      intros H. room_lookup H. by left.
    + simpl. intros H. room_lookup H; [|by left].
      right; right. by exists room.
  - intros [= <-]. unfold rejoinRoom.
    destruct (rooms st !! c0) as [room|] eqn:E; simpl; [|by left].
    destruct h.
    + simpl. intros H. room_lookup H; [|by left].
      right; right. by exists room.
    + unfold joinRoom. rewrite E. simpl. intros H. room_lookup H; [|by left].
      right; right. by exists room.
Qed.

(** A property of single rooms that holds of a new room and survives every
    allowed change holds of every room of every reachable registry. *)
Lemma room_invariant (guard : Op → Registry → Prop) (P : Room → Prop) :
  (∀ o c r', room_born o c r' → P r') →
  (∀ o st c r r', guard o st → rooms st !! c = Some r → P r →
                  room_change o c r r' → P r') →
  ∀ st, reachable_by guard st → ∀ c r, rooms st !! c = Some r → P r.
Proof.
  intros Hborn Hchange st Hreach.
  induction Hreach as [|o st out Hreach IH Hg Ha]; intros c r Hr.
  - simpl in Hr. by rewrite lookup_empty in Hr.
  - destruct (apply_rooms _ _ _ _ _ Ha Hr) as [H|[[_ H]|(r0 & H0 & H)]].
    + by apply (IH c).
    + by apply (Hborn o c).
    + apply (Hchange o st c r0 r Hg H0); [by apply (IH c) | done].
Qed.

Lemma room_change_wf o c r r' : room_wf r → room_change o c r r' → room_wf r'.
Proof.
  intros (Hp & Ha & Hh).
  destruct o as [draws now s|live s c0 nm|hs p a|f t pl|s|live s c0 h nm]; simpl; try done.
  - intros [_ ->]. split; [|done]. by apply peers_wf_set.
  - destruct a.
    + intros (e & He & ->). split; [by apply peers_wf_delete|]. split; [|done].
      simpl. apply peers_wf_set; [done|]. by apply (peers_wf_get _ _ (pendingPeers r)).
    + intros ->. split; [by apply peers_wf_delete | done].
  - intros ->. split; [by apply peers_wf_delete|]. split; [|done].
    by apply peers_wf_delete.
  - destruct h; intros [_ ->]; [done|].
    split; [|done]. by apply peers_wf_set.
Qed.

(** In every registry that calls can reach, every peer entry is filed under
    the id of its socket, no key is held twice, and [hostId] is the id of
    [hostSocket]. *)
Lemma reachable_wf guard st : reachable_by guard st → registry_wf st.
Proof.
  intros H. unfold registry_wf. apply (room_invariant guard room_wf); [| |done].
  - intros o c r'. destruct o; simpl; try done. intros ->.
    split; [apply peers_wf_nil|]. split; [apply peers_wf_nil | done].
  - intros o st' c r r' _ _. apply room_change_wf.
Qed.

Lemma allowed_run_reachable guard ops : ∀ st st',
  reachable_by guard st → allowed_run guard ops st →
  run ops st = Some st' → reachable_by guard st'.
Proof.
  induction ops as [|o rest IH]; intros st st' Hr; simpl.
  - by intros _ [= <-].
  - intros [Hg Hrest]. destruct (apply o st) as [out|] eqn:E; [|done].
    apply IH; [|done]. by apply (reach_step guard o st out).
Qed.

Lemma run_reachable ops st st' : reachable st → run ops st = Some st' → reachable st'.
Proof.
  revert st. induction ops as [|o rest IH]; intros st Hr; simpl.
  - by intros [= <-].
  - destruct (apply o st) as [out|] eqn:E; [|done].
    apply IH. by apply (reach_step any_call o st out).
Qed.

Lemma after_reachable ops st :
  run ops empty_registry = Some st → reachable (Scenarios.after ops).
Proof.
  intros H. unfold Scenarios.after. rewrite H. simpl.
  apply (run_reachable ops empty_registry); [apply reach_empty | done].
Qed.

(** *** Membership disjointness (C2) *)

Lemma jm_has_delete_true {V} k k' (m : JsMap V) :
  jm_has k' (jm_delete k m) = true → jm_has k' m = true.
Proof.
  intros H. destruct (jm_has k' m) eqn:E; [done|].
  by rewrite (jm_has_delete_false k k' m E) in H.
Qed.

Lemma room_change_disjoint o st c r r' :
  no_double_enrol o st → rooms st !! c = Some r →
  members_disjoint r → room_change o c r r' → members_disjoint r'.
Proof.
  intros Hg Hr (Hd & Hhp & Hha).
  assert (∀ s nm, hostId r ≠ id s ∧ jm_has (id s) (approvedPeers r) = false →
            members_disjoint
              (with_pending (jm_set (id s) (mkPeer s nm) (pendingPeers r)) r)) as Hjoin.
  { intros s nm [Hh Ha]. repeat split; simpl; [|by rewrite jm_has_set_ne|done].
    intros k [Hk1 Hk2]. destruct (decide (id s = k)) as [<-|Hne]; [congruence|].
    rewrite jm_has_set_ne in Hk1 by done. by apply (Hd k). }
  destruct o as [draws now s|live s c0 nm|hs p a|f t pl|s|live s c0 h nm]; simpl; try done.
  - intros [-> ->]. apply Hjoin. by apply Hg.
  - destruct a.
    + intros (e & He & ->).
      assert (jm_has p (pendingPeers r) = true) as Hp by (unfold jm_has; by rewrite He).
      assert (p ≠ hostId r) as Hne by congruence.
      repeat split; simpl.
      * intros k [Hk1 Hk2]. destruct (decide (p = k)) as [<-|Hnk].
        -- by rewrite jm_has_delete_eq in Hk1.
        -- rewrite jm_has_set_ne in Hk2 by done.
           apply jm_has_delete_true in Hk1. by apply (Hd k).
      * by apply jm_has_delete_false.
      * by rewrite jm_has_set_ne.
    + intros ->. repeat split; simpl; [|by apply jm_has_delete_false|done].
      intros k [Hk1 Hk2]. apply jm_has_delete_true in Hk1. by apply (Hd k).
  - intros ->. repeat split; simpl; try by apply jm_has_delete_false.
    intros k [Hk1 Hk2]. apply jm_has_delete_true in Hk1, Hk2. by apply (Hd k).
  - destruct h.
    + intros [-> ->]. destruct (Hg r Hr) as [Hp Ha]. by repeat split.
    + intros [-> ->]. apply Hjoin. by apply Hg.
Qed.

(** C2, as the code has it.  In every registry reached by calls none of
    which enrols a connection a second time in one room (no [joinRoom] by the
    host or an approved peer of the room, no host [rejoinRoom] by one of its
    pending or approved peers), every room has disjoint [pendingPeers] and
    [approvedPeers], and its [hostId] is a key of neither. *)
Theorem membership_disjoint (st : Registry) (c : string) (room : Room) :
  reachable_by no_double_enrol st →
  rooms st !! c = Some room →
  members_disjoint room.
Proof.
  intros Hreach. revert c room.
  apply (room_invariant no_double_enrol members_disjoint); [| |done].
  - intros o c' r'. destruct o; simpl; try done. intros ->.
    repeat split; simpl; try done. intros k [H _]. done.
  - apply room_change_disjoint.
Qed.

Lemma membership_disjoint_witness :
  members_disjoint
    (mkRoom Scenarios.the_code Scenarios.host_a "host-a" []
       [("peer-p", mkPeer Scenarios.peer_p "Alice")] 0).
Proof.
  apply (membership_disjoint (Scenarios.after Scenarios.admitted) Scenarios.the_code).
  - apply (allowed_run_reachable no_double_enrol Scenarios.admitted empty_registry).
    + apply reach_empty.
    + simpl. split; [done|]. split; [|done].
      intros r0 H. vm_compute in H. injection H as <-. split; [discriminate | reflexivity].
    + vm_compute. reflexivity.
  - vm_compute. reflexivity.
Defined.

(** C2 as the specification states it fails: [joinRoom] takes a connection
    that is already approved, and the peer is then in both maps. *)
Lemma membership_overlap :
  ¬ (∀ st, reachable st → ∀ c room, rooms st !! c = Some room → members_disjoint room).
Proof.
  intros H.
  assert (reachable (Scenarios.after Scenarios.asked_again)) as Hr.
  { eapply after_reachable. vm_compute. reflexivity. }
  destruct (H _ Hr Scenarios.the_code
              (mkRoom Scenarios.the_code Scenarios.host_a "host-a"
                 [("peer-p", mkPeer Scenarios.peer_p "Alice")]
                 [("peer-p", mkPeer Scenarios.peer_p "Alice")] 0)) as (Hd & _).
  { vm_compute. reflexivity. }
  apply (Hd "peer-p"). split; reflexivity.
Qed.

(** *** Signal routing (C1) *)

(** C1, as the code has it.  For a sender whose index entry names an existing
    room: a [signal] event is emitted if and only if the sender is the room's
    host or one of its approved peers and [toId] is the host's id or the key
    of an approved peer.  A sender that is neither gets "Not authorized to
    signal"; an authorized sender with any other [toId], in particular one
    found only in [pendingPeers], gets "Target not found"; in both cases
    nothing is emitted.  The one emit goes to the host socket or to the
    approved peer's socket, and the registry is left as it was. *)
Theorem signal_authorization (st : Registry) (sender : Socket) (toId : string)
    (payload : Payload) (info : RoomInfo) (room : Room) :
  socketToRoom st !! id sender = Some info →
  rooms st !! ri_code info = Some room →
  (emits_signal (effects (signal sender toId payload st)) = true
   ↔ authorized room (id sender) = true ∧ valid_target room toId = true)
  ∧ (authorized room (id sender) = false →
       value (signal sender toId payload st) = RError "Not authorized to signal"
       ∧ effects (signal sender toId payload st) = [])
  ∧ (authorized room (id sender) = true → valid_target room toId = false →
       value (signal sender toId payload st) = RError "Target not found"
       ∧ effects (signal sender toId payload st) = [])
  ∧ (authorized room (id sender) = true → valid_target room toId = true →
       value (signal sender toId payload st) = RSuccess
       ∧ ∃ target,
           effects (signal sender toId payload st)
           = [Emit target (SignalEvent (id sender) payload)]
           ∧ (toId = hostId room ∧ target = hostSocket room
              ∨ toId ≠ hostId room
                ∧ ∃ p, jm_get toId (approvedPeers room) = Some p ∧ target = socket p))
  ∧ (jm_has toId (pendingPeers room) = true →
     jm_has toId (approvedPeers room) = false → toId ≠ hostId room →
       effects (signal sender toId payload st) = []
       ∧ (authorized room (id sender) = true →
            value (signal sender toId payload st) = RError "Target not found"))
  ∧ state (signal sender toId payload st) = st.
Proof.
  intros Hi Hr. unfold signal. rewrite Hi, Hr. unfold authorized, valid_target, find_target.
  destruct (bool_decide (hostId room = id sender)) eqn:Eh;
    destruct (jm_has (id sender) (approvedPeers room)) eqn:Ea; cbn [negb andb orb];
    unfold jm_has; destruct (decide (toId = hostId room)) as [Et|Et];
    [rewrite (bool_decide_eq_true_2 _ Et) | rewrite (bool_decide_eq_false_2 _ Et)
    |rewrite (bool_decide_eq_true_2 _ Et) | rewrite (bool_decide_eq_false_2 _ Et)
    |rewrite (bool_decide_eq_true_2 _ Et) | rewrite (bool_decide_eq_false_2 _ Et)
    |rewrite (bool_decide_eq_true_2 _ Et) | rewrite (bool_decide_eq_false_2 _ Et)];
    destruct (jm_get toId (approvedPeers room)) as [p|] eqn:Ep; cbn;
    repeat split; try done; try (intros; done); try (intros [? ?]; done);
    eexists; (split; [reflexivity|]); first [by left | right; eauto].
Qed.

Lemma signal_authorization_witness :
  emits_signal
    (effects (signal Scenarios.peer_p "host-a" "sdp" (Scenarios.after Scenarios.admitted)))
  = true.
Proof.
  apply (signal_authorization (Scenarios.after Scenarios.admitted) Scenarios.peer_p
           "host-a" "sdp" (mkRoomInfo Scenarios.the_code false (Some "peer-p"))
           (mkRoom Scenarios.the_code Scenarios.host_a "host-a" []
              [("peer-p", mkPeer Scenarios.peer_p "Alice")] 0)).
  - vm_compute. reflexivity.
  - vm_compute. reflexivity.
  - split; reflexivity.
Defined.

(** C1 as the specification states it fails in one direction: the host of a
    room is authorized, yet its signal to an id that names nobody emits
    nothing. *)
Lemma signal_without_target :
  socketToRoom (Scenarios.after Scenarios.opened) !! "host-a"
  = Some (mkRoomInfo Scenarios.the_code true None)
  ∧ rooms (Scenarios.after Scenarios.opened) !! Scenarios.the_code
    = Some (mkRoom Scenarios.the_code Scenarios.host_a "host-a" [] [] 0)
  ∧ authorized (mkRoom Scenarios.the_code Scenarios.host_a "host-a" [] [] 0) "host-a" = true
  ∧ emits_signal
      (effects (signal Scenarios.host_a "nobody" "sdp" (Scenarios.after Scenarios.opened)))
    = false
  ∧ value (signal Scenarios.host_a "nobody" "sdp" (Scenarios.after Scenarios.opened))
    = RError "Target not found".
Proof. repeat split; vm_compute; reflexivity. Qed.

(** *** No guard against a second enrolment (C4) *)

(** C4, as the code has it.  A connection that already has an index entry is
    served like any other: [createRoom] returns the first unused code drawn,
    files a new room under it and overwrites the connection's index entry;
    [joinRoom] on an existing room returns success, after which the room's
    [pendingPeers] holds the connection under its id, with the name given
    (the other pending entries, [approvedPeers], the host and the other
    rooms are as before), and the connection's index entry is overwritten
    with a peer entry for the room (the other index entries are as before).
    Neither returns an error. *)
Theorem enrolled_connection_is_served (st : Registry) (s : Socket) (info : RoomInfo) :
  socketToRoom st !! id s = Some info →
  (∀ draws now c, c ∈ draws → rooms st !! c = None →
     ∃ out c',
       createRoom draws now s st = Some out
       ∧ value out = RCode c'
       ∧ rooms st !! c' = None
       ∧ rooms (state out) !! c' = Some (mkRoom c' s (id s) [] [] now)
       ∧ socketToRoom (state out) !! id s = Some (mkRoomInfo c' true None)
       ∧ effects out = [JoinChannel s c'])
  ∧ (∀ live c nm room, rooms st !! c = Some room →
       value (joinRoom live s c nm st) = RJoined (id s) (live (hostSocket room))
       ∧ (∃ room', rooms (state (joinRoom live s c nm st)) !! c = Some room'
            ∧ jm_get (id s) (pendingPeers room') = Some (mkPeer s nm)
            ∧ (∀ k, k ≠ id s →
                 jm_get k (pendingPeers room') = jm_get k (pendingPeers room))
            ∧ approvedPeers room' = approvedPeers room
            ∧ hostSocket room' = hostSocket room ∧ hostId room' = hostId room
            ∧ code room' = code room ∧ createdAt room' = createdAt room)
       ∧ (∀ c', c' ≠ c →
            rooms (state (joinRoom live s c nm st)) !! c' = rooms st !! c')
       ∧ socketToRoom (state (joinRoom live s c nm st)) !! id s
         = Some (mkRoomInfo c false (Some (id s)))
       ∧ (∀ k, k ≠ id s →
            socketToRoom (state (joinRoom live s c nm st)) !! k = socketToRoom st !! k)
       ∧ effects (joinRoom live s c nm st)
         = [JoinChannel s c; Emit (hostSocket room) (PeerRequest (id s) nm)]).
Proof.
  intros _. split.
  - intros draws now c Hin Hc.
    destruct (generate_unused_ends (rooms st) draws c Hin Hc) as [c' G].
    unfold createRoom. rewrite G. eexists; exists c'. split; [done|]. simpl.
    apply generate_unused_fresh in G as [G _].
    by rewrite !lookup_insert_eq.
  - intros live c nm room Hr. unfold joinRoom. rewrite Hr.
    cbn [value state effects rooms socketToRoom].
    split; [done|]. split; [|split; [|split; [|split]]].
    + eexists. rewrite lookup_insert_eq. split; [done|].
      cbn [with_pending pendingPeers approvedPeers hostSocket hostId code createdAt].
      split; [apply jm_get_set_eq|]. split; [|done].
      intros k Hk. by apply jm_get_set_ne.
    + intros c' Hne. by rewrite lookup_insert_ne.
    + by rewrite lookup_insert_eq.
    + intros k Hk. by rewrite lookup_insert_ne.
    + done.
Qed.

Lemma enrolled_connection_is_served_witness :
  value (joinRoom Scenarios.all_live Scenarios.host_a Scenarios.the_code "Host"
           (Scenarios.after Scenarios.opened))
  = RJoined "host-a" true.
Proof.
  destruct (enrolled_connection_is_served (Scenarios.after Scenarios.opened)
              Scenarios.host_a (mkRoomInfo Scenarios.the_code true None)) as [_ H].
  - vm_compute. reflexivity.
  - apply (H Scenarios.all_live Scenarios.the_code "Host"
             (mkRoom Scenarios.the_code Scenarios.host_a "host-a" [] [] 0)).
    vm_compute. reflexivity.
Defined.

(** C4 as the specification states it fails: the host of a room calls
    [createRoom] and [joinRoom] again; both succeed and both change the
    registry. *)
Lemma already_in_room_not_refused :
  is_Some (socketToRoom (Scenarios.after Scenarios.opened) !! id Scenarios.host_a)
  ∧ (∃ out,
       createRoom [Scenarios.the_code; Scenarios.other_code] 1 Scenarios.host_a
         (Scenarios.after Scenarios.opened) = Some out
       ∧ value out = RCode Scenarios.other_code
       ∧ state out ≠ Scenarios.after Scenarios.opened)
  ∧ value (joinRoom Scenarios.all_live Scenarios.host_a Scenarios.the_code "Host"
             (Scenarios.after Scenarios.opened))
    = RJoined "host-a" true
  ∧ state (joinRoom Scenarios.all_live Scenarios.host_a Scenarios.the_code "Host"
             (Scenarios.after Scenarios.opened))
    ≠ Scenarios.after Scenarios.opened.
Proof.
  split; [by eexists|]. split; [|split].
  - eexists. split; [vm_compute; reflexivity|]. split; [reflexivity|].
    intros E. apply (f_equal (λ r, rooms r !! Scenarios.other_code)) in E.
    vm_compute in E. discriminate.
  - reflexivity.
  - intros E. apply (f_equal (λ r, pendingPeers <$> rooms r !! Scenarios.the_code)) in E.
    vm_compute in E. discriminate.
Qed.

(** *** Host rejoin (C7, C10) *)

(** C7, as the code has it.  For every room of a reachable registry, a host
    [rejoinRoom] leaves [approvedPeers] as it was and replaces only
    [hostSocket] and [hostId] in the room (other rooms are not touched, and
    the index changes at the new connection's id only); it emits
    [host:reconnected] with the new host id exactly once to every approved
    peer and nothing to any other connection, in particular nothing to a
    peer that is only pending; and it returns success with the code and the
    list of the approved peers' ids and names, in the map's order. *)
Theorem host_rejoin_keeps_peers (st : Registry) (live : Socket → bool) (s : Socket)
    (c nm : string) (room : Room) :
  reachable st →
  rooms st !! c = Some room →
  (∃ room', rooms (state (rejoinRoom live s c true nm st)) !! c = Some room'
            ∧ approvedPeers room' = approvedPeers room
            ∧ pendingPeers room' = pendingPeers room
            ∧ code room' = code room ∧ createdAt room' = createdAt room
            ∧ hostSocket room' = s ∧ hostId room' = id s)
  ∧ (∀ c', c' ≠ c → rooms (state (rejoinRoom live s c true nm st)) !! c' = rooms st !! c')
  ∧ (∀ k, k ≠ id s →
       socketToRoom (state (rejoinRoom live s c true nm st)) !! k = socketToRoom st !! k)
  ∧ (∀ p, jm_has p (approvedPeers room) = true →
       emit_count p (HostReconnected (id s)) (effects (rejoinRoom live s c true nm st)) = 1)
  ∧ (∀ p ev, jm_has p (approvedPeers room) = false →
       emit_count p ev (effects (rejoinRoom live s c true nm st)) = 0)
  ∧ (∀ target ev, Emit target ev ∈ effects (rejoinRoom live s c true nm st) →
       ev = HostReconnected (id s))
  ∧ value (rejoinRoom live s c true nm st)
    = RRejoined c ((λ e, (e.1, name e.2)) <$> approvedPeers room).
Proof.
  intros Hreach Hr.
  destruct (reachable_wf _ _ Hreach c room Hr) as (_ & Hwf & _).
  unfold rejoinRoom. rewrite Hr.
  cbn [state rooms socketToRoom effects value with_host approvedPeers].
  split; [|split; [|split; [|split; [|split; [|split]]]]].
  - eexists. rewrite lookup_insert_eq. split; [done|]. by repeat split.
  - intros c' Hne. by rewrite lookup_insert_ne.
  - intros k Hne. by rewrite lookup_insert_ne.
  - intros p Hp. cbn [emit_count]. rewrite (emit_count_peers _ _ _ _ Hwf), Hp.
    by rewrite bool_decide_eq_true_2.
  - intros p ev Hp. cbn [emit_count]. by rewrite (emit_count_peers _ _ _ _ Hwf), Hp.
  - intros target ev H. apply elem_of_cons in H as [H|H]; [done|].
    apply list_elem_of_fmap in H as (e & [= _ ->] & _). done.
  - done.
Qed.

Lemma host_rejoin_keeps_peers_witness :
  emit_count "peer-p" (HostReconnected (id Scenarios.host_b))
    (effects (rejoinRoom Scenarios.all_live Scenarios.host_b Scenarios.the_code true "Host"
                (Scenarios.after Scenarios.admitted)))
  = 1.
Proof.
  destruct (host_rejoin_keeps_peers (Scenarios.after Scenarios.admitted) Scenarios.all_live
              Scenarios.host_b Scenarios.the_code "Host"
              (mkRoom Scenarios.the_code Scenarios.host_a "host-a" []
                 [("peer-p", mkPeer Scenarios.peer_p "Alice")] 0))
    as (_ & _ & _ & H & _).
  - eapply after_reachable. vm_compute. reflexivity.
  - vm_compute. reflexivity.
  - apply (H "peer-p"). reflexivity.
Defined.

(** C7 as the specification states it fails in its parenthesis: a peer that
    was approved and then asked to join again is in [pendingPeers] too, and
    it is sent [host:reconnected]. *)
Lemma host_rejoin_reaches_pending :
  (pendingPeers <$> rooms (Scenarios.after Scenarios.asked_again) !! Scenarios.the_code)
  = Some [("peer-p", mkPeer Scenarios.peer_p "Alice")]
  ∧ emit_count "peer-p" (HostReconnected "host-b")
      (effects (rejoinRoom Scenarios.all_live Scenarios.host_b Scenarios.the_code true
                  "Host" (Scenarios.after Scenarios.asked_again)))
    = 1.
Proof. split; vm_compute; reflexivity. Qed.

(** C10.  A host [rejoinRoom] makes the new connection the host (the room
    filed under the code has it as [hostSocket] and its id as [hostId], and
    is otherwise as before) and gives it an index entry, and leaves the
    index entry of the previous host connection as it was: host, same
    code.  When [handleDisconnect] is then
    called for the previous connection, and more generally whenever it is
    called for a connection whose index entry says host of a code that has a
    room, the room is deleted; the new host connection keeps its index entry
    for the deleted room (unless it is also filed as a peer of that room). *)
Theorem stale_host_entry_deletes_room (st : Registry) (live : Socket → bool)
    (old new : Socket) (c nm : string) (room : Room) (info : RoomInfo) :
  rooms st !! c = Some room →
  socketToRoom st !! id old = Some info →
  ri_code info = c → isHost info = true →
  id old ≠ id new →
  socketToRoom (state (rejoinRoom live new c true nm st)) !! id old = Some info
  ∧ socketToRoom (state (rejoinRoom live new c true nm st)) !! id new
    = Some (mkRoomInfo c true None)
  ∧ (∃ room', rooms (state (rejoinRoom live new c true nm st)) !! c = Some room'
       ∧ hostSocket room' = new ∧ hostId room' = id new
       ∧ code room' = code room ∧ createdAt room' = createdAt room
       ∧ pendingPeers room' = pendingPeers room
       ∧ approvedPeers room' = approvedPeers room)
  ∧ rooms (state (handleDisconnect old (state (rejoinRoom live new c true nm st)))) !! c
    = None
  ∧ (jm_has (id new) (pendingPeers room) = false →
     jm_has (id new) (approvedPeers room) = false →
     socketToRoom (state (handleDisconnect old (state (rejoinRoom live new c true nm st))))
       !! id new
     = Some (mkRoomInfo c true None))
  ∧ (∀ st' r', socketToRoom st' !! id old = Some info → rooms st' !! c = Some r' →
       rooms (state (handleDisconnect old st')) !! c = None).
Proof.
  intros Hr Hi <- Hh Hne.
  assert (∀ st' r', socketToRoom st' !! id old = Some info →
            rooms st' !! ri_code info = Some r' →
            rooms (state (handleDisconnect old st')) !! ri_code info = None) as Hgen.
  { intros st' r' Hi' Hr'.
    rewrite (handleDisconnect_host old st' info r' Hi' Hh Hr'). simpl.
    apply lookup_delete_eq. }
  assert (socketToRoom (state (rejoinRoom live new (ri_code info) true nm st)) !! id old
          = Some info) as Hold.
  { unfold rejoinRoom. rewrite Hr. simpl. by rewrite lookup_insert_ne. }
  assert (rooms (state (rejoinRoom live new (ri_code info) true nm st)) !! ri_code info
          = Some (with_host new room)) as Hroom.
  { unfold rejoinRoom. rewrite Hr. simpl. by rewrite lookup_insert_eq. }
  assert (socketToRoom (state (rejoinRoom live new (ri_code info) true nm st)) !! id new
          = Some (mkRoomInfo (ri_code info) true None)) as Hnew.
  { unfold rejoinRoom. rewrite Hr. simpl. by rewrite lookup_insert_eq. }
  split; [done|]. split; [done|].
  split; [by exists (with_host new room)|].
  split; [by apply (Hgen _ (with_host new room))|].
  split; [|done].
  intros Hp Ha.
  rewrite (handleDisconnect_host old _ info _ Hold Hh Hroom). simpl.
  rewrite lookup_delete_ne by done.
  by rewrite !notify_index, Hp, Ha.
Qed.

Lemma stale_host_entry_deletes_room_witness :
  rooms (state (handleDisconnect Scenarios.host_a
                  (state (rejoinRoom Scenarios.all_live Scenarios.host_b Scenarios.the_code
                            true "Host" (Scenarios.after Scenarios.admitted)))))
    !! Scenarios.the_code
  = None.
Proof.
  apply (stale_host_entry_deletes_room (Scenarios.after Scenarios.admitted)
           Scenarios.all_live Scenarios.host_a Scenarios.host_b Scenarios.the_code "Host"
           (mkRoom Scenarios.the_code Scenarios.host_a "host-a" []
              [("peer-p", mkPeer Scenarios.peer_p "Alice")] 0)
           (mkRoomInfo Scenarios.the_code true None)).
  - vm_compute. reflexivity.
  - vm_compute. reflexivity.
  - reflexivity.
  - reflexivity.
  - vm_compute. discriminate.
Defined.

(** *** Denial (C8) *)

(** A connection without an index entry has none after a call that does not
    enrol it. *)
Lemma apply_keeps_out P o st out :
  stays_out P o st → apply o st = Some out →
  socketToRoom st !! P = None → socketToRoom (state out) !! P = None.
Proof.
  destruct o as [draws now s|live s c0 nm|hs p a|f t pl|s|live s c0 h nm]; simpl;
    intros Hout Ha Hp.
  - unfold createRoom in Ha. destruct (generate_unused (rooms st) draws); [|done].
    injection Ha as <-. simpl. by rewrite lookup_insert_ne.
  - injection Ha as <-. unfold joinRoom. destruct (rooms st !! c0); [|done].
    simpl. by rewrite lookup_insert_ne.
  - injection Ha as <-. unfold approvePeer.
    destruct (socketToRoom st !! id hs) as [info|]; [|done].
    destruct (isHost info); simpl; [|done].
    destruct (rooms st !! ri_code info) as [room|]; [|done].
    destruct (jm_get p (pendingPeers room)) as [e|]; [|done].
    destruct a; simpl; [done|]. apply lookup_delete_None. by right.
  - injection Ha as <-. unfold signal.
    destruct (socketToRoom st !! id f) as [info|]; [|done].
    destruct (rooms st !! ri_code info) as [room|]; [|done].
    destruct (negb _ && negb _); [done|]. by destruct (find_target room t).
  - injection Ha as <-. unfold handleDisconnect.
    destruct (socketToRoom st !! id s) as [info|] eqn:Ei; [|done].
    destruct (rooms st !! ri_code info) as [room|] eqn:Er; [|done].
    destruct (isHost info) eqn:Eh.
    + pose proof (notify_index (approvedPeers room) (socketToRoom st) P) as H1.
      destruct (notify_host_gone (approvedPeers room) (socketToRoom st)) as [i1 e1].
      pose proof (notify_index (pendingPeers room) i1 P) as H2.
      destruct (notify_host_gone (pendingPeers room) i1) as [i2 e2]. simpl in *.
      apply lookup_delete_None. right. rewrite H2, H1, Hp.
      by destruct (jm_has P (pendingPeers room)), (jm_has P (approvedPeers room)).
    + simpl. apply lookup_delete_None. by right.
  - injection Ha as <-. unfold rejoinRoom. destruct (rooms st !! c0) as [room|] eqn:Er; [|done].
    destruct h; simpl; [by rewrite lookup_insert_ne|].
    unfold joinRoom. rewrite Er. simpl. by rewrite lookup_insert_ne.
Qed.

Lemma run_keeps_out P ops : ∀ st st',
  allowed_run (stays_out P) ops st → run ops st = Some st' →
  socketToRoom st !! P = None → socketToRoom st' !! P = None.
Proof.
  induction ops as [|o rest IH]; intros st st'; simpl.
  - by intros _ [= <-].
  - intros [Hg Hrest] Hrun Hp. destruct (apply o st) as [out|] eqn:E; [|done].
    apply (IH (state out)); [done | done |]. by apply (apply_keeps_out P o st).
Qed.

(** C8.  In a reachable registry, when the host denies a peer [P] of its
    room's [pendingPeers]: [P] leaves [pendingPeers], whose other entries
    stay, and [approvedPeers] is not touched; [peer:denied] is emitted to
    [P] (once, and it is the only emit), [P] loses its index entry and is
    taken off the room channel, and the call returns [{ success, denied }].
    From then on, after any calls among which [P] makes no [createRoom],
    [joinRoom] or [rejoinRoom], a [signal] that [P] sends is answered
    "Not in a room", emits nothing and changes nothing. *)
Theorem deny_removes_peer (st : Registry) (hs : Socket) (P : string)
    (info : RoomInfo) (room : Room) (entry : Peer) :
  reachable st →
  socketToRoom st !! id hs = Some info →
  isHost info = true →
  rooms st !! ri_code info = Some room →
  jm_get P (pendingPeers room) = Some entry →
  value (approvePeer hs P false st) = RDenied
  ∧ (∃ room', rooms (state (approvePeer hs P false st)) !! ri_code info = Some room'
              ∧ jm_has P (pendingPeers room') = false
              ∧ (∀ k, k ≠ P →
                   jm_get k (pendingPeers room') = jm_get k (pendingPeers room))
              ∧ approvedPeers room' = approvedPeers room)
  ∧ id (socket entry) = P
  ∧ effects (approvePeer hs P false st)
    = [Emit (socket entry) PeerDenied; LeaveChannel (socket entry) (ri_code info)]
  ∧ emit_count P PeerDenied (effects (approvePeer hs P false st)) = 1
  ∧ socketToRoom (state (approvePeer hs P false st)) !! P = None
  ∧ (∀ ops st' ps toId payload,
       allowed_run (stays_out P) ops (state (approvePeer hs P false st)) →
       run ops (state (approvePeer hs P false st)) = Some st' →
       id ps = P →
       value (signal ps toId payload st') = RError "Not in a room"
       ∧ effects (signal ps toId payload st') = []
       ∧ state (signal ps toId payload st') = st').
Proof.
  intros Hreach Hi Hh Hr Hp.
  destruct (reachable_wf _ _ Hreach _ room Hr) as (Hwf & _ & _).
  pose proof (peers_wf_get _ _ _ Hwf Hp) as Hid.
  assert (socketToRoom (state (approvePeer hs P false st)) !! P = None) as Hgone.
  { unfold approvePeer. rewrite Hi, Hh, Hr, Hp. cbn [negb state socketToRoom].
    rewrite Hid. apply lookup_delete_eq. }
  split; [|split; [|split; [|split; [|split; [|split]]]]].
  - unfold approvePeer. by rewrite Hi, Hh, Hr, Hp.
  - unfold approvePeer. rewrite Hi, Hh, Hr, Hp. cbn [negb state rooms].
    eexists. rewrite lookup_insert_eq. split; [done|].
    cbn [with_pending pendingPeers approvedPeers].
    split; [apply jm_has_delete_eq|]. split; [|done].
    intros k Hk. by apply jm_get_delete_ne.
  - done.
  - unfold approvePeer. by rewrite Hi, Hh, Hr, Hp.
  - unfold approvePeer. rewrite Hi, Hh, Hr, Hp. cbn [negb effects emit_count].
    by rewrite bool_decide_eq_true_2.
  - done.
  - intros ops st' ps toId payload Hok Hrun Hps.
    pose proof (run_keeps_out P ops _ st' Hok Hrun Hgone) as Hout.
    unfold signal. by rewrite Hps, Hout.
Qed.

Lemma deny_removes_peer_witness :
  value (signal Scenarios.peer_p "host-a" "offer" (Scenarios.after Scenarios.turned_away))
  = RError "Not in a room".
Proof.
  destruct (deny_removes_peer (Scenarios.after Scenarios.asked) Scenarios.host_a "peer-p"
              (mkRoomInfo Scenarios.the_code true None)
              (mkRoom Scenarios.the_code Scenarios.host_a "host-a"
                 [("peer-p", mkPeer Scenarios.peer_p "Alice")] [] 0)
              (mkPeer Scenarios.peer_p "Alice")) as (_ & _ & _ & _ & _ & _ & H).
  - eapply after_reachable. vm_compute. reflexivity.
  - vm_compute. reflexivity.
  - reflexivity.
  - vm_compute. reflexivity.
  - vm_compute. reflexivity.
  - apply (H Scenarios.moved_on (Scenarios.after Scenarios.turned_away)
             Scenarios.peer_p "host-a" "offer").
    + vm_compute. repeat split; discriminate.
    + vm_compute. reflexivity.
    + reflexivity.
Defined.

End RoomsFacts.

(** ** Session coordinator *)

Module ServerFacts.
Import Rooms Server RoomsFacts.

Local Open Scope Z_scope.

Lemma release_room_count ip (m : gmap string Z) :
  (1 <= default 0 (m !! ip) →
     default 0 (release_room ip m !! ip) = default 0 (m !! ip) - 1
     ∧ (default 0 (m !! ip) = 1 → release_room ip m !! ip = None))
  ∧ (default 0 (m !! ip) <= 0 → release_room ip m !! ip = None)
  ∧ (∀ ip', ip' ≠ ip → release_room ip m !! ip' = m !! ip').
Proof.
  unfold release_room, count_or_one.
  destruct (m !! ip) as [n|] eqn:E; simpl.
  - destruct (n =? 0) eqn:E0.
    + apply Z.eqb_eq in E0 as ->. simpl.
      split; [lia|]. split; [intros _; apply lookup_delete_eq|].
      intros ip' Hne. by apply lookup_delete_ne.
    + apply Z.eqb_neq in E0. destruct (n <=? 1) eqn:E1.
      * apply Z.leb_le in E1. split; [|split].
        -- intros Hn. rewrite lookup_delete_eq. simpl. split; [lia | done].
        -- intros _. apply lookup_delete_eq.
        -- intros ip' Hne. by apply lookup_delete_ne.
      * apply Z.leb_gt in E1. split; [|split].
        -- intros Hn. rewrite lookup_insert_eq. simpl. split; [done | lia].
        -- lia.
        -- intros ip' Hne. by apply lookup_insert_ne.
  - split; [lia|]. split; [intros _; apply lookup_delete_eq|].
    intros ip' Hne. by apply lookup_delete_ne.
Qed.

(** C3, as the code has it.  When a connection whose index entry says host
    of an existing room disconnects, in a reachable registry: the room's code
    is gone from [rooms]; the connection and every peer that was in
    [pendingPeers] or [approvedPeers] have lost their index entries; each
    connection has been sent [host:disconnected] once for each of the two
    maps it was in, so exactly once when it was in one of them only; and the
    room count of the connection's address, when it was at least one, is one
    less, the key being deleted when it reaches zero, while the other
    addresses keep theirs. *)
Theorem host_disconnect_destroys_room (srv : Server) (s : Socket)
    (info : RoomInfo) (room : Room) :
  reachable (registry srv) →
  socketToRoom (registry srv) !! id s = Some info →
  isHost info = true →
  rooms (registry srv) !! ri_code info = Some room →
  rooms (registry (server (onDisconnect s srv))) !! ri_code info = None
  ∧ socketToRoom (registry (server (onDisconnect s srv))) !! id s = None
  ∧ (∀ p, jm_has p (pendingPeers room) = true ∨ jm_has p (approvedPeers room) = true →
       socketToRoom (registry (server (onDisconnect s srv))) !! p = None)
  ∧ (∀ p, emit_count p HostDisconnected (sent (onDisconnect s srv))
          = ((if jm_has p (pendingPeers room) then 1 else 0)
             + (if jm_has p (approvedPeers room) then 1 else 0))%nat)
  ∧ (1 <= room_count (clientIp s) srv →
       room_count (clientIp s) (server (onDisconnect s srv))
       = room_count (clientIp s) srv - 1
       ∧ (room_count (clientIp s) srv = 1 →
            roomsPerIp (server (onDisconnect s srv)) !! clientIp s = None))
  ∧ (∀ ip', ip' ≠ clientIp s →
       roomsPerIp (server (onDisconnect s srv)) !! ip' = roomsPerIp srv !! ip').
Proof.
  intros Hreach Hi Hh Hr.
  destruct (reachable_wf _ _ Hreach _ room Hr) as (Hwp & Hwa & _).
  unfold onDisconnect, getRoomBySocket. rewrite Hi, Hh.
  cbn [with_roomsPerIp registry].
  rewrite (handleDisconnect_host s (registry srv) info room Hi Hh Hr).
  cbn [server sent value state effects with_registry registry roomsPerIp rooms socketToRoom].
  split; [apply lookup_delete_eq|]. split; [apply lookup_delete_eq|]. split; [|split].
  - intros p Hp. destruct (decide (id s = p)) as [<-|Hne]; [apply lookup_delete_eq|].
    rewrite lookup_delete_ne by done. rewrite !notify_index.
    destruct (jm_has p (pendingPeers room)); [done|].
    destruct (jm_has p (approvedPeers room)); [done|]. by destruct Hp.
  - intros p. rewrite emit_count_app, !notify_effects.
    rewrite (emit_count_peers _ _ _ _ Hwp), (emit_count_peers _ _ _ _ Hwa).
    rewrite bool_decide_eq_true_2 by done. rewrite !andb_true_r. lia.
  - unfold room_count. cbn [roomsPerIp].
    destruct (release_room_count (clientIp s) (roomsPerIp srv)) as (H1 & _ & H3). done.
Qed.

Lemma host_disconnect_destroys_room_witness :
  rooms (registry (server (onDisconnect Scenarios.host_a
                             (server (Scenarios.served Scenarios.req_admitted)))))
    !! Scenarios.the_code
  = None.
Proof.
  apply (host_disconnect_destroys_room (server (Scenarios.served Scenarios.req_admitted))
           Scenarios.host_a (mkRoomInfo Scenarios.the_code true None)
           (mkRoom Scenarios.the_code Scenarios.host_a "host-a" []
              [("peer-p", mkPeer Scenarios.peer_p "Alice")] 0)).
  - change (reachable (Scenarios.after Scenarios.admitted)).
    eapply after_reachable. vm_compute. reflexivity.
  - vm_compute. reflexivity.
  - reflexivity.
  - vm_compute. reflexivity.
Defined.

(** C3 as the specification states it fails twice.  A peer that was approved
    and then asked to join again is in both maps and is sent
    [host:disconnected] twice.  And a host that came back with [rejoinRoom]
    from another address has no room counted for that address: its
    disconnect deletes the room and decrements nothing. *)
Lemma host_disconnect_miscounts :
  (pendingPeers <$>
     rooms (registry (server (Scenarios.served Scenarios.req_asked_again)))
       !! Scenarios.the_code)
  = Some [("peer-p", mkPeer Scenarios.peer_p "Alice")]
  ∧ emit_count "peer-p" HostDisconnected
      (sent (onDisconnect Scenarios.host_a
               (server (Scenarios.served Scenarios.req_asked_again))))
    = 2%nat
  ∧ (hostId <$>
       rooms (registry (server (Scenarios.served Scenarios.req_host_back)))
         !! Scenarios.the_code)
    = Some "host-b"
  ∧ rooms (registry (server (onDisconnect Scenarios.host_b
                               (server (Scenarios.served Scenarios.req_host_back)))))
      !! Scenarios.the_code
    = None
  ∧ room_count "198.51.100.2" (server (Scenarios.served Scenarios.req_host_back)) = 0
  ∧ room_count "198.51.100.2"
      (server (onDisconnect Scenarios.host_b
                 (server (Scenarios.served Scenarios.req_host_back))))
    = 0
  ∧ room_count "198.51.100.1"
      (server (onDisconnect Scenarios.host_b
                 (server (Scenarios.served Scenarios.req_host_back))))
    = 1.
Proof. repeat split; vm_compute; reflexivity. Qed.

End ServerFacts.

(* ===================================================================== *)
(** * Further properties *)
(* ===================================================================== *)

(** ** Issued codes and their validation *)

Module CodesMore.
Import Codes CodesFacts.

Ltac each_bit c := destruct c as [[] [] [] [] [] [] [] []]; vm_compute; reflexivity.

(** What holds of every character of [CHARS]: the validator's class takes
    it, normalisation leaves it alone, lowercasing too, and it is no
    lookalike and no hyphen. *)
Lemma alphabet_char c :
  negb (in_alphabet c)
  || (Server.is_code_char c && settled c && Ascii.eqb (lower_char c) c
      && negb (is_lookalike c) && negb (is_hyphen c)) = true.
Proof. each_bit c. Qed.

Lemma alphabet_facts c :
  in_alphabet c = true →
  Server.is_code_char c = true ∧ settled c = true ∧ lower_char c = c
  ∧ is_lookalike c = false ∧ is_hyphen c = false.
Proof.
  intros H. pose proof (alphabet_char c) as A. rewrite H in A. simpl in A.
  repeat (apply andb_prop in A as [A ?]).
  repeat split; try done.
  - by apply Ascii.eqb_eq.
  - by apply negb_true_iff.
  - by apply negb_true_iff.
Qed.

Lemma char_at_alphabet i :
  i < String.length CHARS →
  ∃ c, char_at i = String c EmptyString ∧ in_alphabet c = true.
Proof.
  intros H.
  do 31 (destruct i as [|i]; [eexists; split; reflexivity|]).
  simpl in H. lia.
Qed.

(** An issued code is nine characters of the alphabet with hyphens after the
    third and the sixth. *)
Lemma generateCode_chars rand :
  in_range rand →
  ∃ a1 a2 a3 b1 b2 b3 c1 c2 c3,
    generateCode rand
    = String a1 (String a2 (String a3 (String "-"
        (String b1 (String b2 (String b3 (String "-"
          (String c1 (String c2 (String c3 EmptyString))))))))))
    ∧ Forall (λ c, in_alphabet c = true) [a1; a2; a3; b1; b2; b3; c1; c2; c3].
Proof.
  intros H. unfold generateCode, segment.
  destruct (char_at_alphabet _ (H 0)) as (a1 & -> & ?).
  destruct (char_at_alphabet _ (H (0 + 1))) as (a2 & -> & ?).
  destruct (char_at_alphabet _ (H (0 + 2))) as (a3 & -> & ?).
  destruct (char_at_alphabet _ (H 3)) as (b1 & -> & ?).
  destruct (char_at_alphabet _ (H (3 + 1))) as (b2 & -> & ?).
  destruct (char_at_alphabet _ (H (3 + 2))) as (b3 & -> & ?).
  destruct (char_at_alphabet _ (H 6)) as (c1 & -> & ?).
  destruct (char_at_alphabet _ (H (6 + 1))) as (c2 & -> & ?).
  destruct (char_at_alphabet _ (H (6 + 2))) as (c3 & -> & ?).
  exists a1, a2, a3, b1, b2, b3, c1, c2, c3. split; [reflexivity|].
  repeat (apply Forall_cons; split; [done|]). apply Forall_nil_2.
Qed.

Ltac issued rand H :=
  destruct (generateCode_chars rand H)
    as (a1 & a2 & a3 & b1 & b2 & b3 & c1 & c2 & c3 & E & F);
  repeat (apply Forall_cons in F as [?%alphabet_facts F]);
  destruct_and?.

Lemma issued_settled rand :
  in_range rand → all_chars settled (generateCode rand) = true.
Proof.
  intros H. issued rand H. rewrite E. simpl.
  repeat match goal with Hs : settled _ = true |- _ => rewrite Hs; clear Hs end.
  reflexivity.
Qed.

Lemma issued_fixed rand : in_range rand → normalizeCode (generateCode rand) = generateCode rand.
Proof.
  intros H. rewrite normalizeCode_pass. by apply pass_of_settled, issued_settled.
Qed.

Lemma issued_plain rand : in_range rand → has_lookalike (generateCode rand) = false.
Proof.
  intros H. issued rand H. rewrite E. unfold has_lookalike. simpl.
  repeat match goal with Hs : is_lookalike _ = false |- _ => rewrite Hs; clear Hs end.
  done.
Qed.

(** X1.  Whatever the random draws, the code [generateCode] issues has
    eleven characters, passes [validateCode], and contains none of the
    characters 0, 1, i, l, o. *)
Theorem issued_code_is_valid (rand : nat → nat) :
  in_range rand →
  String.length (generateCode rand) = 11
  ∧ Server.validateCode (generateCode rand) = true
  ∧ has_lookalike (generateCode rand) = false.
Proof.
  intros H. rewrite (issued_plain rand H).
  unfold Server.validateCode. rewrite (issued_fixed rand H).
  issued rand H. rewrite E. simpl.
  repeat match goal with Hs : Server.is_code_char _ = true |- _ => rewrite Hs; clear Hs end.
  done.
Qed.

Lemma in_order_in_range : in_range Scenarios.in_order.
Proof. intros n. apply Nat.mod_upper_bound. discriminate. Qed.

Lemma issued_code_is_valid_witness :
  String.length (generateCode Scenarios.in_order) = 11
  ∧ Server.validateCode (generateCode Scenarios.in_order) = true
  ∧ has_lookalike (generateCode Scenarios.in_order) = false.
Proof. apply (issued_code_is_valid Scenarios.in_order), in_order_in_range. Defined.

Lemma lower_char_twice c : lower_char (lower_char c) = lower_char c.
Proof. each_bit c. Qed.

Lemma normalizeCode_lower s : normalizeCode (toLowerCase s) = normalizeCode s.
Proof.
  unfold normalizeCode. f_equal. f_equal. f_equal. f_equal.
  unfold toLowerCase. rewrite smap_smap. apply smap_ext, lower_char_twice.
Qed.

(** X2.  An issued code comes back from [normalizeCode] as it is, and so
    does every spelling of it that differs in letter case only: the code a
    client types in any case is the key the room is filed under. *)
Theorem issued_code_round_trip (rand : nat → nat) (s : string) :
  in_range rand →
  toLowerCase s = generateCode rand →
  normalizeCode s = generateCode rand.
Proof.
  intros H E. rewrite <- normalizeCode_lower, E. by apply issued_fixed.
Qed.

Lemma issued_code_round_trip_witness :
  normalizeCode "ABC-dEf-GHJ" = generateCode Scenarios.in_order.
Proof.
  apply (issued_code_round_trip Scenarios.in_order "ABC-dEf-GHJ").
  - apply in_order_in_range.
  - reflexivity.
Defined.

Lemma lookalike_char c :
  negb (is_lookalike c)
  || (negb (is_space c)
      && (Ascii.eqb (norm_char c) "o" || Ascii.eqb (norm_char c) "l")) = true.
Proof. each_bit c. Qed.

Lemma lookalike_written b s :
  has_lookalike s = true →
  occurs "o" (normalize_pass b s) || occurs "l" (normalize_pass b s) = true.
Proof.
  unfold has_lookalike. revert b. induction s as [|c r IH]; intros b; simpl; [done|].
  pose proof (lookalike_char c) as L.
  destruct (is_lookalike c); simpl in *.
  - intros _. apply andb_prop in L as [Hs Hn]. apply negb_true_iff in Hs.
    rewrite Hs. simpl. fold (norm_char c).
    destruct (Ascii.eqb (norm_char c) "o"); [done|]. simpl in Hn. rewrite Hn.
    simpl. by rewrite orb_true_r.
  - intros H. destruct (is_space c); [destruct b|]; simpl.
    + by apply IH.
    + by apply IH.
    + specialize (IH false H). apply orb_prop in IH as [->| ->];
        by rewrite ?orb_true_r.
Qed.

(** X3.  The substitutions of [normalizeCode] never lead to an issued code:
    an input with a 0, 1, i, l or o in it, in either case, normalises to
    something no [generateCode] call returns. *)
Theorem lookalike_never_issued (rand : nat → nat) (s : string) :
  in_range rand →
  has_lookalike s = true →
  normalizeCode s ≠ generateCode rand.
Proof.
  intros H L E. rewrite normalizeCode_pass in E.
  pose proof (lookalike_written false s L) as W. rewrite E in W.
  pose proof (issued_plain rand H) as N.
  unfold has_lookalike in N. apply negb_false_iff in N.
  rewrite (occurs_excluded _ "o" _ eq_refl N) in W.
  rewrite (occurs_excluded _ "l" _ eq_refl N) in W. done.
Qed.

Lemma lookalike_never_issued_witness :
  normalizeCode "abc-def-gh1" ≠ generateCode Scenarios.in_order.
Proof.
  apply (lookalike_never_issued Scenarios.in_order "abc-def-gh1").
  - apply in_order_in_range.
  - reflexivity.
Defined.

Lemma shape_first t :
  Server.matches_code_shape t = true →
  ∃ c, first_char t = Some c ∧ Server.is_code_char c = true.
Proof.
  destruct t as [|a1 t]; simpl; [done|].
  do 10 (destruct t as [|? t]; [done|]). destruct t; [|done].
  intros H. repeat (apply andb_prop in H as [H ?]). by exists a1.
Qed.

Lemma shape_last t :
  Server.matches_code_shape t = true →
  ∃ c, last_char t = Some c ∧ Server.is_code_char c = true.
Proof.
  destruct t as [|a1 t]; simpl; [done|].
  do 10 (destruct t as [|? t]; [done|]). destruct t; [|done].
  intros H. repeat (apply andb_prop in H as [H ?]). eexists. split; [reflexivity | done].
Qed.

Lemma pass_last_space b s l :
  last_char s = Some l → is_space l = true →
  last_char (normalize_pass b s) = Some "-"%char
  ∨ (b = true ∧ normalize_pass b s = EmptyString).
Proof.
  revert b. induction s as [|c r IH]; intros b; simpl; [done|].
  destruct (last_char r) as [l'|] eqn:El.
  - intros [= ->] Hl.
    destruct (is_space c).
    + destruct (IH true eq_refl Hl) as [E|[_ E]]; destruct b; simpl; rewrite E; auto.
    + destruct (IH false eq_refl Hl) as [E|[? _]]; [|done]. simpl. rewrite E. auto.
  - intros [= ->] Hl. apply last_char_none in El as ->. rewrite Hl.
    destruct b; simpl; auto.
Qed.

(** X4.  [validateCode] refuses every input that begins or ends with white
    space: the white space has become a hyphen before [trim] runs, so a code
    pasted with a blank around it is not of the accepted shape. *)
Theorem padded_code_is_invalid (s : string) :
  padded s = true → Server.validateCode s = false.
Proof.
  unfold padded, Server.validateCode. rewrite normalizeCode_pass. intros H.
  destruct (Server.matches_code_shape (normalize_pass false s)) eqn:M; [|done].
  apply orb_prop in H as [H|H].
  - destruct s as [|c r]; simpl in H; [done|].
    apply shape_first in M as (c' & Hc & Hk). simpl in Hc. rewrite H in Hc.
    simpl in Hc. by injection Hc as <-.
  - destruct (last_char s) as [l|] eqn:El; simpl in H; [|done].
    apply shape_last in M as (c' & Hc & Hk).
    destruct (pass_last_space false s l El H) as [E|[? _]]; [|done].
    rewrite E in Hc. by injection Hc as <-.
Qed.

Lemma padded_code_is_invalid_witness : Server.validateCode "  abc-def-ghj  " = false.
Proof. apply (padded_code_is_invalid "  abc-def-ghj  "). reflexivity. Defined.

(** X5.  [validateCode] gives the same answer on an input and on its
    normal form, as the [joinRoom] method relies on when it validates the
    code it has already normalised. *)
Theorem validateCode_of_normalized (s : string) :
  Server.validateCode (normalizeCode s) = Server.validateCode s.
Proof.
  unfold Server.validateCode. f_equal.
  rewrite !normalizeCode_pass. apply pass_of_settled, pass_settled.
Qed.

End CodesMore.

(** ** More on the rate limiter *)

Module RateLimitMore.
Import RateLimit RateLimitFacts.

Local Open Scope Z_scope.
Local Open Scope list_scope.

Lemma open_window_exact calls : ∀ l key n deadline,
  requests l !! key = Some (mkBucket n deadline) →
  n <= maxRequests l →
  before_deadline key deadline calls →
  allowed_count key calls (run l calls).1
  = Z.min (call_count key calls) (maxRequests l - n).
Proof.
  induction calls as [|[k t] rest IH]; intros l key n deadline Hb Hn Hd.
  - simpl. lia.
  - rewrite run_cons. cbn [allowed_count call_count fst].
    assert (before_deadline key deadline rest) as Hd'.
    { intros t' Ht'. apply Hd. by apply elem_of_cons; right. }
    assert (0 <= call_count key rest) as Hpos.
    { clear. induction rest as [|[k' t'] r IHr]; simpl; [lia|].
      destruct (bool_decide (k' = key)); lia. }
    destruct (isAllowed_config t k l) as [_ HM].
    destruct (decide (k = key)) as [->|Hne].
    + rewrite bool_decide_eq_true_2 by done. cbn [andb].
      assert (t <= deadline) as Ht by (apply Hd; apply elem_of_cons; by left).
      unfold isAllowed in *. rewrite Hb in *. cbn [resetTime count] in *.
      destruct (deadline <? t) eqn:E; [apply Z.ltb_lt in E; lia|].
      destruct (maxRequests l <=? n) eqn:E2.
      * apply Z.leb_le in E2. cbn [fst snd] in *.
        specialize (IH l key n deadline Hb Hn Hd'). lia.
      * apply Z.leb_gt in E2. cbn [fst snd] in *.
        specialize (IH (with_requests l (<[key:=mkBucket (n + 1) deadline]> (requests l)))
                      key (n + 1) deadline).
        cbn [with_requests requests maxRequests] in IH.
        rewrite lookup_insert_eq in IH.
        specialize (IH eq_refl ltac:(lia) Hd'). lia.
    + rewrite bool_decide_eq_false_2 by done. cbn [andb].
      specialize (IH (isAllowed t k l).2 key n deadline).
      rewrite isAllowed_other_bucket in IH by done. rewrite HM in IH.
      specialize (IH Hb Hn Hd'). lia.
Qed.

Lemma window_exact (l : RateLimiter) (key : string) (now : Z) (calls : list Call) :
  1 <= maxRequests l →
  opens_window now (requests l !! key) = true →
  before_deadline key (now + windowMs l) calls →
  allowed_count key ((key, now) :: calls) (run l ((key, now) :: calls)).1
  = Z.min (1 + call_count key calls) (maxRequests l).
Proof.
  intros HM Hopen Hd.
  rewrite run_cons. cbn [allowed_count fst].
  rewrite bool_decide_eq_true_2 by done. cbn [andb].
  pose proof (open_window_exact calls
                (with_requests l (<[key:=mkBucket 1 (now + windowMs l)]> (requests l)))
                key 1 (now + windowMs l)) as B.
  cbn [with_requests requests maxRequests] in B. rewrite lookup_insert_eq in B.
  specialize (B eq_refl HM Hd).
  unfold isAllowed. unfold opens_window in Hopen.
  destruct (requests l !! key) as [b|]; [rewrite Hopen|]; cbn [fst snd]; lia.
Qed.

(** X6.  In a window the limiter allows exactly the first [maxRequests]
    calls for the key: from the call that opens the window up to its reset
    time, the number of allowed calls is the number of calls made or
    [maxRequests], whichever is smaller (for [maxRequests] of at least
    one). *)
Theorem window_allows_first_requests (l : RateLimiter) (key : string) (now : Z)
    (calls : list Call) :
  1 <= maxRequests l →
  opens_window now (requests l !! key) = true →
  before_deadline key (now + windowMs l) calls →
  allowed_count key ((key, now) :: calls) (run l ((key, now) :: calls)).1
  = Z.min (1 + call_count key calls) (maxRequests l).
Proof. apply window_exact. Qed.

Lemma window_allows_first_requests_witness :
  allowed_count "a" (("a", 0) :: Scenarios.mixed_calls)
    (run Scenarios.two_per_second (("a", 0) :: Scenarios.mixed_calls)).1
  = Z.min (1 + call_count "a" Scenarios.mixed_calls) 2.
Proof.
  apply (window_allows_first_requests Scenarios.two_per_second "a" 0 Scenarios.mixed_calls).
  - vm_compute. discriminate.
  - reflexivity.
  - intros t Ht. unfold Scenarios.mixed_calls in Ht.
    repeat (apply elem_of_cons in Ht as [Ht|Ht]; [inversion Ht; subst; vm_compute; discriminate|]).
    by apply elem_of_nil in Ht.
Defined.

(** X7.  [isAllowed] and [getRemainingRequests] agree: read at the same
    clock value, a call is allowed exactly when requests remain (for
    [maxRequests] of at least one). *)
Theorem allowed_iff_remaining (l : RateLimiter) (key : string) (now : Z) :
  1 <= maxRequests l →
  (isAllowed now key l).1 = (0 <? getRemainingRequests now key l).
Proof.
  intros HM. unfold isAllowed, getRemainingRequests.
  destruct (requests l !! key) as [b|]; simpl.
  - destruct (resetTime b <? now); simpl.
    + symmetry. apply Z.ltb_lt. lia.
    + destruct (maxRequests l <=? count b) eqn:E; simpl; symmetry.
      * apply Z.leb_le in E. apply Z.ltb_ge. lia.
      * apply Z.leb_gt in E. apply Z.ltb_lt. lia.
  - symmetry. apply Z.ltb_lt. lia.
Qed.

Lemma allowed_iff_remaining_witness :
  (isAllowed 5 "k" (run Scenarios.two_per_second [("k", 0); ("k", 1)]).2).1
  = (0 <? getRemainingRequests 5 "k" (run Scenarios.two_per_second [("k", 0); ("k", 1)]).2).
Proof.
  apply (allowed_iff_remaining (run Scenarios.two_per_second [("k", 0); ("k", 1)]).2 "k" 5).
  vm_compute. discriminate.
Defined.

(** X8.  An allowed call uses up exactly one of the remaining requests of
    its key, and a refused call leaves the limiter as it was (for
    [maxRequests] of at least one and a window that is not negative). *)
Theorem call_consumes_one (l : RateLimiter) (key : string) (now : Z) :
  1 <= maxRequests l →
  0 <= windowMs l →
  getRemainingRequests now key (isAllowed now key l).2
  = getRemainingRequests now key l - (if (isAllowed now key l).1 then 1 else 0)
  ∧ ((isAllowed now key l).1 = false → (isAllowed now key l).2 = l).
Proof.
  intros HM HW. unfold isAllowed, getRemainingRequests.
  destruct (requests l !! key) as [b|] eqn:Eb; simpl.
  - destruct (resetTime b <? now) eqn:Ex; simpl.
    + rewrite lookup_insert_eq. simpl.
      destruct (now + windowMs l <? now) eqn:E; [apply Z.ltb_lt in E; lia|].
      split; [lia | done].
    + destruct (maxRequests l <=? count b) eqn:E; simpl.
      * rewrite Eb, Ex. split; [lia | done].
      * rewrite lookup_insert_eq. simpl. rewrite Ex.
        apply Z.leb_gt in E. split; [lia | done].
  - rewrite lookup_insert_eq. simpl.
    destruct (now + windowMs l <? now) eqn:E; [apply Z.ltb_lt in E; lia|].
    split; [lia | done].
Qed.

Lemma call_consumes_one_witness :
  getRemainingRequests 7 "k" (isAllowed 7 "k" Scenarios.two_per_second).2
  = getRemainingRequests 7 "k" Scenarios.two_per_second
    - (if (isAllowed 7 "k" Scenarios.two_per_second).1 then 1 else 0).
Proof.
  apply (call_consumes_one Scenarios.two_per_second "k" 7); vm_compute; discriminate.
Defined.

Lemma cleanup_lookup t l k :
  requests (cleanup t l) !! k
  = match requests l !! k with
    | Some b => if resetTime b <? t then None else Some b
    | None => None
    end.
Proof.
  unfold cleanup. cbn [with_requests requests].
  destruct (requests l !! k) as [b|] eqn:E.
  - destruct (resetTime b <? t) eqn:Ex.
    + apply map_lookup_filter_None. right. intros b' Hb' Hp.
      rewrite E in Hb'. injection Hb' as <-. simpl in Hp. apply Z.ltb_lt in Ex. lia.
    + apply map_lookup_filter_Some. split; [done|]. simpl. apply Z.ltb_ge in Ex. lia.
  - apply map_lookup_filter_None. by left.
Qed.

(** X9.  [cleanup] is not seen by later calls: when the clock has not gone
    back since the cleanup, [isAllowed] gives the same answer and leaves the
    same bucket for the key, and [getRemainingRequests] the same number, as
    if no cleanup had run; and every bucket the cleanup leaves is one of the
    old buckets whose reset time has not passed. *)
Theorem cleanup_is_transparent (l : RateLimiter) (key : string) (t now : Z) :
  t <= now →
  (isAllowed now key (cleanup t l)).1 = (isAllowed now key l).1
  ∧ requests (isAllowed now key (cleanup t l)).2 !! key
    = requests (isAllowed now key l).2 !! key
  ∧ getRemainingRequests now key (cleanup t l) = getRemainingRequests now key l
  ∧ (∀ k b, requests (cleanup t l) !! k = Some b →
       requests l !! k = Some b ∧ t <= resetTime b).
Proof.
  intros Ht. split; [|split; [|split]].
  - unfold isAllowed. rewrite cleanup_lookup. cbn [cleanup with_requests maxRequests].
    destruct (requests l !! key) as [b|]; [|done].
    destruct (resetTime b <? t) eqn:Ex.
    + apply Z.ltb_lt in Ex. destruct (resetTime b <? now) eqn:En; [done|].
      apply Z.ltb_ge in En. lia.
    + destruct (resetTime b <? now); [done|].
      by destruct (maxRequests l <=? count b).
  - unfold isAllowed. rewrite cleanup_lookup.
    cbn [cleanup with_requests maxRequests windowMs].
    destruct (requests l !! key) as [b|] eqn:Eb.
    + destruct (resetTime b <? t) eqn:Ex.
      * apply Z.ltb_lt in Ex. destruct (resetTime b <? now) eqn:En.
        -- simpl. by rewrite !lookup_insert_eq.
        -- apply Z.ltb_ge in En. lia.
      * destruct (resetTime b <? now); simpl; [by rewrite !lookup_insert_eq|].
        destruct (maxRequests l <=? count b); cbn [snd].
        -- by rewrite cleanup_lookup, Eb, Ex.
        -- cbn [with_requests requests]. by rewrite !lookup_insert_eq.
    + simpl. by rewrite !lookup_insert_eq.
  - unfold getRemainingRequests. rewrite cleanup_lookup.
    cbn [cleanup with_requests maxRequests].
    destruct (requests l !! key) as [b|]; [|done].
    destruct (resetTime b <? t) eqn:Ex; [|done].
    apply Z.ltb_lt in Ex. destruct (resetTime b <? now) eqn:En; [done|].
    apply Z.ltb_ge in En. lia.
  - intros k b. rewrite cleanup_lookup.
    destruct (requests l !! k) as [b'|]; [|done].
    destruct (resetTime b' <? t) eqn:Ex; [done|].
    intros [= <-]. apply Z.ltb_ge in Ex. done.
Qed.

Lemma cleanup_is_transparent_witness :
  (isAllowed 2000 "k" (cleanup 1500 (run Scenarios.two_per_second Scenarios.burst).2)).1
  = (isAllowed 2000 "k" (run Scenarios.two_per_second Scenarios.burst).2).1.
Proof.
  apply (cleanup_is_transparent (run Scenarios.two_per_second Scenarios.burst).2 "k"
           1500 2000).
  vm_compute. discriminate.
Defined.

Lemma isAllowed_sound t k l pre :
  buckets_sound l pre → buckets_sound (isAllowed t k l).2 (pre ++ [(k, t)]).
Proof.
  intros Inv key b.
  destruct (isAllowed_config t k l) as [HW HM]. rewrite HW, HM.
  assert (∀ b', requests l !! key = Some b' →
            1 <= count b' <= Z.max 1 (maxRequests l)
            ∧ ∃ t0, (key, t0) ∈ pre ++ [(k, t)] ∧ resetTime b' = t0 + windowMs l) as Old.
  { intros b' Hb'. destruct (Inv key b' Hb') as (Hc & t0 & Ht0 & Hr).
    split; [done|]. exists t0. split; [|done]. apply elem_of_app. by left. }
  assert ((k, t) ∈ pre ++ [(k, t)]) as Hin.
  { apply elem_of_app. right. apply list_elem_of_singleton. done. }
  destruct (decide (k = key)) as [->|Hne].
  - unfold isAllowed. destruct (requests l !! key) as [b0|] eqn:E0.
    + destruct (resetTime b0 <? t).
      * cbn [snd with_requests requests]. rewrite lookup_insert_eq. intros [= <-]. simpl.
        split; [lia|]. by exists t.
      * destruct (maxRequests l <=? count b0) eqn:E.
        -- cbn [snd]. rewrite E0. apply Old.
        -- cbn [snd with_requests requests]. rewrite lookup_insert_eq. intros [= <-].
           simpl. apply Z.leb_gt in E. destruct (Old b0 eq_refl) as (Hc & Hrest).
           split; [lia | done].
    + cbn [snd with_requests requests]. rewrite lookup_insert_eq. intros [= <-]. simpl.
      split; [lia|]. by exists t.
  - rewrite isAllowed_other_bucket by done. apply Old.
Qed.

Lemma run_sound calls : ∀ l pre,
  buckets_sound l pre → buckets_sound (run l calls).2 (pre ++ calls).
Proof.
  induction calls as [|[k t] rest IH]; intros l pre Inv.
  - simpl. by rewrite app_nil_r.
  - rewrite run_cons. cbn [snd].
    rewrite cons_middle, app_assoc.
    apply IH. by apply isAllowed_sound.
Qed.

(** X10.  In every limiter that calls have brought from a new one, every
    bucket counts at least one and at most [maxRequests] requests (at most
    one when [maxRequests] is below one), and its reset time is one window
    after the time of one of the calls for its key. *)
Theorem buckets_stay_sound (optWindowMs optMaxRequests : option Z) (calls : list Call) :
  buckets_sound (run (new_limiter optWindowMs optMaxRequests) calls).2 calls.
Proof.
  apply (run_sound calls (new_limiter optWindowMs optMaxRequests) []).
  intros key b H. simpl in H. by rewrite lookup_empty in H.
Qed.

End RateLimitMore.

(** ** More on the room registry *)

Module RoomsMore.
Import Rooms RoomsFacts.

Lemma error_is_noop o st out message :
  apply o st = Some out →
  value out = RError message →
  state out = st ∧ effects out = [].
Proof.
  destruct o as [draws now s|live s c0 nm|hs p a|f t pl|s|live s c0 h nm]; simpl.
  - unfold createRoom. destruct (generate_unused (rooms st) draws); [|done].
    by intros [= <-].
  - intros [= <-]. unfold joinRoom. by destruct (rooms st !! c0).
  - intros [= <-]. unfold approvePeer.
    destruct (socketToRoom st !! id hs) as [info|]; [|done].
    destruct (isHost info); [|done]. simpl.
    destruct (rooms st !! ri_code info) as [room|]; [|done].
    destruct (jm_get p (pendingPeers room)); [|done]. by destruct a.
  - intros [= <-]. unfold signal.
    destruct (socketToRoom st !! id f) as [info|]; [|done].
    destruct (rooms st !! ri_code info) as [room|]; [|done].
    destruct (negb _ && negb _); [done|]. by destruct (find_target room t).
  - intros [= <-]. unfold handleDisconnect.
    destruct (socketToRoom st !! id s) as [info|]; [|done].
    destruct (rooms st !! ri_code info) as [room|]; [|done].
    destruct (isHost info); [|done].
    destruct (notify_host_gone (approvedPeers room) (socketToRoom st)) as [i1 e1].
    by destruct (notify_host_gone (pendingPeers room) i1).
  - intros [= <-]. unfold rejoinRoom, joinRoom.
    destruct (rooms st !! c0) as [room|]; [|done]. by destruct h.
Qed.

(** X11.  A call that answers with an error has done nothing: the registry
    is as it was and nothing has been emitted, joined or left. *)
Theorem error_leaves_registry (o : Op) (st : Registry) (out : Outcome) (message : string) :
  apply o st = Some out →
  value out = RError message →
  state out = st ∧ effects out = [].
Proof. apply error_is_noop. Qed.

Lemma error_leaves_registry_witness :
  state (joinRoom Scenarios.all_live Scenarios.peer_p Scenarios.other_code "Alice"
           (Scenarios.after Scenarios.opened))
  = Scenarios.after Scenarios.opened
  ∧ effects (joinRoom Scenarios.all_live Scenarios.peer_p Scenarios.other_code "Alice"
               (Scenarios.after Scenarios.opened))
    = [].
Proof.
  apply (error_leaves_registry
           (JoinRoom Scenarios.all_live Scenarios.peer_p Scenarios.other_code "Alice")
           (Scenarios.after Scenarios.opened) _ "Room not found").
  - reflexivity.
  - vm_compute. reflexivity.
Defined.

(** X12.  A room leaves [rooms] in one way only: [handleDisconnect] of a
    connection whose index entry says host of the room's code.  No other
    call, and no disconnect of a peer, removes a room. *)
Theorem room_removed_only_by_host_disconnect (o : Op) (st : Registry) (out : Outcome)
    (c : string) (room : Room) :
  apply o st = Some out →
  rooms st !! c = Some room →
  rooms (state out) !! c = None →
  ∃ s info, o = HandleDisconnect s
            ∧ socketToRoom st !! id s = Some info
            ∧ isHost info = true ∧ ri_code info = c.
Proof.
  intros Ha Hr Hn.
  destruct o as [draws now s|live s c0 nm|hs p a|f t pl|s|live s c0 h nm]; simpl in Ha.
  - unfold createRoom in Ha.
    destruct (generate_unused (rooms st) draws) as [c0|] eqn:G; [|done].
    injection Ha as <-. simpl in Hn. apply lookup_insert_None in Hn as [Hn _]. congruence.
  - injection Ha as <-. unfold joinRoom in Hn.
    destruct (rooms st !! c0) as [r0|] eqn:E; simpl in Hn; [|congruence].
    apply lookup_insert_None in Hn as [Hn _]. congruence.
  - injection Ha as <-. unfold approvePeer in Hn.
    destruct (socketToRoom st !! id hs) as [info|]; simpl in Hn; [|congruence].
    destruct (isHost info); simpl in Hn; [|congruence].
    destruct (rooms st !! ri_code info) as [r0|]; simpl in Hn; [|congruence].
    destruct (jm_get p (pendingPeers r0)); simpl in Hn; [|congruence].
    destruct a; simpl in Hn; apply lookup_insert_None in Hn as [Hn _]; congruence.
  - injection Ha as <-. unfold signal in Hn.
    destruct (socketToRoom st !! id f) as [info|]; simpl in Hn; [|congruence].
    destruct (rooms st !! ri_code info) as [r0|]; simpl in Hn; [|congruence].
    destruct (negb _ && negb _); simpl in Hn; [congruence|].
    destruct (find_target r0 t); simpl in Hn; congruence.
  - injection Ha as <-. unfold handleDisconnect in Hn.
    destruct (socketToRoom st !! id s) as [info|] eqn:Ei; simpl in Hn; [|congruence].
    destruct (rooms st !! ri_code info) as [r0|] eqn:E0; simpl in Hn; [|congruence].
    destruct (isHost info) eqn:Eh.
    + destruct (notify_host_gone (approvedPeers r0) (socketToRoom st)) as [i1 e1].
      destruct (notify_host_gone (pendingPeers r0) i1) as [i2 e2]. simpl in Hn.
      exists s, info. repeat split; try done.
      destruct (decide (ri_code info = c)) as [|Hne]; [done|].
      rewrite lookup_delete_ne in Hn by done. congruence.
    + simpl in Hn. apply lookup_insert_None in Hn as [Hn _]. congruence.
  - injection Ha as <-. unfold rejoinRoom, joinRoom in Hn.
    destruct (rooms st !! c0) as [r0|] eqn:E; simpl in Hn; [|congruence].
    destruct h; simpl in Hn; apply lookup_insert_None in Hn as [Hn _]; congruence.
Qed.

Lemma room_removed_only_by_host_disconnect_witness :
  ∃ s info, HandleDisconnect Scenarios.host_a = HandleDisconnect s
            ∧ socketToRoom (Scenarios.after Scenarios.admitted) !! id s = Some info
            ∧ isHost info = true ∧ ri_code info = Scenarios.the_code.
Proof.
  apply (room_removed_only_by_host_disconnect (HandleDisconnect Scenarios.host_a)
           (Scenarios.after Scenarios.admitted)
           (handleDisconnect Scenarios.host_a (Scenarios.after Scenarios.admitted))
           Scenarios.the_code
           (mkRoom Scenarios.the_code Scenarios.host_a "host-a" []
              [("peer-p", mkPeer Scenarios.peer_p "Alice")] 0)).
  - reflexivity.
  - vm_compute. reflexivity.
  - vm_compute. reflexivity.
Defined.

(** X13.  [createRoom] returns exactly when one of the drawn codes is unused;
    the code it returns is a drawn code that no room had, every room there
    was is left as it was, and the index changes at the caller's id only. *)
Theorem createRoom_adds_a_room (draws : list string) (now : Z) (s : Socket)
    (st : Registry) :
  (is_Some (createRoom draws now s st) ↔ ∃ c, c ∈ draws ∧ rooms st !! c = None)
  ∧ ∀ out, createRoom draws now s st = Some out →
      ∃ c, value out = RCode c ∧ c ∈ draws ∧ rooms st !! c = None
           ∧ rooms (state out) !! c = Some (mkRoom c s (id s) [] [] now)
           ∧ (∀ c' r, rooms st !! c' = Some r → rooms (state out) !! c' = Some r)
           ∧ (∀ k, k ≠ id s → socketToRoom (state out) !! k = socketToRoom st !! k).
Proof.
  split.
  - split.
    + intros [out H]. unfold createRoom in H.
      destruct (generate_unused (rooms st) draws) as [c|] eqn:G; [|done].
      apply generate_unused_fresh in G as [G1 G2]. by exists c.
    + intros (c & Hin & Hc). destruct (generate_unused_ends _ _ _ Hin Hc) as [c' G].
      unfold createRoom. rewrite G. by eexists.
  - intros out H. unfold createRoom in H.
    destruct (generate_unused (rooms st) draws) as [c|] eqn:G; [|done].
    apply generate_unused_fresh in G as [G1 G2]. injection H as <-. simpl.
    exists c. split; [done|]. split; [done|]. split; [done|].
    split; [apply lookup_insert_eq|]. split.
    + intros c' r Hr. rewrite lookup_insert_ne; [done | congruence].
    + intros k Hk. by rewrite lookup_insert_ne.
Qed.

Lemma handleDisconnect_unknown s st :
  socketToRoom st !! id s = None → handleDisconnect s st = mkOutcome RVoid st [].
Proof. intros H. unfold handleDisconnect. by rewrite H. Qed.

(** X14.  [handleDisconnect] is idempotent: a second call for the same
    connection changes nothing and emits nothing. *)
Theorem handleDisconnect_twice (s : Socket) (st : Registry) :
  state (handleDisconnect s (state (handleDisconnect s st)))
  = state (handleDisconnect s st)
  ∧ effects (handleDisconnect s (state (handleDisconnect s st))) = [].
Proof.
  destruct (socketToRoom st !! id s) as [info|] eqn:Ei.
  - destruct (rooms st !! ri_code info) as [room|] eqn:Er.
    + assert (socketToRoom (state (handleDisconnect s st)) !! id s = None) as Hgone.
      { destruct (isHost info) eqn:Eh.
        - rewrite (handleDisconnect_host s st info room Ei Eh Er). simpl.
          apply lookup_delete_eq.
        - unfold handleDisconnect. rewrite Ei, Er, Eh. simpl. apply lookup_delete_eq. }
      by rewrite (handleDisconnect_unknown s _ Hgone).
    + assert (handleDisconnect s st = mkOutcome RVoid st []) as ->
        by (unfold handleDisconnect; by rewrite Ei, Er).
      simpl. unfold handleDisconnect. by rewrite Ei, Er.
  - rewrite (handleDisconnect_unknown s st Ei). simpl.
    by rewrite (handleDisconnect_unknown s st Ei).
Qed.

(** X15.  When a connection whose index entry says peer of an existing room
    disconnects, the room stays: the connection is taken out of
    [pendingPeers] and [approvedPeers], all other entries and the host are
    as they were, the host is sent one [peer:disconnected] with the
    connection's id, the connection's index entry is removed, and no other
    room or index entry changes. *)
Theorem peer_disconnect_keeps_room (s : Socket) (st : Registry) (info : RoomInfo)
    (room : Room) :
  socketToRoom st !! id s = Some info →
  isHost info = false →
  rooms st !! ri_code info = Some room →
  effects (handleDisconnect s st) = [Emit (hostSocket room) (PeerDisconnected (id s))]
  ∧ (∃ room', rooms (state (handleDisconnect s st)) !! ri_code info = Some room'
              ∧ jm_has (id s) (pendingPeers room') = false
              ∧ jm_has (id s) (approvedPeers room') = false
              ∧ (∀ k, k ≠ id s →
                   jm_get k (pendingPeers room') = jm_get k (pendingPeers room)
                   ∧ jm_get k (approvedPeers room') = jm_get k (approvedPeers room))
              ∧ hostSocket room' = hostSocket room ∧ hostId room' = hostId room)
  ∧ socketToRoom (state (handleDisconnect s st)) !! id s = None
  ∧ (∀ k, k ≠ id s →
       socketToRoom (state (handleDisconnect s st)) !! k = socketToRoom st !! k)
  ∧ (∀ c, c ≠ ri_code info → rooms (state (handleDisconnect s st)) !! c = rooms st !! c).
Proof.
  intros Hi Hh Hr. unfold handleDisconnect. rewrite Hi, Hr, Hh. simpl.
  split; [done|]. split.
  { eexists. rewrite lookup_insert_eq. split; [done|]. simpl.
    split; [apply jm_has_delete_eq|]. split; [apply jm_has_delete_eq|].
    split; [|done]. intros k Hk. by rewrite !jm_get_delete_ne. }
  split; [apply lookup_delete_eq|]. split.
  - intros k Hk. by rewrite lookup_delete_ne.
  - intros c Hc. by rewrite lookup_insert_ne.
Qed.

Lemma peer_disconnect_keeps_room_witness :
  effects (handleDisconnect Scenarios.peer_p (Scenarios.after Scenarios.admitted))
  = [Emit Scenarios.host_a (PeerDisconnected "peer-p")].
Proof.
  apply (peer_disconnect_keeps_room Scenarios.peer_p (Scenarios.after Scenarios.admitted)
           (mkRoomInfo Scenarios.the_code false (Some "peer-p"))
           (mkRoom Scenarios.the_code Scenarios.host_a "host-a" []
              [("peer-p", mkPeer Scenarios.peer_p "Alice")] 0)).
  - vm_compute. reflexivity.
  - reflexivity.
  - vm_compute. reflexivity.
Defined.

(** X16.  When the host approves a pending peer, the peer's entry moves from
    [pendingPeers] to [approvedPeers] unchanged, the other entries and the
    index stay, the peer is sent [peer:approved] with the room's host id,
    and the decision cannot be taken again: a second [approvePeer] for the
    peer, whichever way, answers "Peer not found in pending". *)
Theorem approval_moves_peer (hs : Socket) (p : string) (st : Registry)
    (info : RoomInfo) (room : Room) (entry : Peer) :
  socketToRoom st !! id hs = Some info →
  isHost info = true →
  rooms st !! ri_code info = Some room →
  jm_get p (pendingPeers room) = Some entry →
  value (approvePeer hs p true st) = RSuccess
  ∧ effects (approvePeer hs p true st) = [Emit (socket entry) (PeerApproved (hostId room))]
  ∧ (∃ room', rooms (state (approvePeer hs p true st)) !! ri_code info = Some room'
              ∧ jm_get p (approvedPeers room') = Some entry
              ∧ jm_has p (pendingPeers room') = false
              ∧ (∀ k, k ≠ p →
                   jm_get k (pendingPeers room') = jm_get k (pendingPeers room)
                   ∧ jm_get k (approvedPeers room') = jm_get k (approvedPeers room)))
  ∧ socketToRoom (state (approvePeer hs p true st)) = socketToRoom st
  ∧ (∀ again, value (approvePeer hs p again (state (approvePeer hs p true st)))
              = RError "Peer not found in pending").
Proof.
  intros Hi Hh Hr Hp. unfold approvePeer at 1 2 3 4. rewrite Hi, Hh, Hr, Hp. simpl.
  split; [done|]. split; [done|]. split.
  { eexists. rewrite lookup_insert_eq. split; [done|]. simpl.
    split; [apply jm_get_set_eq|]. split; [apply jm_has_delete_eq|].
    intros k Hk. by rewrite jm_get_delete_ne, jm_get_set_ne. }
  split; [done|].
  intros again. unfold approvePeer. rewrite Hi, Hh, Hr, Hp. simpl.
  rewrite Hi, Hh. simpl. rewrite lookup_insert_eq. simpl.
  by rewrite jm_get_delete_eq.
Qed.

Lemma approval_moves_peer_witness :
  value (approvePeer Scenarios.host_a "peer-p" true (Scenarios.after Scenarios.asked))
  = RSuccess.
Proof.
  apply (approval_moves_peer Scenarios.host_a "peer-p" (Scenarios.after Scenarios.asked)
           (mkRoomInfo Scenarios.the_code true None)
           (mkRoom Scenarios.the_code Scenarios.host_a "host-a"
              [("peer-p", mkPeer Scenarios.peer_p "Alice")] [] 0)
           (mkPeer Scenarios.peer_p "Alice")).
  - vm_compute. reflexivity.
  - reflexivity.
  - vm_compute. reflexivity.
  - vm_compute. reflexivity.
Defined.

Lemma jm_set_set {V} k (v v' : V) m : jm_set k v (jm_set k v' m) = jm_set k v m.
Proof.
  induction m as [|[k0 v0] r IH]; simpl.
  - by rewrite decide_True.
  - destruct (decide (k0 = k)) as [->|Hne]; simpl.
    + by rewrite decide_True.
    + rewrite decide_False by done. by rewrite IH.
Qed.

Lemma jm_set_size {V} k (v : V) m :
  jm_size (jm_set k v m) = (jm_size m + if jm_has k m then 0 else 1)%Z.
Proof.
  unfold jm_size, jm_has. induction m as [|[k0 v0] r IH]; simpl; [done|].
  destruct (decide (k0 = k)) as [->|Hne]; simpl; [lia|].
  destruct (jm_get k r); simpl in *; lia.
Qed.

(** X17.  A later join request of a connection replaces its earlier one for
    the same room: the registry after both is the registry after the later
    one alone, so the connection has one pending entry, with the later
    name, and the pending list has not grown. *)
Theorem join_again_replaces (live1 live2 : Socket → bool) (s : Socket)
    (c nm1 nm2 : string) (st : Registry) (room : Room) :
  rooms st !! c = Some room →
  state (joinRoom live2 s c nm2 (state (joinRoom live1 s c nm1 st)))
  = state (joinRoom live2 s c nm2 st)
  ∧ ∃ room1 room2,
      rooms (state (joinRoom live1 s c nm1 st)) !! c = Some room1
      ∧ rooms (state (joinRoom live2 s c nm2 (state (joinRoom live1 s c nm1 st)))) !! c
        = Some room2
      ∧ jm_size (pendingPeers room2) = jm_size (pendingPeers room1)
      ∧ jm_get (id s) (pendingPeers room2) = Some (mkPeer s nm2).
Proof.
  intros Hr. unfold joinRoom. rewrite Hr. simpl. rewrite lookup_insert_eq. simpl.
  unfold with_pending. simpl. rewrite jm_set_set, !insert_insert_eq.
  split; [done|]. eexists _, _. rewrite !lookup_insert_eq.
  split; [done|]. split; [done|]. simpl.
  split; [|apply jm_get_set_eq].
  rewrite <- (jm_set_set (id s) (mkPeer s nm2) (mkPeer s nm1) (pendingPeers room)).
  rewrite (jm_set_size (id s) (mkPeer s nm2)), jm_has_set_eq. lia.
Qed.

Lemma join_again_replaces_witness :
  state (joinRoom Scenarios.all_live Scenarios.peer_p Scenarios.the_code "Al"
           (state (joinRoom Scenarios.all_live Scenarios.peer_p Scenarios.the_code "Alice"
                     (Scenarios.after Scenarios.opened))))
  = state (joinRoom Scenarios.all_live Scenarios.peer_p Scenarios.the_code "Al"
             (Scenarios.after Scenarios.opened)).
Proof.
  apply (join_again_replaces Scenarios.all_live Scenarios.all_live Scenarios.peer_p
           Scenarios.the_code "Alice" "Al" (Scenarios.after Scenarios.opened)
           (mkRoom Scenarios.the_code Scenarios.host_a "host-a" [] [] 0)).
  vm_compute. reflexivity.
Defined.

(** X18.  Joining, being approved and signalling compose: after a connection
    has joined a room and a connection indexed as that room's host has
    approved it, a signal from the new peer to the room's host id is
    delivered to the host socket, and, when the approver is the room's
    current host, a signal from it to the peer is delivered to the peer. *)
Theorem approved_peer_can_signal (live : Socket → bool) (hs s : Socket)
    (c nm : string) (payload : Payload) (st : Registry) (info : RoomInfo) (room : Room) :
  rooms st !! c = Some room →
  socketToRoom st !! id hs = Some info →
  ri_code info = c → isHost info = true →
  id hs ≠ id s →
  value (approvePeer hs (id s) true (state (joinRoom live s c nm st))) = RSuccess
  ∧ effects (signal s (hostId room) payload
               (state (approvePeer hs (id s) true (state (joinRoom live s c nm st)))))
    = [Emit (hostSocket room) (SignalEvent (id s) payload)]
  ∧ (hostId room = id hs →
     effects (signal hs (id s) payload
                (state (approvePeer hs (id s) true (state (joinRoom live s c nm st)))))
     = [Emit s (SignalEvent (id hs) payload)]).
Proof.
  intros Hr Hi <- Hh Hne.
  assert (socketToRoom (state (joinRoom live s (ri_code info) nm st)) !! id hs = Some info)
    as Hi1.
  { unfold joinRoom. rewrite Hr. simpl. by rewrite lookup_insert_ne. }
  assert (rooms (state (joinRoom live s (ri_code info) nm st)) !! ri_code info
          = Some (with_pending (jm_set (id s) (mkPeer s nm) (pendingPeers room)) room))
    as Hr1.
  { unfold joinRoom. rewrite Hr. simpl. by rewrite lookup_insert_eq. }
  assert (socketToRoom (state (joinRoom live s (ri_code info) nm st)) !! id s
          = Some (mkRoomInfo (ri_code info) false (Some (id s)))) as Hs1.
  { unfold joinRoom. rewrite Hr. simpl. by rewrite lookup_insert_eq. }
  unfold approvePeer. rewrite Hi1, Hh, Hr1. cbn [negb pendingPeers with_pending].
  rewrite jm_get_set_eq. cbn [value state].
  split; [done|]. unfold signal. cbn [socketToRoom rooms].
  rewrite Hs1, Hi1. cbn [ri_code]. rewrite lookup_insert_eq.
  cbn [hostId with_approved with_pending approvedPeers hostSocket].
  rewrite jm_has_set_eq. split.
  - rewrite andb_false_r. unfold find_target. cbn [hostId hostSocket with_approved].
    by rewrite decide_True.
  - intros Hhost. rewrite (bool_decide_eq_true_2 _ Hhost). cbn [negb andb].
    unfold find_target. cbn [hostId approvedPeers with_approved].
    rewrite decide_False by (simpl; congruence). simpl. by rewrite jm_get_set_eq.
Qed.

Lemma approved_peer_can_signal_witness :
  value (approvePeer Scenarios.host_a (id Scenarios.peer_p) true
           (state (joinRoom Scenarios.all_live Scenarios.peer_p Scenarios.the_code "Alice"
                     (Scenarios.after Scenarios.opened))))
  = RSuccess.
Proof.
  apply (approved_peer_can_signal Scenarios.all_live Scenarios.host_a Scenarios.peer_p
           Scenarios.the_code "Alice" "sdp" (Scenarios.after Scenarios.opened)
           (mkRoomInfo Scenarios.the_code true None)
           (mkRoom Scenarios.the_code Scenarios.host_a "host-a" [] [] 0)).
  - vm_compute. reflexivity.
  - vm_compute. reflexivity.
  - reflexivity.
  - reflexivity.
  - vm_compute. discriminate.
Defined.

(** *** Invariants of the reachable registries *)

Lemma room_invariant_at (guard : Op → Registry → Prop) (P : string → Room → Prop) :
  (∀ o c r', room_born o c r' → P c r') →
  (∀ o st c r r', guard o st → rooms st !! c = Some r → P c r →
                  room_change o c r r' → P c r') →
  ∀ st, reachable_by guard st → ∀ c r, rooms st !! c = Some r → P c r.
Proof.
  intros Hborn Hchange st Hreach.
  induction Hreach as [|o st out Hreach IH Hg Ha]; intros c r Hr.
  - simpl in Hr. by rewrite lookup_empty in Hr.
  - destruct (apply_rooms _ _ _ _ _ Ha Hr) as [H|[[_ H]|(r0 & H0 & H)]].
    + by apply IH.
    + by apply (Hborn o).
    + apply (Hchange o st c r0 r Hg H0); [by apply IH | done].
Qed.

Lemma room_change_code o c r r' : room_change o c r r' → code r' = code r.
Proof.
  destruct o as [draws now s|live s c0 nm|hs p a|f t pl|s|live s c0 h nm]; simpl; try done.
  - by intros [_ ->].
  - destruct a; [by intros (e & _ & ->) | by intros ->].
  - by intros ->.
  - destruct h; by intros [_ ->].
Qed.

(** An index entry after a call is an old entry or the entry the call has
    just written for its caller. *)
Lemma apply_index o st out k info :
  apply o st = Some out →
  socketToRoom (state out) !! k = Some info →
  socketToRoom st !! k = Some info
  ∨ ∃ s c, k = id s
           ∧ (info = mkRoomInfo c true None ∨ info = mkRoomInfo c false (Some (id s))).
Proof.
  destruct o as [draws now s|live s c0 nm|hs p a|f t pl|s|live s c0 h nm]; simpl.
  - unfold createRoom. destruct (generate_unused (rooms st) draws) as [c0|]; [|done].
    intros [= <-]. simpl. intros H.
    apply lookup_insert_Some in H as [[<- <-]|[? H]]; [|by left].
    right. exists s, c0. by split; [|left].
  - intros [= <-]. unfold joinRoom. destruct (rooms st !! c0); simpl; [|by left].
    intros H. apply lookup_insert_Some in H as [[<- <-]|[? H]]; [|by left].
    right. exists s, c0. by split; [|right].
  - intros [= <-]. unfold approvePeer.
    destruct (socketToRoom st !! id hs) as [i0|]; simpl; [|by left].
    destruct (isHost i0); simpl; [|by left].
    destruct (rooms st !! ri_code i0) as [r0|]; simpl; [|by left].
    destruct (jm_get p (pendingPeers r0)) as [e|]; simpl; [|by left].
    destruct a; simpl; [by left|].
    intros H. apply lookup_delete_Some in H as [_ H]. by left.
  - intros [= <-]. unfold signal.
    destruct (socketToRoom st !! id f) as [i0|]; simpl; [|by left].
    destruct (rooms st !! ri_code i0) as [r0|]; simpl; [|by left].
    destruct (negb _ && negb _); simpl; [by left|].
    destruct (find_target r0 t); simpl; by left.
  - intros [= <-].
    destruct (socketToRoom st !! id s) as [i0|] eqn:Ei;
      [|rewrite (RoomsMore.handleDisconnect_unknown s st Ei); by left].
    destruct (rooms st !! ri_code i0) as [r0|] eqn:Er;
      [|unfold handleDisconnect; rewrite Ei, Er; by left].
    destruct (isHost i0) eqn:Eh.
    + rewrite (handleDisconnect_host s st i0 r0 Ei Eh Er). simpl. intros H.
      apply lookup_delete_Some in H as [_ H]. rewrite !notify_index in H.
      destruct (jm_has k (pendingPeers r0)); [done|].
      destruct (jm_has k (approvedPeers r0)); [done|]. by left.
    + unfold handleDisconnect. rewrite Ei, Er, Eh. simpl. intros H.
      apply lookup_delete_Some in H as [_ H]. by left.
  - intros [= <-]. unfold rejoinRoom, joinRoom.
    destruct (rooms st !! c0); simpl; [|by left].
    destruct h; simpl; intros H;
      (apply lookup_insert_Some in H as [[<- <-]|[? H]]; [|by left]);
      right; exists s, c0; by split; [|auto].
Qed.

(** X19.  In every registry that calls can reach from the empty one, each
    room is filed under its own [code], its [hostId] is the id of its
    [hostSocket], each entry of [pendingPeers] and [approvedPeers] is filed
    under the id of its own socket with no key held twice, and each index
    entry is filed under the id it was written for: a host entry has no
    [peerId], a peer entry has its own key as [peerId]. *)
Theorem reachable_registry_is_well_formed (st : Registry) :
  reachable st →
  registry_wf st ∧ rooms_filed st ∧ index_wf st.
Proof.
  intros H. split; [by apply (reachable_wf any_call)|]. split.
  - unfold rooms_filed.
    apply (room_invariant_at any_call (λ c r, code r = c)); [| |done].
    + intros o c r'. destruct o; simpl; try done. by intros ->.
    + intros o st' c r r' _ _ Hc Hch. by rewrite (room_change_code _ _ _ _ Hch).
  - unfold index_wf. induction H as [|o st out Hreach IH _ Ha]; intros k info Hk.
    + simpl in Hk. by rewrite lookup_empty in Hk.
    + destruct (apply_index _ _ _ _ _ Ha Hk) as [Hold|(s & c & -> & [-> | ->])];
        [by apply IH | done | done].
Qed.

Lemma reachable_registry_is_well_formed_witness :
  registry_wf (Scenarios.after Scenarios.host_back)
  ∧ rooms_filed (Scenarios.after Scenarios.host_back)
  ∧ index_wf (Scenarios.after Scenarios.host_back).
Proof.
  apply (reachable_registry_is_well_formed (Scenarios.after Scenarios.host_back)).
  eapply after_reachable. vm_compute. reflexivity.
Defined.

(** *** One enrolment at a time *)

(** A room stays indexed when the index keeps every entry for its code. *)
Lemma room_indexed_frame (index index' : gmap string RoomInfo) c r :
  room_indexed index c r →
  (∀ k info, index !! k = Some info → ri_code info = c → index' !! k = Some info) →
  room_indexed index' c r.
Proof.
  intros [(hi & Hh & Hc & Hhost) Hpeers] Hkeep. split.
  - exists hi. split; [by apply Hkeep | done].
  - intros k Hk. destruct (Hpeers k Hk) as (info & Hi & Hci & Hp).
    exists info. split; [by apply Hkeep | done].
Qed.

(** A connection without index entry is a member of no room. *)
Lemma fresh_not_member st c r k :
  members_indexed st → rooms st !! c = Some r → socketToRoom st !! k = None →
  hostId r ≠ k ∧ jm_has k (pendingPeers r) = false ∧ jm_has k (approvedPeers r) = false.
Proof.
  intros Inv Hr Hk. destruct (Inv c r Hr) as [(hi & Hh & _) Hpeers].
  split; [congruence|].
  split.
  - destruct (jm_has k (pendingPeers r)) eqn:E; [|done].
    destruct (Hpeers k (or_introl E)) as (info & Hi & _). congruence.
  - destruct (jm_has k (approvedPeers r)) eqn:E; [|done].
    destruct (Hpeers k (or_intror E)) as (info & Hi & _). congruence.
Qed.

Lemma fresh_no_double o st :
  members_indexed st → fresh_caller o st → no_double_enrol o st.
Proof.
  intros Inv Hg.
  destruct o as [draws now s|live s c0 nm|hs p a|f t pl|s|live s c0 h nm]; simpl in *;
    try done.
  - intros r Hr. destruct (fresh_not_member st c0 r (id s) Inv Hr Hg) as (? & ? & ?). done.
  - destruct h; intros r Hr;
      destruct (fresh_not_member st c0 r (id s) Inv Hr Hg) as (? & ? & ?); done.
Qed.

Lemma step_disjoint o st out :
  all_disjoint st → no_double_enrol o st → apply o st = Some out →
  all_disjoint (state out).
Proof.
  intros Hd Hg Ha c r Hr.
  destruct (apply_rooms _ _ _ _ _ Ha Hr) as [H|[[_ H]|(r0 & H0 & H)]].
  - by apply (Hd c).
  - destruct o; simpl in H; try done. subst r.
    repeat split; simpl; try done. by intros k [? _].
  - apply (room_change_disjoint o st c r0 r Hg H0); [by apply (Hd c) | done].
Qed.

Lemma step_indexed o st out :
  registry_wf st → all_disjoint st → members_indexed st →
  fresh_caller o st → apply o st = Some out →
  members_indexed (state out).
Proof.
  intros Hwf Hdis Inv Hg Ha.
  assert (∀ c r k, rooms st !! c = Some r →
            jm_has k (pendingPeers r) = true ∨ jm_has k (approvedPeers r) = true →
            ∃ info, socketToRoom st !! k = Some info ∧ ri_code info = c) as Hmem.
  { intros c r k Hr Hk. destruct (Inv c r Hr) as [_ Hp].
    destruct (Hp k Hk) as (info & ? & ? & _). by exists info. }
  destruct o as [draws now s|live s c0 nm|hs p a|f t pl|s|live s c0 h nm]; simpl in *.
  - (* createRoom *)
    unfold createRoom in Ha.
    destruct (generate_unused (rooms st) draws) as [c0|] eqn:G; [|done].
    apply generate_unused_fresh in G as [G _]. injection Ha as <-.
    intros c r'. simpl. intros Hr'.
    apply lookup_insert_Some in Hr' as [[<- <-]|[Hne Hr']].
    + split; simpl.
      * eexists. by rewrite lookup_insert_eq.
      * intros k [Hk|Hk]; done.
    + apply (room_indexed_frame (socketToRoom st)); [by apply Inv|].
      intros k info Hk _. rewrite lookup_insert_ne; [done | congruence].
  - (* joinRoom *)
    injection Ha as <-. unfold joinRoom.
    destruct (rooms st !! c0) as [r0|] eqn:E0; [|done].
    intros c r'. simpl. intros Hr'.
    apply lookup_insert_Some in Hr' as [[<- <-]|[Hne Hr']].
    + destruct (Inv c0 r0 E0) as [(hi & Hh & Hc & Hhost) Hpeers].
      destruct (fresh_not_member st c0 r0 (id s) Inv E0 Hg) as (Hns & _ & _).
      split; simpl.
      * exists hi. by rewrite lookup_insert_ne.
      * intros k Hk. destruct (decide (id s = k)) as [<-|Hnk].
        -- eexists. by rewrite lookup_insert_eq.
        -- rewrite jm_has_set_ne in Hk by done. rewrite lookup_insert_ne by done.
           by apply Hpeers.
    + apply (room_indexed_frame (socketToRoom st)); [by apply Inv|].
      intros k info Hk _. rewrite lookup_insert_ne; [done | congruence].
  - (* approvePeer *)
    injection Ha as <-. unfold approvePeer.
    destruct (socketToRoom st !! id hs) as [i0|] eqn:Ei; [|done].
    destruct (isHost i0); [|done]. simpl.
    destruct (rooms st !! ri_code i0) as [r0|] eqn:E0; [|done].
    destruct (jm_get p (pendingPeers r0)) as [e|] eqn:Ep; [|done].
    assert (jm_has p (pendingPeers r0) = true) as Hp by (unfold jm_has; by rewrite Ep).
    destruct (Inv _ r0 E0) as [(hi & Hh & Hc & Hhost) Hpeers].
    destruct (Hdis _ r0 E0) as (Hd & Hhp & Hha).
    destruct a; intros c r'; simpl; intros Hr'.
    + apply lookup_insert_Some in Hr' as [[<- <-]|[Hne Hr']]; [|by apply Inv].
      split; simpl; [by exists hi|].
      intros k [Hk|Hk].
      * apply jm_has_delete_true in Hk. apply Hpeers. by left.
      * destruct (decide (p = k)) as [<-|Hnk]; [apply Hpeers; by left|].
        rewrite jm_has_set_ne in Hk by done. apply Hpeers. by right.
    + destruct (Hwf _ r0 E0) as (Hwp & _ & _).
      rewrite (peers_wf_get _ _ _ Hwp Ep).
      apply lookup_insert_Some in Hr' as [[<- <-]|[Hne Hr']].
      * split; simpl.
        -- exists hi. rewrite lookup_delete_ne; [done | congruence].
        -- intros k Hk. assert (p ≠ k) as Hnk.
           { intros <-. destruct Hk as [Hk|Hk].
             - by rewrite jm_has_delete_eq in Hk.
             - by apply (Hd p). }
           rewrite lookup_delete_ne by done. apply Hpeers.
           destruct Hk as [Hk|Hk]; [left; by apply jm_has_delete_true in Hk | by right].
      * apply (room_indexed_frame (socketToRoom st)); [by apply Inv|].
        intros k info Hk Hck. rewrite lookup_delete_ne; [done|].
        intros <-. destruct (Hmem _ r0 p E0 (or_introl Hp)) as (ip & Hip & Hcp). congruence.
  - (* signal *)
    injection Ha as <-. unfold signal.
    destruct (socketToRoom st !! id f) as [i0|]; [|done].
    destruct (rooms st !! ri_code i0) as [r0|]; [|done].
    destruct (negb _ && negb _); [done|]. by destruct (find_target r0 t).
  - (* handleDisconnect *)
    injection Ha as <-.
    destruct (socketToRoom st !! id s) as [i0|] eqn:Ei;
      [|by rewrite (handleDisconnect_unknown s st Ei)].
    destruct (rooms st !! ri_code i0) as [r0|] eqn:E0;
      [|unfold handleDisconnect; by rewrite Ei, E0].
    destruct (isHost i0) eqn:Eh.
    + rewrite (handleDisconnect_host s st i0 r0 Ei Eh E0).
      intros c r'. simpl. intros Hr'. apply lookup_delete_Some in Hr' as [Hne Hr'].
      apply (room_indexed_frame (socketToRoom st)); [by apply Inv|].
      intros k info Hk Hck.
      rewrite lookup_delete_ne by congruence. rewrite !notify_index.
      destruct (jm_has k (pendingPeers r0)) eqn:Ekp.
      { destruct (Hmem _ r0 k E0 (or_introl Ekp)) as (ik & Hik & Hcik). congruence. }
      destruct (jm_has k (approvedPeers r0)) eqn:Eka; [|done].
      destruct (Hmem _ r0 k E0 (or_intror Eka)) as (ik & Hik & Hcik). congruence.
    + unfold handleDisconnect. rewrite Ei, E0, Eh.
      destruct (Inv _ r0 E0) as [(hi & Hh & Hc & Hhost) Hpeers].
      intros c r'. simpl. intros Hr'.
      apply lookup_insert_Some in Hr' as [[<- <-]|[Hne Hr']].
      * split; simpl.
        -- exists hi. rewrite lookup_delete_ne; [done | congruence].
        -- intros k Hk. assert (id s ≠ k) as Hnk.
           { intros <-. destruct Hk as [Hk|Hk]; by rewrite jm_has_delete_eq in Hk. }
           rewrite lookup_delete_ne by done. apply Hpeers.
           destruct Hk as [Hk|Hk]; apply jm_has_delete_true in Hk; auto.
      * apply (room_indexed_frame (socketToRoom st)); [by apply Inv|].
        intros k info Hk Hck. rewrite lookup_delete_ne; [done | congruence].
  - (* rejoinRoom *)
    injection Ha as <-. unfold rejoinRoom, joinRoom.
    destruct (rooms st !! c0) as [r0|] eqn:E0; [|done].
    destruct (Inv c0 r0 E0) as [(hi & Hh & Hc & Hhost) Hpeers].
    destruct (fresh_not_member st c0 r0 (id s) Inv E0 Hg) as (Hns & Hnp & Hna).
    destruct h; intros c r'; simpl; intros Hr';
      (apply lookup_insert_Some in Hr' as [[<- <-]|[Hne Hr']];
       [|apply (room_indexed_frame (socketToRoom st)); [by apply Inv|];
         intros k info Hk _; rewrite lookup_insert_ne; [done | congruence]]).
    + split; simpl.
      * eexists. by rewrite lookup_insert_eq.
      * intros k Hk. rewrite lookup_insert_ne; [by apply Hpeers|].
        intros <-. destruct Hk; congruence.
    + split; simpl.
      * exists hi. by rewrite lookup_insert_ne.
      * intros k Hk. destruct (decide (id s = k)) as [<-|Hnk].
        -- eexists. by rewrite lookup_insert_eq.
        -- rewrite jm_has_set_ne in Hk by done. rewrite lookup_insert_ne by done.
           by apply Hpeers.
Qed.

(** X20.  When every [createRoom], [joinRoom] and [rejoinRoom] comes from a
    connection that has no index entry at that moment, then in every
    registry reached every member of every room has an index entry for that
    room's code, the host as host and the peers as peers; and every room has
    disjoint [pendingPeers] and [approvedPeers], with its host in neither. *)
Theorem one_enrolment_keeps_index (st : Registry) :
  reachable_by fresh_caller st →
  members_indexed st ∧ all_disjoint st.
Proof.
  intros H. induction H as [|o st out Hreach [Inv Hd] Hg Ha].
  - split; intros c r Hr; simpl in Hr; by rewrite lookup_empty in Hr.
  - split.
    + apply (step_indexed o st out); try done. by apply (reachable_wf fresh_caller).
    + apply (step_disjoint o st out); try done. by apply fresh_no_double.
Qed.

Lemma one_enrolment_keeps_index_witness :
  members_indexed (Scenarios.after Scenarios.host_back)
  ∧ all_disjoint (Scenarios.after Scenarios.host_back).
Proof.
  apply (one_enrolment_keeps_index (Scenarios.after Scenarios.host_back)).
  apply (allowed_run_reachable fresh_caller Scenarios.host_back empty_registry).
  - apply reach_empty.
  - simpl. repeat split; vm_compute; reflexivity.
  - vm_compute. reflexivity.
Defined.

End RoomsMore.

(** ** More on the session coordinator *)

Module ServerMore.
Import Rooms Server RoomsFacts.

Local Open Scope Z_scope.

Lemma before_comma_prefix k rest :
  Codes.occurs "," k = false → before_comma (k ++ String "," rest) = k.
Proof.
  induction k as [|c r IH]; simpl; [done|].
  destruct (Ascii.eqb c ","); simpl; [done|]. intros H. by rewrite IH.
Qed.

Lemma before_comma_whole k : Codes.occurs "," k = false → before_comma k = k.
Proof.
  induction k as [|c r IH]; simpl; [done|].
  destruct (Ascii.eqb c ","); simpl; [done|]. intros H. by rewrite IH.
Qed.

(** X21.  The address the limiters are keyed by is the client's to choose:
    whatever the handshake address, [getClientIp] returns the first
    comma-separated segment of the [x-forwarded-for] header with the white
    space at its ends trimmed off, when something is left of it. *)
Theorem client_chooses_its_ip (seg rest : string) (address : option string) :
  Codes.occurs "," seg = false →
  Codes.trim seg ≠ "" →
  getClientIp (Some (seg ++ String "," rest)) address = Codes.trim seg
  ∧ getClientIp (Some seg) address = Codes.trim seg.
Proof.
  intros Hc Hk. unfold getClientIp. simpl.
  rewrite before_comma_prefix, before_comma_whole by done.
  unfold or_else. by rewrite decide_False.
Qed.

Lemma client_chooses_its_ip_witness :
  getClientIp (Some " 203.0.113.9 , 10.0.0.1") (Some "198.51.100.1") = "203.0.113.9".
Proof.
  apply (client_chooses_its_ip " 203.0.113.9 " " 10.0.0.1" (Some "198.51.100.1")).
  - reflexivity.
  - discriminate.
Defined.

(** X22.  [getClientIp] never returns the empty string: without the header,
    or with one whose first segment is blank, it returns the handshake
    address, and without an address, or with an empty one, "unknown". *)
Theorem getClientIp_falls_back (forwarded address : option string) :
  getClientIp forwarded address ≠ ""
  ∧ ((forwarded = None ∨ ∃ h, forwarded = Some h ∧ Codes.trim (before_comma h) = "") →
       getClientIp forwarded address
       = match address with
         | Some a => if decide (a = "") then "unknown" else a
         | None => "unknown"
         end).
Proof.
  unfold getClientIp, or_else. split.
  - destruct forwarded as [h|]; simpl.
    + destruct (decide (Codes.trim (before_comma h) = "")); [|done].
      destruct address as [a|]; [|done]. by destruct (decide (a = "")).
    + destruct address as [a|]; [|done]. by destruct (decide (a = "")).
  - intros [->|(h & -> & Hh)]; simpl; [done|]. rewrite Hh. by rewrite decide_True.
Qed.

Lemma accept_all_run conns : ∀ lim,
  let_in <$> (accept_all conns lim).1 = (RateLimit.run lim (connection_calls conns)).1
  ∧ (accept_all conns lim).2 = (RateLimit.run lim (connection_calls conns)).2.
Proof.
  induction conns as [|h rest IH]; intros lim; [done|].
  cbn [accept_all connection_calls fmap list_fmap]. fold (connection_calls rest).
  rewrite RateLimitFacts.run_cons. unfold accept_connection.
  destruct (RateLimit.isAllowed (hs_now h) (getClientIp (hs_forwarded h) (hs_address h)) lim)
    as [ok lim1]. cbn [fst snd].
  destruct (IH lim1) as [IH1 IH2].
  destruct (accept_all rest lim1) as [sos lim2]. cbn [fst snd fmap list_fmap] in *.
  rewrite <- IH1, <- IH2. split; [|done]. by destruct ok.
Qed.

(** X23.  The middleware lets in exactly the first twenty connections an
    address makes in a minute: with the connection limiter as it starts,
    counted from the first connection attempt, from its address as
    [getClientIp] reports it, up to one minute later, the connections let
    in from that address are as many as were attempted, or twenty, whichever
    is smaller. *)
Theorem connections_capped_per_address (first : Handshake) (conns : list Handshake) :
  RateLimit.before_deadline (getClientIp (hs_forwarded first) (hs_address first))
    (hs_now first + 60000) (connection_calls conns) →
  RateLimit.allowed_count (getClientIp (hs_forwarded first) (hs_address first))
    (connection_calls (first :: conns))
    (let_in <$> (accept_all (first :: conns) RateLimit.connectionLimiter).1)
  = Z.min (1 + RateLimit.call_count (getClientIp (hs_forwarded first) (hs_address first))
                 (connection_calls conns)) 20.
Proof.
  intros Hd. destruct (accept_all_run (first :: conns) RateLimit.connectionLimiter) as [-> _].
  apply (RateLimitMore.window_exact RateLimit.connectionLimiter); [done | done | done].
Qed.

Lemma connections_capped_per_address_witness :
  RateLimit.allowed_count "203.0.113.9"
    (connection_calls [mkHandshake 0 (Some "203.0.113.9, 10.0.0.1") None "s1";
                       mkHandshake 5 None (Some "203.0.113.9") "s2"])
    (let_in <$> (accept_all [mkHandshake 0 (Some "203.0.113.9, 10.0.0.1") None "s1";
                             mkHandshake 5 None (Some "203.0.113.9") "s2"]
                   RateLimit.connectionLimiter).1)
  = Z.min (1 + RateLimit.call_count "203.0.113.9"
                 (connection_calls [mkHandshake 5 None (Some "203.0.113.9") "s2"])) 20.
Proof.
  apply (connections_capped_per_address
           (mkHandshake 0 (Some "203.0.113.9, 10.0.0.1") None "s1")
           [mkHandshake 5 None (Some "203.0.113.9") "s2"]).
  intros t Ht. apply list_elem_of_singleton in Ht. injection Ht as ->. done.
Defined.

(** *** What one request does *)

Lemma handleDisconnect_value s st : value (handleDisconnect s st) = RVoid.
Proof.
  unfold handleDisconnect.
  destruct (socketToRoom st !! id s) as [i0|]; [|done].
  destruct (rooms st !! ri_code i0) as [r0|]; [|done].
  destruct (isHost i0); [|done].
  destruct (notify_host_gone (approvedPeers r0) (socketToRoom st)) as [i1 e1].
  by destruct (notify_host_gone (pendingPeers r0) i1).
Qed.

(** A request is either turned away by the coordinator, which touches
    neither registry nor room counts and sends nothing, or passed to one
    registry call, whose error, if any, is the reply. *)
Lemma serve_cases cfg q srv out :
  serve cfg q srv = Some out →
  (registry (server out) = registry srv
   ∧ roomsPerIp (server out) = roomsPerIp srv ∧ sent out = [])
  ∨ ∃ o ro, apply o (registry srv) = Some ro
            ∧ registry (server out) = state ro
            ∧ sent out = effects ro
            ∧ (∀ message, reply out = Plain (RError message) →
                 value ro = RError message
                 ∧ roomsPerIp (server out) = roomsPerIp srv).
Proof.
  destruct q as [now draws stamp s|now live c nm s|live c h nm s|p a s|now t pl s|s]; simpl.
  - unfold rpc_createRoom.
    destruct (RateLimit.isAllowed now (clientIp s) (roomCreationLimiter srv)) as [ok lim].
    destruct ok; simpl; [|intros [= <-]; by left].
    destruct (maxRoomsPerIp cfg <=? _); [intros [= <-]; by left|].
    destruct (createRoom draws stamp s (registry srv)) as [ro|] eqn:E; [|done].
    intros [= <-]. right. exists (CreateRoom draws stamp s), ro. by repeat split.
  - unfold rpc_joinRoom.
    destruct (RateLimit.isAllowed now (clientIp s) (joinLimiter srv)) as [ok lim].
    destruct ok; simpl; [|intros [= <-]; by left].
    destruct (validateCode (Codes.normalizeCode c)); simpl; [|intros [= <-]; by left].
    destruct (match getRoom _ _ with Some _ => _ | None => _ end);
      [intros [= <-]; by left|].
    intros [= <-]. right.
    exists (JoinRoom live s (Codes.normalizeCode c) (or_anonymous nm)). eexists.
    split; [reflexivity|]. simpl. split; [done|]. split; [done|].
    intros message. destruct (value _); try done. by intros [= ->].
  - intros [= <-]. right.
    exists (RejoinRoom live s (Codes.normalizeCode c) h (or_anonymous nm)). eexists.
    split; [reflexivity|]. simpl. split; [done|]. split; [done|]. by intros message [= ->].
  - intros [= <-]. right. exists (ApprovePeer s p (not_false a)). eexists.
    split; [reflexivity|]. simpl. split; [done|]. split; [done|]. by intros message [= ->].
  - unfold rpc_signal.
    destruct (RateLimit.isAllowed now (id s) (signalLimiter srv)) as [ok lim].
    destruct ok; simpl; [|intros [= <-]; by left].
    destruct (maxPayloadSize cfg <? _); [intros [= <-]; by left|].
    intros [= <-]. right. exists (SignalOp s t pl). eexists.
    split; [reflexivity|]. simpl. split; [done|]. split; [done|]. by intros message [= ->].
  - intros [= <-]. right. exists (HandleDisconnect s). eexists.
    split; [reflexivity|]. unfold onDisconnect.
    destruct (match getRoomBySocket s (registry srv) with Some _ => _ | None => _ end);
      cbn [server sent reply registry with_registry with_roomsPerIp];
      (split; [done|]); (split; [done|]);
      intros message; by rewrite handleDisconnect_value.
Qed.

(** Only [createRoom] and a disconnect touch [roomsPerIp]. *)
Lemma serve_counts cfg q srv out :
  serve cfg q srv = Some out →
  touches_counts q = false →
  roomsPerIp (server out) = roomsPerIp srv.
Proof.
  destruct q as [now draws stamp s|now live c nm s|live c h nm s|p a s|now t pl s|s];
    simpl; try done.
  - unfold rpc_joinRoom.
    destruct (RateLimit.isAllowed now (clientIp s) (joinLimiter srv)) as [ok lim].
    destruct ok; simpl; [|by intros [= <-]].
    destruct (validateCode (Codes.normalizeCode c)); simpl; [|by intros [= <-]].
    destruct (match getRoom _ _ with Some _ => _ | None => _ end); by intros [= <-].
  - by intros [= <-].
  - by intros [= <-].
  - unfold rpc_signal.
    destruct (RateLimit.isAllowed now (id s) (signalLimiter srv)) as [ok lim].
    destruct ok; simpl; [|by intros [= <-]].
    destruct (maxPayloadSize cfg <? _); by intros [= <-].
Qed.

(** X24.  A request that is answered with an error has changed neither the
    registry nor the room counts and has sent nothing; only a limiter may
    have counted it. *)
Theorem refusal_leaves_server (cfg : Config) (q : Request) (srv : Server)
    (out : RpcOutcome) (message : string) :
  serve cfg q srv = Some out →
  reply out = Plain (RError message) →
  registry (server out) = registry srv
  ∧ roomsPerIp (server out) = roomsPerIp srv
  ∧ sent out = [].
Proof.
  intros Hs Hr.
  destruct (serve_cases cfg q srv out Hs) as [H|(o & ro & Ha & Hst & Hfx & Hv)]; [done|].
  destruct (Hv _ Hr) as [Hval Hc].
  destruct (RoomsMore.error_is_noop o _ ro message Ha Hval) as [Hsame Hnone].
  rewrite Hst, Hfx. done.
Qed.

Lemma refusal_leaves_server_witness :
  registry (server (rpc_joinRoom Scenarios.cfg0 30 Scenarios.all_live " abc-def-ghj"
                      (Some "Alice") Scenarios.peer_p
                      (server (Scenarios.served Scenarios.req_admitted))))
  = registry (server (Scenarios.served Scenarios.req_admitted))
  ∧ roomsPerIp (server (rpc_joinRoom Scenarios.cfg0 30 Scenarios.all_live " abc-def-ghj"
                          (Some "Alice") Scenarios.peer_p
                          (server (Scenarios.served Scenarios.req_admitted))))
    = roomsPerIp (server (Scenarios.served Scenarios.req_admitted))
  ∧ sent (rpc_joinRoom Scenarios.cfg0 30 Scenarios.all_live " abc-def-ghj"
            (Some "Alice") Scenarios.peer_p
            (server (Scenarios.served Scenarios.req_admitted)))
    = [].
Proof.
  apply (refusal_leaves_server Scenarios.cfg0
           (ReqJoinRoom 30 Scenarios.all_live " abc-def-ghj" (Some "Alice") Scenarios.peer_p)
           (server (Scenarios.served Scenarios.req_admitted)) _ "Invalid code format").
  - reflexivity.
  - vm_compute. reflexivity.
Defined.

(** Every registry the coordinator reaches is one that registry calls
    reach. *)
Lemma served_registry_reachable cfg srv : served_by cfg srv → reachable (registry srv).
Proof.
  intros H. induction H as [|q srv out Hs IH Hq]; [apply reach_empty|].
  destruct (serve_cases cfg q srv out Hq) as [(-> & _)|(o & ro & Ha & -> & _)]; [done|].
  by apply (reach_step any_call o (registry srv) ro).
Qed.

Lemma release_room_bounded cfg ip (m : gmap string Z) :
  (∀ ip' n, m !! ip' = Some n → 1 <= n <= maxRoomsPerIp cfg) →
  ∀ ip' n, release_room ip m !! ip' = Some n → 1 <= n <= maxRoomsPerIp cfg.
Proof.
  intros Inv ip' n. unfold release_room, count_or_one.
  destruct (m !! ip) as [n0|] eqn:E.
  - pose proof (Inv ip n0 E) as B.
    destruct (n0 =? 0) eqn:E0; [apply Z.eqb_eq in E0; lia|].
    destruct (n0 <=? 1) eqn:E1.
    + intros H. apply lookup_delete_Some in H as [_ H]. by apply (Inv ip').
    + apply Z.leb_gt in E1. intros H.
      apply lookup_insert_Some in H as [[<- <-]|[_ H]]; [lia | by apply (Inv ip')].
  - simpl. intros H. apply lookup_delete_Some in H as [_ H]. by apply (Inv ip').
Qed.

(** X25.  In every state the coordinator reaches, every room count it keeps
    for an address is at least one and at most [maxRoomsPerIp]: the counter
    never stores zero and never passes the cap. *)
Theorem room_counts_stay_bounded (cfg : Config) (srv : Server) :
  served_by cfg srv → counts_bounded cfg srv.
Proof.
  intros H. induction H as [|q srv out Hs IH Hq].
  - intros ip n Hn. simpl in Hn. by rewrite lookup_empty in Hn.
  - destruct (touches_counts q) eqn:Et.
    + destruct q as [now draws stamp s| | | | |s]; try done; simpl in Hq.
      * unfold rpc_createRoom in Hq.
        destruct (RateLimit.isAllowed now (clientIp s) (roomCreationLimiter srv))
          as [ok lim].
        destruct ok; simpl in Hq; [|by injection Hq as <-].
        destruct (maxRoomsPerIp cfg <=? default 0 (roomsPerIp srv !! clientIp s)) eqn:Ec;
          [by injection Hq as <-|].
        destruct (createRoom draws stamp s (registry srv)) as [ro|]; [|done].
        injection Hq as <-. intros ip n. simpl. intros Hn.
        apply Z.leb_gt in Ec.
        apply lookup_insert_Some in Hn as [[<- <-]|[_ Hn]]; [|by apply (IH ip)].
        destruct (roomsPerIp srv !! clientIp s) as [n0|] eqn:E0; simpl in *.
        -- pose proof (IH _ _ E0). lia.
        -- lia.
      * injection Hq as <-. unfold onDisconnect. intros ip n. simpl.
        destruct (match getRoomBySocket s (registry srv) with Some _ => _ | None => _ end);
          simpl; [|by apply IH].
        by apply release_room_bounded.
    + intros ip n. rewrite (serve_counts cfg q srv out Hq Et). by apply IH.
Qed.

Lemma serve_all_served cfg qs : ∀ last out,
  served_by cfg (server last) → serve_all cfg qs last = Some out →
  served_by cfg (server out).
Proof.
  induction qs as [|q rest IH]; intros last out Hl; simpl.
  - by intros [= <-].
  - destruct (serve cfg q (server last)) as [o1|] eqn:E; [|done].
    apply IH. by apply (served_step cfg q (server last) o1).
Qed.

Lemma served_scenario qs out :
  serve_all Scenarios.cfg0 qs started = Some out →
  served_by Scenarios.cfg0 (server (Scenarios.served qs)).
Proof.
  intros H. unfold Scenarios.served. rewrite H. simpl.
  apply (serve_all_served Scenarios.cfg0 qs started out); [apply served_start | done].
Qed.

Lemma room_counts_stay_bounded_witness :
  counts_bounded Scenarios.cfg0 (server (Scenarios.served Scenarios.req_host_back)).
Proof.
  apply (room_counts_stay_bounded Scenarios.cfg0).
  eapply served_scenario. vm_compute. reflexivity.
Defined.

(** X26.  Every registry the coordinator reaches by serving requests is a
    registry that registry calls reach from the empty one; what holds of all
    reachable registries holds in the running server. *)
Theorem coordinator_registry_is_reachable (cfg : Config) (srv : Server) :
  served_by cfg srv → reachable (registry srv).
Proof. apply served_registry_reachable. Qed.

Lemma coordinator_registry_is_reachable_witness :
  reachable (registry (server (Scenarios.served Scenarios.req_host_back))).
Proof.
  apply (coordinator_registry_is_reachable Scenarios.cfg0).
  eapply served_scenario. vm_compute. reflexivity.
Defined.

(** X27.  The [joinRoom] method keeps to the pending cap: a join it accepts
    leaves at most [maxPendingPerRoom] entries in the room's [pendingPeers],
    and for a room that already has that many it answers with an error. *)
Theorem join_respects_pending_cap (cfg : Config) (now : Z) (live : Socket → bool)
    (c : string) (nm : option string) (s : Socket) (srv : Server) :
  (∀ r, reply (rpc_joinRoom cfg now live c nm s srv) = WithIce r →
     ∃ room', rooms (registry (server (rpc_joinRoom cfg now live c nm s srv)))
                !! Codes.normalizeCode c = Some room'
              ∧ jm_size (pendingPeers room') <= maxPendingPerRoom cfg)
  ∧ (∀ room, rooms (registry srv) !! Codes.normalizeCode c = Some room →
     maxPendingPerRoom cfg <= jm_size (pendingPeers room) →
     ∃ message, reply (rpc_joinRoom cfg now live c nm s srv) = Plain (RError message)).
Proof.
  unfold rpc_joinRoom.
  destruct (RateLimit.isAllowed now (clientIp s) (joinLimiter srv)) as [ok lim].
  destruct ok; simpl; [|split; [done | by eexists]].
  destruct (validateCode (Codes.normalizeCode c)); simpl; [|split; [done | by eexists]].
  unfold getRoom. cbn [with_joinLimiter registry].
  destruct (rooms (registry srv) !! Codes.normalizeCode c) as [room|] eqn:Er.
  - destruct (maxPendingPerRoom cfg <=? jm_size (pendingPeers room)) eqn:Ec.
    + split; [done | by eexists].
    + apply Z.leb_gt in Ec. split.
      * intros r _. unfold joinRoom. rewrite Er. simpl. rewrite lookup_insert_eq.
        eexists. split; [done|]. simpl. rewrite RoomsMore.jm_set_size.
        destruct (jm_has (id s) (pendingPeers room)); lia.
      * intros room0 [= <-] Hfull. lia.
  - split; [|done]. unfold joinRoom. rewrite Er. simpl. done.
Qed.

Lemma join_respects_pending_cap_witness :
  ∃ room', rooms (registry (server (rpc_joinRoom Scenarios.cfg0 1 Scenarios.all_live
                                      "abc-def-ghj" None Scenarios.peer_p
                                      (server (Scenarios.served
                                                 [ReqCreateRoom 0 [Scenarios.the_code] 0
                                                    Scenarios.host_a])))))
             !! Codes.normalizeCode "abc-def-ghj" = Some room'
           ∧ jm_size (pendingPeers room') <= maxPendingPerRoom Scenarios.cfg0.
Proof.
  destruct (join_respects_pending_cap Scenarios.cfg0 1 Scenarios.all_live "abc-def-ghj"
              None Scenarios.peer_p
              (server (Scenarios.served
                         [ReqCreateRoom 0 [Scenarios.the_code] 0 Scenarios.host_a])))
    as [H _].
  apply (H (RJoined "peer-p" true)). vm_compute. reflexivity.
Defined.

(** X28.  The [rejoinRoom] method with [isHost] false joins without the
    checks of [joinRoom]: for any existing room it enters the connection in
    [pendingPeers] and answers success, with no validation of the code's
    shape, no charge to the join limiter and no pending cap, so the pending
    list of a room grows by one for each new connection whatever its
    size. *)
Theorem rejoin_skips_join_checks (live : Socket → bool) (c : string)
    (nm : option string) (s : Socket) (srv : Server) (room : Room) :
  rooms (registry srv) !! Codes.normalizeCode c = Some room →
  reply (rpc_rejoinRoom live c false nm s srv)
  = Plain (RJoined (id s) (live (hostSocket room)))
  ∧ (∃ room', rooms (registry (server (rpc_rejoinRoom live c false nm s srv)))
                !! Codes.normalizeCode c = Some room'
              ∧ jm_get (id s) (pendingPeers room') = Some (mkPeer s (or_anonymous nm))
              ∧ jm_size (pendingPeers room')
                = jm_size (pendingPeers room)
                  + (if jm_has (id s) (pendingPeers room) then 0 else 1))
  ∧ joinLimiter (server (rpc_rejoinRoom live c false nm s srv)) = joinLimiter srv.
Proof.
  intros Hr. unfold rpc_rejoinRoom, rejoinRoom, joinRoom. rewrite Hr. simpl.
  split; [done|]. split; [|done].
  eexists. rewrite lookup_insert_eq. split; [done|]. simpl.
  split; [apply jm_get_set_eq | apply RoomsMore.jm_set_size].
Qed.

Lemma rejoin_skips_join_checks_witness :
  reply (rpc_rejoinRoom Scenarios.all_live "ABC DEF GHJ" false None Scenarios.peer_p
           (server (Scenarios.served Scenarios.req_asked_again)))
  = Plain (RJoined "peer-p" true).
Proof.
  apply (rejoin_skips_join_checks Scenarios.all_live "ABC DEF GHJ" None Scenarios.peer_p
           (server (Scenarios.served Scenarios.req_asked_again))
           (mkRoom Scenarios.the_code Scenarios.host_a "host-a"
              [("peer-p", mkPeer Scenarios.peer_p "Alice")]
              [("peer-p", mkPeer Scenarios.peer_p "Alice")] 0)).
  vm_compute. reflexivity.
Defined.

(** X30.  A [createRoom] request that succeeds adds exactly one to the room
    count of the caller's address, which was below [maxRoomsPerIp], and the
    room it reports is in the registry with the caller as host; the other
    addresses keep their counts. *)
Theorem createRoom_counts_one (cfg : Config) (now : Z) (draws : list string) (stamp : Z)
    (s : Socket) (srv : Server) (out : RpcOutcome) (r : Result) :
  rpc_createRoom cfg now draws stamp s srv = Some out →
  reply out = WithIce r →
  room_count (clientIp s) srv < maxRoomsPerIp cfg
  ∧ room_count (clientIp s) (server out) = room_count (clientIp s) srv + 1
  ∧ (∀ ip, ip ≠ clientIp s → roomsPerIp (server out) !! ip = roomsPerIp srv !! ip)
  ∧ ∃ c, r = RCode c ∧ c ∈ draws ∧ rooms (registry srv) !! c = None
         ∧ rooms (registry (server out)) !! c = Some (mkRoom c s (id s) [] [] stamp).
Proof.
  unfold rpc_createRoom, room_count.
  destruct (RateLimit.isAllowed now (clientIp s) (roomCreationLimiter srv)) as [ok lim].
  destruct ok; simpl; [|by intros [= <-]].
  destruct (maxRoomsPerIp cfg <=? default 0 (roomsPerIp srv !! clientIp s)) eqn:Ec;
    [by intros [= <-]|].
  unfold createRoom.
  destruct (generate_unused (rooms (registry srv)) draws) as [c|] eqn:G; [|done].
  apply generate_unused_fresh in G as [G1 G2].
  intros [= <-] [= <-]. simpl. apply Z.leb_gt in Ec.
  split; [lia|]. split; [by rewrite lookup_insert_eq|]. split.
  - intros ip Hip. by rewrite lookup_insert_ne.
  - exists c. by rewrite lookup_insert_eq.
Qed.

Lemma createRoom_counts_one_witness :
  room_count "198.51.100.1" initial_server < maxRoomsPerIp Scenarios.cfg0.
Proof.
  apply (createRoom_counts_one Scenarios.cfg0 0 [Scenarios.the_code] 0 Scenarios.host_a
           initial_server
           (Scenarios.served [ReqCreateRoom 0 [Scenarios.the_code] 0 Scenarios.host_a])
           (RCode Scenarios.the_code)).
  - vm_compute. reflexivity.
  - vm_compute. reflexivity.
Defined.

End ServerMore.

(** ** The activity log *)

Module AdminFacts.
Import Admin.

Local Open Scope list_scope.

Lemma logActivity_latest (e : Activity) (log : list Activity) :
  (length log ≤ MAX_LOG_SIZE)%nat →
  logActivity (act_time e) (act_type e) (act_details e) log
  = drop (length (log ++ [e]) - MAX_LOG_SIZE) (log ++ [e])
  ∧ (length (logActivity (act_time e) (act_type e) (act_details e) log)
     ≤ MAX_LOG_SIZE)%nat.
Proof.
  intros H. unfold logActivity. destruct e as [t ty d]. simpl.
  rewrite length_app. simpl.
  destruct (Nat.ltb MAX_LOG_SIZE (length log + 1)) eqn:E.
  - apply Nat.ltb_lt in E.
    assert (length log = MAX_LOG_SIZE) as Hl by lia.
    replace (length log + 1 - MAX_LOG_SIZE) with 1 by lia.
    split; [by destruct log|].
    destruct log; simpl in *; [lia|]. rewrite length_app. simpl. lia.
  - apply Nat.ltb_ge in E.
    replace (length log + 1 - MAX_LOG_SIZE) with 0 by lia.
    split; [done|]. rewrite length_app. simpl. lia.
Qed.

Lemma log_all_latest (entries : list Activity) : ∀ log : list Activity,
  (length log ≤ MAX_LOG_SIZE)%nat →
  log_all entries log
  = drop (length (log ++ entries) - MAX_LOG_SIZE) (log ++ entries).
Proof.
  induction entries as [|e rest IH]; intros log H; simpl.
  - rewrite app_nil_r. replace (length log - MAX_LOG_SIZE) with 0 by lia. done.
  - destruct (logActivity_latest e log H) as [-> Hlen].
    rewrite IH by (by rewrite length_drop, length_app; simpl; lia).
    rewrite length_app, length_drop, !length_app. simpl.
    rewrite (cons_middle e log rest), app_assoc.
    rewrite <- (drop_app_le (log ++ [e]) rest) by (rewrite length_app; simpl; lia).
    rewrite drop_drop. f_equal. lia.
Qed.

(** X29.  The activity log is the window of the latest hundred entries:
    after any entries have been logged to the empty log, the log holds the
    last hundred of them (all of them when there are fewer) in the order
    they were logged, and [recentActivity] is the latest twenty, newest
    first. *)
Theorem log_keeps_latest (entries : list Activity) :
  log_all entries [] = drop (length entries - MAX_LOG_SIZE) entries
  ∧ (length (log_all entries []) ≤ MAX_LOG_SIZE)%nat
  ∧ recentActivity (log_all entries []) = take 20 (reverse entries).
Proof.
  assert (log_all entries [] = drop (length entries - MAX_LOG_SIZE) entries) as E.
  { rewrite log_all_latest by (simpl; unfold MAX_LOG_SIZE; lia). done. }
  split; [done|]. rewrite E. split.
  - rewrite length_drop. unfold MAX_LOG_SIZE. lia.
  - unfold recentActivity. rewrite <- take_reverse.
    set (k := length entries - MAX_LOG_SIZE).
    assert (reverse (drop k entries) = take (length entries - k) (reverse entries)) as ->.
    { rewrite take_reverse. f_equal. f_equal. unfold k. lia. }
    rewrite take_take. unfold k, MAX_LOG_SIZE.
    destruct (decide (20 ≤ length entries)%nat).
    + f_equal. lia.
    + rewrite !take_ge; [done | rewrite length_reverse; lia | rewrite length_reverse; lia].
Qed.

End AdminFacts.